(** * Connect-Four strong-solver driver: transposition table, answer lines
      of the solver process, board codec, alpha-beta search, histogram.

    Shallow embedding of [alphabeta.py].  Python integers are unbounded, so
    keys, slot words and board codes are [Z]; indices, probe distances and
    counters, which the program keeps non-negative, are [nat].  Exceptions
    are values of [outcome]. *)

From Stdlib Require Import ZArith Lia String Ascii List Bool.
From stdpp Require Import base tactics list gmap.

Local Open Scope Z_scope.

(** ** Exceptions *)

Inductive exn : Type :=
| ValueError
| AssertionError
| IndexError
| UnboundLocalError.

(** The result of running a piece of the program: a value, a raised
    exception, or [OutOfFuel] when the bounded model of a loop or of the
    recursion was not given enough steps. *)
Inductive outcome (A : Type) : Type :=
| Ok (a : A)
| Raise (e : exn)
| OutOfFuel.

Arguments Ok {A} a.
Arguments Raise {A} e.
Arguments OutOfFuel {A}.

Definition bind {A B : Type} (m : outcome A) (k : A -> outcome B) : outcome B :=
  match m with
  | Ok a => k a
  | Raise e => Raise e
  | OutOfFuel => OutOfFuel
  end.

Notation "'do' x <- m ; k" := (bind m (fun x => k))
  (at level 10, x name, m at level 100, k at level 200).
Notation "'do' ' p <- m ; k" := (bind m (fun p => k))
  (at level 10, p pattern, m at level 100, k at level 200).

(** [l[i]] for a Python list: [IndexError] past the end. *)
Definition list_get {A : Type} (l : list A) (i : nat) : outcome A :=
  match l !! i with
  | Some a => Ok a
  | None => Raise IndexError
  end.

(** ** class TT49x8RobinHood *)

Module TT.

Definition KEY_BITS : Z := 50.
Definition KEY_MASK : Z := Z.shiftl 1 KEY_BITS - 1.
Definition VAL_SHIFT : Z := KEY_BITS.
Definition KEY_MAX : Z := Z.shiftl 1 49 - 1.

Definition M64 : Z := Z.shiftl 1 64 - 1.

(** [_hash64]: the SplitMix64 finaliser on 64-bit words. *)
Definition _hash64 (x : Z) : Z :=
  let x := Z.land x M64 in
  let x := Z.land (x + 0x9E3779B97F4A7C15) M64 in
  let x := Z.land (Z.lxor x (Z.shiftr x 30) * 0xBF58476D1CE4E5B9) M64 in
  let x := Z.land (Z.lxor x (Z.shiftr x 27) * 0x94D049BB133111EB) M64 in
  Z.lxor x (Z.shiftr x 31).

(** The table object: [cap], the slot array and [size]. *)
Record t : Type := mk { cap : nat; slots : list Z; size : nat }.

(** [__init__]. *)
Definition new (capacity : Z) : outcome t :=
  if capacity <=? 0 then Raise ValueError
  else Ok (mk (Z.to_nat capacity) (replicate (Z.to_nat capacity) 0) 0).

Definition _home (cap : nat) (key_plus : Z) : nat :=
  Z.to_nat (_hash64 key_plus mod Z.of_nat cap).

Definition _dist (cap : nat) (idx home : nat) : nat :=
  if (home <=? idx)%nat then (idx - home)%nat else (idx + cap - home)%nat.

(** [i += 1; if i == cap: i = 0]. *)
Definition next (cap : nat) (i : nat) : nat :=
  if (S i =? cap)%nat then 0%nat else S i.

(** The [while dib < cap] loop of [get].  [dib] grows by one each round,
    so [cap - dib] rounds are always enough; [None] is the result when the
    fuel is gone with the loop condition still true. *)
Fixpoint get_loop (fuel : nat) (cap : nat) (slots : list Z) (kp : Z)
    (i dib : nat) : option (option Z) :=
  if (dib <? cap)%nat then
    match fuel with
    | O => None
    | S fuel' =>
        let e := slots !!! i in
        if e =? 0 then Some None
        else
          let ekp := Z.land e KEY_MASK in
          if ekp =? kp then Some (Some (Z.shiftr e VAL_SHIFT))
          else
            let inc_home := _home cap ekp in
            let inc_dib := _dist cap i inc_home in
            if (inc_dib <? dib)%nat then Some None
            else get_loop fuel' cap slots kp (next cap i) (S dib)
    end
  else Some None.

Definition get (tb : t) (key : Z) : outcome (option Z) :=
  if (key <? 0) || (key >? KEY_MAX) then Raise ValueError
  else
    let kp := key + 1 in
    match get_loop (cap tb) (cap tb) (slots tb) kp (_home (cap tb) kp) 0 with
    | Some r => Ok r
    | None => OutOfFuel
    end.

(** How the loop of [set] ended: by one of its two [return]s, or by the
    loop condition becoming false with an entry still in hand. *)
Inductive loop_exit : Type := Returned | Exhausted.

(** The [while dib < cap] loop of [set].  A swap resets [dib], so the
    number of rounds is not bounded by [cap]; see [set_fuel]. *)
Fixpoint set_loop (fuel : nat) (cap : nat) (slots : list Z) (size : nat)
    (kp entry : Z) (i dib : nat) : option (list Z * nat * loop_exit) :=
  if (dib <? cap)%nat then
    match fuel with
    | O => None
    | S fuel' =>
        let e := slots !!! i in
        if e =? 0 then Some (<[i := entry]> slots, S size, Returned)
        else
          let ekp := Z.land e KEY_MASK in
          if ekp =? kp then Some (<[i := entry]> slots, size, Returned)
          else
            let inc_home := _home cap ekp in
            let inc_dib := _dist cap i inc_home in
            if (inc_dib <? dib)%nat then
              set_loop fuel' cap (<[i := entry]> slots) size kp e
                (next cap i) (S inc_dib)
            else
              set_loop fuel' cap slots size kp entry (next cap i) (S dib)
    end
  else Some (slots, size, Exhausted).

(** Rounds that always suffice for the loop of [set] on a table of
    capacity [cap] (proved in [set_loop_fuel]). *)
Definition set_fuel (cap : nat) : nat := ((cap * cap + 1) * (cap + 1))%nat.

(** [set] up to the loop, keeping how the loop ended. *)
Definition set_run (tb : t) (key value : Z) : outcome (t * loop_exit) :=
  if (key <? 0) || (key >? KEY_MAX) then Raise ValueError
  else if (value <? 0) || (value >=? Z.shiftl 1 14) then Raise ValueError
  else
    let kp := key + 1 in
    let entry := Z.lor kp (Z.shiftl value VAL_SHIFT) in
    match set_loop (set_fuel (cap tb)) (cap tb) (slots tb) (size tb) kp entry
            (_home (cap tb) kp) 0 with
    | Some (sl, sz, ex) => Ok (mk (cap tb) sl sz, ex)
    | None => OutOfFuel
    end.

Definition set (tb : t) (key value : Z) : outcome t :=
  do '(tb', _) <- set_run tb key value; Ok tb'.

(** Whether [set] would leave its loop with the carried entry unplaced. *)
Definition set_exhausts (tb : t) (key value : Z) : bool :=
  match set_run tb key value with
  | Ok (_, Exhausted) => true
  | _ => false
  end.

(** The table invariant established by [new]. *)
Definition wf (tb : t) : Prop :=
  (0 < cap tb)%nat /\ length (slots tb) = cap tb.

End TT.

(** ** class WdlServer: the answer lines *)

(** A Python [str], by its code points. *)
Abbreviation pystr := (list N).

Definition tok_0 : pystr := [48%N].
Definition tok_1 : pystr := [49%N].
Definition tok_dot : pystr := [46%N].

(** What the reading loop of [query] ends with: the result of the parser
    on a line, or the [RuntimeError] at the end of the server's output. *)
Inductive reply : Type :=
| Answer (r : outcome (bool * list (option Z)))
| ServerGone.

Section Answers.

(** The two builtins the parser goes by: [str.isspace] on one character,
    which decides what [strip()] and [split()] remove, and [int] on a
    token, [None] standing for its [ValueError]. *)
Variable isspace : N -> bool.
Variable int_of : pystr -> option Z.

(** [s.lstrip()]. *)
Fixpoint lstrip (s : pystr) : pystr :=
  match s with
  | [] => []
  | c :: s' => if isspace c then lstrip s' else s
  end.

(** [s.strip()]. *)
Definition strip (s : pystr) : pystr :=
  reverse (lstrip (reverse (lstrip s))).

(** [s.split()], with the characters of the token being read in [tok],
    last first. *)
Fixpoint split_from (s : pystr) (tok : pystr) : list pystr :=
  match s with
  | [] => match tok with [] => [] | _ => [reverse tok] end
  | c :: s' =>
      if isspace c then
        match tok with
        | [] => split_from s' []
        | _ => reverse tok :: split_from s' []
        end
      else split_from s' (c :: tok)
  end.

Definition split (s : pystr) : list pystr := split_from s [].

(** The loop [for t in toks[1:]] of the parser. *)
Fixpoint parse_vals (toks : list pystr) : outcome (list (option Z)) :=
  match toks with
  | [] => Ok []
  | t :: toks' =>
      do v <- (if bool_decide (t = tok_dot) then Ok None
               else match int_of t with
                    | Some z => Ok (Some z)
                    | None => Raise ValueError
                    end);
      do vals <- parse_vals toks';
      Ok (v :: vals)
  end.

(** [toks[0] in ("0", "1")]. *)
Definition is_flag (t : pystr) : bool :=
  bool_decide (t = tok_0) || bool_decide (t = tok_1).

Definition _parse_compact_line (line : pystr)
    : outcome (bool * list (option Z)) :=
  let toks := split (strip line) in
  if negb (length toks =? 8)%nat then Raise ValueError
  else
    do t0 <- list_get toks 0;
    if negb (is_flag t0) then Raise ValueError
    else
      let terminal := bool_decide (t0 = tok_1) in
      do vals <- parse_vals (drop 1 toks);
      Ok (terminal, vals).

(** The [while True] loop of [query] on the lines the server still
    prints, in the order [readline()] returns them; at their end
    [readline()] returns the empty string.  The result comes with the
    lines left unread. *)
Fixpoint read_answer (lines : list pystr) : list pystr * reply :=
  match lines with
  | [] => ([], ServerGone)
  | line :: rest =>
      match line with
      | [] => (rest, ServerGone)
      | _ =>
          let s := strip line in
          match s with
          | [] => read_answer rest
          | _ =>
              let toks := split s in
              if (length toks =? 8)%nat
                 && match toks with t0 :: _ => is_flag t0 | [] => false end
              then (rest, Answer (_parse_compact_line s))
              else read_answer rest
          end
      end
  end.

End Answers.

(** ** Board codec *)

(** A board under construction: rows top to bottom, each a list of
    cells. *)
Abbreviation board_t := (list (list ascii)).

#[global] Instance ascii_inhabited : Inhabited ascii := populate "."%char.

(** [[["."] * width for _ in range(height)]]. *)
Definition empty_board (width height : nat) : board_t :=
  replicate height (replicate width "."%char).

(** [board[row][col] = stone]; both indices are in range wherever the
    program does this (the move loops check [col] and the column height,
    the decoder checks the decoded height). *)
Definition board_set (board : board_t) (row col : nat) (stone : ascii) : board_t :=
  <[row := <[col := stone]> (board !!! row)]> board.

(** ["".join("".join(board[r]) for r in range(height))]. *)
Definition join_rows (board : board_t) (height : nat) : string :=
  string_of_list_ascii (concat (map (fun r => board !!! r) (seq 0 height))).

(** The two tests every move character goes through: a decimal digit,
    then a column below [width]. *)
Definition parse_move (width : nat) (ch : ascii) : outcome nat :=
  let o := nat_of_ascii ch in
  if negb ((48 <=? o)%nat && (o <=? 57)%nat) then Raise ValueError
  else
    let col := (o - 48)%nat in
    if negb (col <? width)%nat then Raise ValueError else Ok col.

(** The move loop of [moveseq_to_board_42], from ply [ply] on. *)
Fixpoint board42_loop (width height : nat) (moveseq : string) (ply : nat)
    (board : board_t) (heights : list nat) : outcome board_t :=
  match moveseq with
  | EmptyString => Ok board
  | String ch rest =>
      do col <- parse_move width ch;
      if (height <=? heights !!! col)%nat then Raise ValueError
      else
        let row_from_bottom := heights !!! col in
        let row := (height - 1 - row_from_bottom)%nat in
        let stone := if (ply mod 2 =? 0)%nat then "x"%char else "o"%char in
        board42_loop width height rest (S ply) (board_set board row col stone)
          (<[col := S (heights !!! col)]> heights)
  end.

Definition moveseq_to_board_42_gen (moveseq : string) (width height : nat)
    : outcome string :=
  do board <- board42_loop width height moveseq 0 (empty_board width height)
                (replicate width 0%nat);
  Ok (join_rows board height).

(** [int.bit_length]. *)
Definition bit_length (n : Z) : Z :=
  if n =? 0 then 0 else Z.log2 (Z.abs n) + 1.

(** The inner loop of the decoder: the stones of one column, bottom up. *)
Definition fill_column (height col : nat) (pattern : Z) (h : nat)
    (board : board_t) : board_t :=
  fold_left
    (fun board row_from_bottom =>
       let row := (height - 1 - row_from_bottom)%nat in
       let is_o := Z.land (Z.shiftr pattern (Z.of_nat row_from_bottom)) 1 in
       board_set board row col (if is_o =? 0 then "x"%char else "o"%char))
    (seq 0 h) board.

(** One round of the decoder's loop over the columns. *)
Definition decode_column (board49 : Z) (height : nat) (board : board_t)
    (col : nat) : outcome board_t :=
  let mask7 := Z.shiftl 1 7 - 1 in
  let col_code := Z.land (Z.shiftr board49 (7 * Z.of_nat col)) mask7 in
  let max_code := Z.shiftl 1 (Z.of_nat height + 1) - 2 in
  if col_code >? max_code then Raise ValueError
  else
    let h := bit_length (col_code + 1) - 1 in
    if h >? Z.of_nat height then Raise ValueError
    else
      let base := Z.shiftl 1 h - 1 in
      let pattern := col_code - base in
      Ok (fill_column height col pattern (Z.to_nat h) board).

Fixpoint decode_columns (board49 : Z) (height : nat) (cols : list nat)
    (board : board_t) : outcome board_t :=
  match cols with
  | [] => Ok board
  | col :: cols' =>
      do board' <- decode_column board49 height board col;
      decode_columns board49 height cols' board'
  end.

Definition board49_to_board42_gen (board49 : Z) (width height : nat)
    : outcome string :=
  if board49 <? 0 then Raise ValueError
  else
    do board <- decode_columns board49 height (seq 0 width)
                  (empty_board width height);
    Ok (join_rows board height).

(** The move loop of [moveseq_to_board49], from ply [ply] on. *)
Fixpoint board49_loop (width height : nat) (moveseq : string) (ply : nat)
    (heights : list nat) (patterns : list Z) : outcome (list nat * list Z) :=
  match moveseq with
  | EmptyString => Ok (heights, patterns)
  | String ch rest =>
      do col <- parse_move width ch;
      let h := heights !!! col in
      if (height <=? h)%nat then Raise ValueError
      else
        let patterns :=
          if Z.land (Z.of_nat ply) 1 =? 1
          then <[col := Z.lor (patterns !!! col) (Z.shiftl 1 (Z.of_nat h))]> patterns
          else patterns in
        board49_loop width height rest (S ply) (<[col := S h]> heights) patterns
  end.

(** The packing loop of [moveseq_to_board49]. *)
Definition pack_columns (heights : list nat) (patterns : list Z)
    (cols : list nat) : Z :=
  fold_left
    (fun board49 col =>
       let h := Z.of_nat (heights !!! col) in
       let pattern := Z.land (patterns !!! col) (Z.shiftl 1 h - 1) in
       let col_code := (Z.shiftl 1 h - 1) + pattern in
       Z.lor board49 (Z.shiftl col_code (7 * Z.of_nat col)))
    cols 0.

Definition moveseq_to_board49_gen (moveseq : string) (width height : nat)
    : outcome Z :=
  do _ <-
    (if negb (width =? 7)%nat || negb (height =? 6)%nat then
       if negb ((1 <=? width)%nat && ((1 <=? height)%nat && (height <=? 63)%nat))
       then Raise ValueError else Ok tt
     else Ok tt);
  do '(heights, patterns) <-
    board49_loop width height moveseq 0 (replicate width 0%nat)
      (replicate width 0);
  Ok (pack_columns heights patterns (seq 0 width)).

(** The three functions at their default [width=7, height=6], as the
    search and the diagnostics call them. *)
Definition moveseq_to_board_42 (moveseq : string) : outcome string :=
  moveseq_to_board_42_gen moveseq 7 6.
Definition board49_to_board42 (board49 : Z) : outcome string :=
  board49_to_board42_gen board49 7 6.
Definition moveseq_to_board49 (moveseq : string) : outcome Z :=
  moveseq_to_board49_gen moveseq 7 6.

(** ** Alpha-beta driver *)

(** The process-wide state: [TRANSPOSITION_TABLE], with the trace of the
    [TRANSPOSITION_TABLE.set(key, value)] calls that returned, oldest
    first.  The trace is specification state only: nothing reads it. *)
Record world : Type := World { table : TT.t; stores : list (Z * Z) }.

(** A piece of the driver: it runs on the global state and leaves a state
    behind also when it raises. *)
Definition prog (A : Type) : Type := world -> world * outcome A.

Definition ret {A : Type} (a : A) : prog A := fun w => (w, Ok a).

(** A computation that does not touch the table. *)
Definition lift {A : Type} (o : outcome A) : prog A := fun w => (w, o).

Definition pbind {A B : Type} (m : prog A) (k : A -> prog B) : prog B :=
  fun w =>
    match m w with
    | (w1, Ok a) => k a w1
    | (w1, Raise e) => (w1, Raise e)
    | (w1, OutOfFuel) => (w1, OutOfFuel)
    end.

Notation "'run' x <- m ; k" := (pbind m (fun x => k))
  (at level 10, x name, m at level 100, k at level 200).

(** [TRANSPOSITION_TABLE.get(key)]. *)
Definition tt_get (key : Z) : prog (option Z) :=
  fun w => (w, TT.get (table w) key).

(** [TRANSPOSITION_TABLE.set(key, value)]. *)
Definition tt_set (key value : Z) : prog unit :=
  fun w =>
    match TT.set (table w) key value with
    | Ok tb => (World tb (stores w ++ [(key, value)]), Ok tt)
    | Raise e => (w, Raise e)
    | OutOfFuel => (w, OutOfFuel)
    end.

Definition MOVE_ORDERING : list nat := [3; 2; 4; 1; 5; 0; 6]%nat.

(** [str(move)] for a one-digit [move]. *)
Definition str_move (move : nat) : string :=
  String (ascii_of_nat (48 + move)) EmptyString.

(** [moveseq[:-1]]. *)
Fixpoint drop_last (s : string) : string :=
  match s with
  | EmptyString => EmptyString
  | String _ EmptyString => EmptyString
  | String c rest => String c (drop_last rest)
  end.

(** [max(x for x in wdl_list if x is not None)]; [ValueError] on no
    value. *)
Definition max_defined (wdl_list : list (option Z)) : outcome Z :=
  match omap id wdl_list with
  | [] => Raise ValueError
  | x :: xs => Ok (fold_left Z.max xs x)
  end.

(** [wdl_list[move] == value]. *)
Definition wdl_is (x : option Z) (value : Z) : bool :=
  match x with
  | Some y => y =? value
  | None => false
  end.

(** The first [move] of [moves] with [wdl_list[move] == value]. *)
Fixpoint first_best (wdl_list : list (option Z)) (value : Z)
    (moves : list nat) : outcome (option nat) :=
  match moves with
  | [] => Ok None
  | move :: moves' =>
      do x <- list_get wdl_list move;
      if wdl_is x value then Ok (Some move)
      else first_best wdl_list value moves'
  end.

(** [assert c]. *)
Definition assert (c : bool) : outcome unit :=
  if c then Ok tt else Raise AssertionError.

Section Search.

(** [srv.query], the oracle: the terminal flag and the seven per-column
    values of a position.  The subprocess protocol is outside the model. *)
Variable query : string -> bool * list (option Z).

(** The [if is_terminal:] block, up to the value. *)
Definition terminal_value (moveseq : string) : outcome Z :=
  if (String.length moveseq =? 42)%nat then
    let '(_, _wdl_list) := query (drop_last moveseq) in
    do m <- max_defined _wdl_list;
    if m =? 1 then Ok (-1) else Ok 0
  else Ok (-1).

(** What the table probe at entry decides. *)
Inductive probe_result : Type :=
| Cut (v : Z)
| Window (alpha beta ub : Z).

Definition probe (tt_value : option Z) (alpha beta : Z) : probe_result :=
  match tt_value with
  | Some tt_value =>
      let lb := tt_value mod 16 - 1 in
      let ub := tt_value / 16 - 1 in
      if lb >=? beta then Cut lb
      else if ub <=? alpha then Cut ub
      else Window (Z.max alpha lb) (Z.min beta ub) ub
  | None => Window alpha beta 1
  end.

Section Body.

(** The recursive call. *)
Variable search_rec : string -> Z -> Z -> prog Z.

(** The [if beta <= value:] block. *)
Definition search_cut (moveseq : string) (board : Z)
    (wdl_list : list (option Z)) (value alpha beta ub : Z) : prog unit :=
  run fm <- lift (first_best wdl_list value MOVE_ORDERING);
  run _ <-
    match fm with
    | Some move =>
        let next_moveseq := (moveseq ++ str_move move)%string in
        run r <- search_rec next_moveseq (- beta) (- alpha);
        let child_value := - r in
        run _ <- lift (assert (child_value =? value));
        lift (assert (child_value >=? beta))
    | None => ret tt
    end;
  tt_set board ((value + 1) + ((ub + 1) * 16)).

(** The second loop of the [else:] block, over the other moves. *)
Fixpoint search_others (moveseq : string) (wdl_list : list (option Z))
    (first_move : option nat) (alpha beta : Z) (moves : list nat)
    : prog unit :=
  match moves with
  | [] => ret tt
  | move :: moves' =>
      match first_move with
      | None => lift (Raise UnboundLocalError)
      | Some fm =>
          if (move =? fm)%nat then
            search_others moveseq wdl_list first_move alpha beta moves'
          else
            run x <- lift (list_get wdl_list move);
            match x with
            | Some _ =>
                let next_moveseq := (moveseq ++ str_move move)%string in
                run r <- search_rec next_moveseq (- beta) (- alpha);
                let child_value := - r in
                run _ <- lift (assert (child_value <=? alpha));
                search_others moveseq wdl_list first_move alpha beta moves'
            | None =>
                search_others moveseq wdl_list first_move alpha beta moves'
            end
      end
  end.

(** The [else:] block. *)
Definition search_pv (moveseq : string) (board : Z)
    (wdl_list : list (option Z)) (value alpha beta : Z) : prog unit :=
  run fm <- lift (first_best wdl_list value MOVE_ORDERING);
  run alpha1 <-
    match fm with
    | Some move =>
        let next_moveseq := (moveseq ++ str_move move)%string in
        run r <- search_rec next_moveseq (- alpha - 1) (- alpha);
        let child_value := - r in
        run _ <- lift (assert (child_value =? value));
        run _ <- lift (assert (child_value <? beta));
        ret (Z.max alpha value)
    | None => ret alpha
    end;
  run _ <- search_others moveseq wdl_list fm alpha1 beta MOVE_ORDERING;
  tt_set board ((value + 1) + ((value + 1) * 16)).

(** Everything after the oracle's answer. *)
Definition search_node (moveseq : string) (board : Z) (alpha beta ub : Z)
    : prog Z :=
  let '(is_terminal, wdl_list) := query moveseq in
  if is_terminal then
    run value <- lift (terminal_value moveseq);
    run _ <- tt_set board ((value + 1) + ((value + 1) * 16));
    ret value
  else
    run value <- lift (max_defined wdl_list);
    if beta <=? value then
      run _ <- search_cut moveseq board wdl_list value alpha beta ub;
      ret value
    else
      run _ <- search_pv moveseq board wdl_list value alpha beta;
      ret value.

Definition search_body (moveseq : string) (alpha beta : Z) : prog Z :=
  run board <- lift (moveseq_to_board49 moveseq);
  run tt_value <- tt_get board;
  match probe tt_value alpha beta with
  | Cut v => ret v
  | Window alpha' beta' ub => search_node moveseq board alpha' beta' ub
  end.

End Body.

(** [search], with [fuel] nested calls allowed. *)
Fixpoint search (fuel : nat) (moveseq : string) (alpha beta : Z) : prog Z :=
  match fuel with
  | O => lift OutOfFuel
  | S fuel' => search_body (search fuel') moveseq alpha beta
  end.

End Search.

(** ** The histogram of [__main__] *)

(** [sum(1 for c in board_str if c != ".")]. *)
Definition count_stones (board_str : string) : nat :=
  length (filter (fun c : ascii => c <> "."%char) (list_ascii_of_string board_str)).

(** One round of the loop over the slots: [node_count] after slot [i]
    ([val] and [node_kind] are computed and not used). *)
Definition scan_slot (slots : list Z) (node_count : list Z) (i : nat)
    : outcome (list Z) :=
  let e := slots !!! i in
  if negb (e =? 0) then
    let kp := Z.land e TT.KEY_MASK in
    let board := kp - 1 in
    do board_str <- board49_to_board42 board;
    let val := Z.shiftr e TT.VAL_SHIFT in
    let node_kind := Z.shiftr val 8 in
    let depth := count_stones board_str in
    do n <- list_get node_count depth;
    Ok (<[depth := n + 1]> node_count)
  else Ok node_count.

Fixpoint scan_slots (slots : list Z) (indices : list nat) (node_count : list Z)
    : outcome (list Z) :=
  match indices with
  | [] => Ok node_count
  | i :: indices' =>
      do node_count' <- scan_slot slots node_count i;
      scan_slots slots indices' node_count'
  end.

(** [node_count] when the loop is over. *)
Definition node_histogram (tb : TT.t) : outcome (list Z) :=
  scan_slots (TT.slots tb) (seq 0 (length (TT.slots tb))) (replicate 43 0).

(** ** Specification vocabulary *)

Module TTSpec.
Import TT.

(** The key field of a slot word. *)
Definition key_of (e : Z) : Z := Z.land e KEY_MASK.

(** Distance from home of the word [e] if it sits in slot [i]. *)
Definition dib_at (c : nat) (i : nat) (e : Z) : nat :=
  _dist c i (_home c (key_of e)).

(** Sum of the distances from home over the slots [j, j+1, ...] holding
    [l]: the quantity every swap of [set] increases. *)
Fixpoint potential (c : nat) (j : nat) (l : list Z) : nat :=
  match l with
  | [] => 0%nat
  | e :: l' => (dib_at c j e + potential c (S j) l')%nat
  end.

(** The slot [d] places before [i], cyclically ([d <= cap]). *)
Definition back (c : nat) (i d : nat) : nat :=
  if (d <=? i)%nat then (i - d)%nat else (i + c - d)%nat.

(** The slot [d] places after [h], cyclically ([d <= cap]). *)
Definition fwd (c : nat) (h d : nat) : nat :=
  if (h + d <? c)%nat then (h + d)%nat else (h + d - c)%nat.

(** Robin-Hood ordering of a slot array: from the home of the incumbent
    of an occupied slot [i] up to [i], cyclically, every slot is
    occupied. *)
Definition rh_ordered (c : nat) (sl : list Z) : Prop :=
  forall i : nat, (i < c)%nat -> sl !!! i <> 0 ->
  forall d : nat, (d <= dib_at c i (sl !!! i))%nat ->
  sl !!! back c i d <> 0.

Definition robin_hood (tb : t) : Prop := rh_ordered (cap tb) (slots tb).

(** The probe for [kp] meets, [n] slots after its home, the word [e]
    carrying [kp], and nothing before it stops the walk of [get]. *)
Definition probe_hit (c : nat) (sl : list Z) (kp : Z) (n : nat) (e : Z) : Prop :=
  (n < c)%nat /\
  (forall d : nat, (d < n)%nat ->
     let p := fwd c (_home c kp) d in
     sl !!! p <> 0 /\ key_of (sl !!! p) <> kp /\ (d <= dib_at c p (sl !!! p))%nat) /\
  sl !!! fwd c (_home c kp) n = e /\ e <> 0 /\ key_of e = kp.

(** Some slot of the table is empty. *)
Definition has_free_slot (tb : t) : Prop :=
  exists j : nat, (j < cap tb)%nat /\ slots tb !!! j = 0.

(** A run of [set] calls on a table; a call that raises leaves the table
    as it was. *)
Fixpoint run_sets (tb : t) (ops : list (Z * Z)) : t :=
  match ops with
  | [] => tb
  | (k, v) :: ops' =>
      match set tb k v with
      | Ok tb' => run_sets tb' ops'
      | _ => run_sets tb ops'
      end
  end.

(** The table of one slot holding key 0. *)
Definition full1 : t := mk 1 [1] 1.

Definition key_in_range (k : Z) : Prop := 0 <= k <= KEY_MAX.
Definition value_in_range (v : Z) : Prop := 0 <= v < 2 ^ 14.

End TTSpec.

Module CodecSpec.

(** [ord(ch) - ord("0")]. *)
Definition col_of (ch : ascii) : nat := (nat_of_ascii ch - 48)%nat.

(** A decimal digit below 7. *)
Definition is_column_digit (ch : ascii) : bool :=
  (48 <=? nat_of_ascii ch)%nat && (nat_of_ascii ch <=? 54)%nat.

Fixpoint all_column_digits (s : string) : bool :=
  match s with
  | EmptyString => true
  | String ch rest => is_column_digit ch && all_column_digits rest
  end.

(** Stones the sequence puts in column [c]. *)
Fixpoint count_col (c : nat) (s : string) : nat :=
  match s with
  | EmptyString => 0%nat
  | String ch rest => ((if (col_of ch =? c)%nat then 1 else 0) + count_col c rest)%nat
  end.

(** A legal move sequence: digits below 7 only, and no column receives
    more than 6 stones (so at most 42 plies, [legal_length]). *)
Definition legalb (s : string) : bool :=
  all_column_digits s && forallb (fun c => (count_col c s <=? 6)%nat) (seq 0 7).

Definition legal (s : string) : Prop := legalb s = true.



(** [board[row][col]]. *)
Definition cell (b : board_t) (row col : nat) : ascii := (b !!! row) !!! col.

(** The cell [r] rows above the bottom of a column of [h] stones with
    pattern [p]. *)
Definition stone_of (h : nat) (p : Z) (r : nat) : ascii :=
  if (r <? h)%nat then (if Z.testbit p (Z.of_nat r) then "o" else "x")%char
  else "."%char.

(** Six rows of seven cells. *)
Definition rect (b : board_t) : Prop :=
  length b = 6%nat /\ forall r, (r < 6)%nat -> length (b !!! r) = 7%nat.

(** Column heights and patterns as the encoder keeps them. *)
Definition cols_ok (hs : list nat) (ps : list Z) : Prop :=
  length hs = 7%nat /\ length ps = 7%nat /\
  forall c, (c < 7)%nat -> (hs !!! c <= 6)%nat /\ 0 <= ps !!! c < 2 ^ Z.of_nat (hs !!! c).

(** The board [b] shows the columns [hs], [ps]. *)
Definition shows (b : board_t) (hs : list nat) (ps : list Z) : Prop :=
  rect b /\
  forall c r, (c < 7)%nat -> (r < 6)%nat ->
    cell b (5 - r) c = stone_of (hs !!! c) (ps !!! c) r.

(** [(2^h - 1) + pattern] of column [c]. *)
Definition col_code (hs : list nat) (ps : list Z) (c : nat) : Z :=
  2 ^ Z.of_nat (hs !!! c) - 1 + ps !!! c.

(** The decoder's board once the columns below [k] are done. *)
Definition decoded (hs : list nat) (ps : list Z) (k : nat) (board : board_t) : Prop :=
  rect board /\
  forall c r, (c < 7)%nat -> (r < 6)%nat ->
    cell board (5 - r) c
    = if (c <? k)%nat then stone_of (hs !!! c) (ps !!! c) r else "."%char.

End CodecSpec.

Module SearchSpec.
Import CodecSpec.

(** The two bounds a stored record unpacks to, as [search] reads them. *)
Definition lb_of (record : Z) : Z := record mod 16 - 1.
Definition ub_of (record : Z) : Z := record / 16 - 1.

Definition bounds_ok (record : Z) : Prop :=
  -1 <= lb_of record /\ lb_of record <= ub_of record /\ ub_of record <= 1.

(** The upper bound the probe at entry leaves in [ub]. *)
Definition prior_ub (tt_value : option Z) : Z :=
  match tt_value with
  | Some tt_value => tt_value / 16 - 1
  | None => 1
  end.

(** A well-formed answer: seven entries, each absent or in {-1, 0, 1}. *)
Definition wdl_wf (wdl_list : list (option Z)) : Prop :=
  length wdl_list = 7%nat /\
  Forall (fun x => match x with Some v => -1 <= v <= 1 | None => True end)
    wdl_list.

Definition oracle_wf (query : string -> bool * list (option Z)) : Prop :=
  forall s, wdl_wf (query s).2.

(** The oracle names only legal moves. *)
Definition oracle_legal (query : string -> bool * list (option Z)) : Prop :=
  forall s (c : nat) v, legal s -> (query s).2 !! c = Some (Some v) ->
  legal (s ++ str_move c).

(** The value [search] gives a node once past the probe. *)
Definition node_value (query : string -> bool * list (option Z))
    (moveseq : string) : outcome Z :=
  let '(is_terminal, wdl_list) := query moveseq in
  if is_terminal then terminal_value query moveseq
  else max_defined wdl_list.

(** The sequences [search] can be at when started at the empty one: each
    move is one the oracle named at a position it reported open. *)
Inductive reachable (query : string -> bool * list (option Z))
    : string -> Prop :=
| reach_root : reachable query ""
| reach_move (s : string) (c : nat) (v : Z) :
    reachable query s -> (query s).1 = false ->
    (query s).2 !! c = Some (Some v) ->
    reachable query (s ++ str_move c).

(** The oracle answers by position: reachable move sequences with one
    board code get one node value. *)
Definition oracle_consistent (query : string -> bool * list (option Z))
    : Prop :=
  forall s1 s2 b,
  reachable query s1 -> reachable query s2 ->
  moveseq_to_board49 s1 = Ok b -> moveseq_to_board49 s2 = Ok b ->
  node_value query s1 = node_value query s2.

(** A record [search] may store for a node of value [v]: the lower bound
    is [v], the upper bound [v] or [+1]. *)
Definition record_for (v record : Z) : Prop :=
  -1 <= v <= 1 /\ 0 <= record < 2 ^ 14 /\
  lb_of record = v /\ (ub_of record = v \/ ub_of record = 1).

(** A slot word [search] may have written: the code of a reachable
    position with a record for its node value. *)
Definition slot_ok (query : string -> bool * list (option Z)) (e : Z)
    : Prop :=
  e = 0 \/
  exists s b v record,
    reachable query s /\
    moveseq_to_board49 s = Ok b /\ node_value query s = Ok v /\
    record_for v record /\
    e = Z.lor (b + 1) (Z.shiftl record TT.VAL_SHIFT).

(** The invariant of the global state under [search]. *)
Definition world_ok (query : string -> bool * list (option Z)) (w : world)
    : Prop :=
  TT.wf (table w) /\
  Forall (slot_ok query) (TT.slots (table w)) /\
  Forall (fun kv => bounds_ok kv.2) (stores w).

(** Two oracles for examples.  [toy_oracle] answers by board code: the
    empty board is open with one winning move in the centre, every other
    position is terminal. *)
Definition toy_oracle (s : string) : bool * list (option Z) :=
  match moveseq_to_board49 s with
  | Ok 0 => (false, [None; None; None; Some 1; None; None; None])
  | _ => (true, [Some 1; None; None; None; None; None; None])
  end.

(** [leaf_oracle] is the same with no move named at terminal
    positions. *)
Definition leaf_oracle (s : string) : bool * list (option Z) :=
  if String.eqb s "" then (false, [None; None; None; Some 1; None; None; None])
  else (true, [None; None; None; None; None; None; None]).

(** [m] keeps the invariant [I] of the global state, whatever way it
    ends, and ends in a way satisfying [Q]. *)
Definition holds {A : Type} (I : world -> Prop) (Q : outcome A -> Prop)
    (m : prog A) : Prop :=
  forall w, I w -> I (m w).1 /\ Q (m w).2.

Definition finishes {A : Type} (r : outcome A) : Prop := r <> OutOfFuel.

Definition table_wf (w : world) : Prop := TT.wf (table w).

(** No condition on how a computation ends. *)
Definition any {A : Type} (r : outcome A) : Prop := True.

Definition empty_world (capacity : nat) : world :=
  World (TT.mk capacity (replicate capacity 0) 0) [].

Definition full_board_seq : string :=
  "000000111111222222333333444444555555666666".

End SearchSpec.

(** ** The table as a finite map *)

Module TTMapSpec.
Import TT TTSpec.

(** Along the probe of every stored key, from its home up to its slot,
    each slot is occupied by a word at least as far from its own home. *)
Definition ordered (c : nat) (sl : list Z) : Prop :=
  forall j : nat, (j < c)%nat -> sl !!! j <> 0 ->
  forall d : nat, (d < dib_at c j (sl !!! j))%nat ->
  let q := fwd c (_home c (key_of (sl !!! j))) d in
  sl !!! q <> 0 /\ (d <= dib_at c q (sl !!! q))%nat.

(** No two occupied slots carry the same key. *)
Definition unique_keys (c : nat) (sl : list Z) : Prop :=
  forall i j : nat, (i < c)%nat -> (j < c)%nat ->
  sl !!! i <> 0 -> sl !!! j <> 0 ->
  key_of (sl !!! i) = key_of (sl !!! j) -> i = j.

(** The number of occupied slots. *)
Definition occupied (sl : list Z) : nat :=
  length (filter (fun e : Z => e <> 0) sl).

(** The slot word of [set(key, value)]. *)
Definition entry_of (key value : Z) : Z :=
  Z.lor (key + 1) (Z.shiftl value VAL_SHIFT).

(** The finite map a run of [set] calls builds. *)
Definition model_step (m : gmap Z Z) (kv : Z * Z) : gmap Z Z :=
  <[kv.1 := kv.2]> m.

Definition model (ops : list (Z * Z)) : gmap Z Z := foldl model_step ∅ ops.

Definition op_in_range (kv : Z * Z) : Prop :=
  key_in_range kv.1 /\ value_in_range kv.2.

(** The table [tb] holds exactly the map [m], in Robin-Hood order. *)
Definition represents (tb : t) (m : gmap Z Z) : Prop :=
  wf tb /\
  ordered (cap tb) (slots tb) /\ unique_keys (cap tb) (slots tb) /\
  TT.size tb = base.size m /\ occupied (slots tb) = base.size m /\
  (forall k v, m !! k = Some v -> key_in_range k /\ value_in_range v) /\
  (forall e : Z, e <> 0 ->
     (e ∈ slots tb <-> exists k v, m !! k = Some v /\ e = entry_of k v)).

End TTMapSpec.

(** ** Boards, sound oracles, the driver, the scan and the answer lines:
    vocabulary *)

Module BoardSpec.
(** [board_str[7 * row + col]]: the cell of row [row] from the top. *)
Definition char_at (board_str : string) (row col : nat) : ascii :=
  nth (7 * row + col) (list_ascii_of_string board_str) "."%char.

(** The seven-bit code of column [c] in [b]. *)
Definition code_at (b : Z) (c : nat) : Z :=
  Z.land (Z.shiftr b (7 * Z.of_nat c)) (Z.shiftl 1 7 - 1).

(** The height and the pattern the decoder reads off a column code. *)
Definition height_of (code : Z) : nat := Z.to_nat (bit_length (code + 1) - 1).
Definition pattern_of (code : Z) : Z :=
  code - (Z.shiftl 1 (bit_length (code + 1) - 1) - 1).

(** A code the decoder accepts: not negative, no column code above 126. *)
Definition decodable (b : Z) : Prop :=
  0 <= b /\ forall c, (c < 7)%nat -> code_at b c <= 126.
End BoardSpec.

Module SoundSpec.
Import CodecSpec SearchSpec.

(** The oracle is a solution of the game from the start position on: the
    root has a value, every move the oracle names at a reachable open
    position is legal, and the value named for it is minus the value of
    the position it leads to. *)
Definition oracle_sound (query : string -> bool * list (option Z)) : Prop :=
  (exists v, node_value query "" = Ok v) /\
  forall s (c : nat) v,
    reachable query s -> (query s).1 = false ->
    (query s).2 !! c = Some (Some v) ->
    legal (s ++ str_move c) /\ node_value query (s ++ str_move c) = Ok (- v).

(** The windows [search] is called with from the root window [(-1, 1)]. *)
Definition window_ok (alpha beta : Z) : Prop :=
  -1 <= alpha <= 0 /\ 0 <= beta <= 1.

(** The computation returns, with a result satisfying [P]. *)
Definition returns {A : Type} (P : A -> Prop) (r : outcome A) : Prop :=
  exists a, r = Ok a /\ P a.

End SoundSpec.

Module DriverSpec.
Import TTSpec TTMapSpec.

(** The two exceptions an ill-shaped answer list could cause: an index
    past its end, and [first_move] read without having been bound. *)
Definition no_lookup_error {A : Type} (r : outcome A) : Prop :=
  r <> Raise IndexError /\ r <> Raise UnboundLocalError.

(** The table is what the stores so far make of the table [tb0], and
    every store was in range. *)
Definition replays (tb0 : TT.t) (w : world) : Prop :=
  table w = run_sets tb0 (stores w) /\ Forall op_in_range (stores w).

(** No condition on the global state. *)
Definition anywhere (w : world) : Prop := True.

(** An oracle for examples: the start position is lost after the only
    move named, which leads to a position won by one move. *)
Definition lost_oracle (s : string) : bool * list (option Z) :=
  if String.eqb s "" then (false, [None; None; None; Some (-1); None; None; None])
  else if String.eqb s "3" then (false, [None; None; None; Some 1; None; None; None])
  else (true, [None; None; None; None; None; None; None]).

End DriverSpec.

Module ScanSpec.
Import TTSpec.

(** The number of stones of the board stored in slot word [e]. *)
Definition slot_depth (e : Z) : option nat :=
  if e =? 0 then None
  else
    match board49_to_board42 (key_of e - 1) with
    | Ok board_str => Some (count_stones board_str)
    | _ => None
    end.

(** The slot words of depth [d]. *)
Definition at_depth (d : nat) (sl : list Z) : list Z :=
  filter (fun e => slot_depth e = Some d) sl.

Definition total (l : list Z) : Z := foldr Z.add 0 l.

(** A slot word the scan can file: empty, or a board of at most 42
    stones. *)
Definition scannable (e : Z) : Prop :=
  e = 0 \/ exists d : nat, slot_depth e = Some d /\ (d <= 42)%nat.

End ScanSpec.

Module WdlSpec.

(** A line the loop of [query] stops at: eight tokens, the first a
    flag. *)
Definition answer_line (isspace : N -> bool) (line : pystr) : Prop :=
  exists t0 ts, split isspace line = t0 :: ts /\ length ts = 7%nat /\
    (t0 = tok_0 \/ t0 = tok_1).

(** The value the parser makes of a token. *)
Definition token_value (int_of : pystr -> option Z) (t : pystr) (v : option Z)
    : Prop :=
  if bool_decide (t = tok_dot) then v = None
  else exists z, int_of t = Some z /\ v = Some z.

(** The code points of an ASCII literal. *)
Definition codes (s : string) : pystr :=
  map N_of_ascii (list_ascii_of_string s).

(** ASCII white space, and [int] on the three tokens the server uses,
    for examples. *)
Definition ascii_space (c : N) : bool :=
  ((9 <=? c) && (c <=? 13) || (c =? 32))%N.

Definition wdl_int (t : pystr) : option Z :=
  if bool_decide (t = [45; 49]%N) then Some (-1)
  else if bool_decide (t = [48]%N) then Some 0
  else if bool_decide (t = [49]%N) then Some 1
  else None.

End WdlSpec.

(** ** Facts about the table *)

Module TTFacts.
Import TT TTSpec.

Lemma land_shiftl_disjoint (a b n : Z) :
  0 <= n -> 0 <= a < 2 ^ n -> Z.land a (Z.shiftl b n) = 0.
Proof.
  intros Hn Ha. apply Z.bits_inj'. intros k Hk.
  rewrite Z.land_spec, Z.bits_0.
  destruct (Z.ltb_spec k n).
  - rewrite Z.shiftl_spec_low by lia. apply andb_false_r.
  - destruct (Z.eq_dec a 0) as [->|Hne]; [now rewrite Z.bits_0|].
    rewrite (Z.bits_above_log2 a k); [reflexivity|lia|].
    apply Z.lt_le_trans with n; [|lia]. apply Z.log2_lt_pow2; lia.
Qed.

Lemma lor_shiftl_add (a b n : Z) :
  0 <= n -> 0 <= a < 2 ^ n -> Z.lor a (Z.shiftl b n) = a + b * 2 ^ n.
Proof.
  intros Hn Ha.
  rewrite <- Z.lxor_lor by (apply land_shiftl_disjoint; lia).
  rewrite <- Z.add_nocarry_lxor by (apply land_shiftl_disjoint; lia).
  now rewrite Z.shiftl_mul_pow2 by lia.
Qed.

(** The word [set] builds keeps the key in its low 50 bits and the value
    above them. *)
Lemma entry_key (key value : Z) :
  key_in_range key ->
  key_of (Z.lor (key + 1) (Z.shiftl value VAL_SHIFT)) = key + 1.
Proof.
  unfold key_in_range, key_of, KEY_MAX, VAL_SHIFT, KEY_MASK, KEY_BITS.
  intros Hk. change (Z.shiftl 1 49 - 1) with (2 ^ 49 - 1) in Hk.
  change (Z.shiftl 1 50 - 1) with (Z.ones 50).
  rewrite Z.land_ones, lor_shiftl_add by lia.
  rewrite Z.mod_add by lia. apply Z.mod_small. lia.
Qed.

Lemma entry_value (key value : Z) :
  key_in_range key ->
  Z.shiftr (Z.lor (key + 1) (Z.shiftl value VAL_SHIFT)) VAL_SHIFT = value.
Proof.
  unfold key_in_range, KEY_MAX, VAL_SHIFT, KEY_BITS.
  intros Hk. change (Z.shiftl 1 49 - 1) with (2 ^ 49 - 1) in Hk.
  rewrite lor_shiftl_add, Z.shiftr_div_pow2 by lia.
  rewrite Z.div_add by lia. rewrite Z.div_small; lia.
Qed.

Lemma entry_nonzero (key value : Z) :
  key_in_range key -> Z.lor (key + 1) (Z.shiftl value VAL_SHIFT) <> 0.
Proof.
  intros Hk He. pose proof (entry_key key value Hk) as H.
  rewrite He in H. unfold key_of in H. rewrite Z.land_0_l in H.
  unfold key_in_range in Hk. lia.
Qed.

Lemma range_checks (key : Z) :
  (key <? 0) || (key >? KEY_MAX) = false <-> key_in_range key.
Proof.
  unfold key_in_range. rewrite orb_false_iff, Z.ltb_ge, Z.gtb_ltb, Z.ltb_ge.
  tauto.
Qed.

Lemma value_checks (value : Z) :
  (value <? 0) || (value >=? Z.shiftl 1 14) = false <-> value_in_range value.
Proof.
  unfold value_in_range. change (Z.shiftl 1 14) with (2 ^ 14).
  rewrite orb_false_iff, Z.ltb_ge, Z.geb_leb, Z.leb_gt. tauto.
Qed.

Lemma home_lt (c : nat) (kp : Z) : (0 < c)%nat -> (_home c kp < c)%nat.
Proof.
  intros Hc. unfold _home.
  pose proof (Z.mod_pos_bound (_hash64 kp) (Z.of_nat c)). lia.
Qed.

Lemma dist_lt (c i h : nat) : (i < c)%nat -> (h < c)%nat -> (_dist c i h < c)%nat.
Proof.
  intros Hi Hh. unfold _dist. destruct (Nat.leb_spec h i); lia.
Qed.

Lemma next_lt (c i : nat) : (i < c)%nat -> (next c i < c)%nat.
Proof.
  intros Hi. unfold next. destruct (Nat.eqb_spec (S i) c); lia.
Qed.

Lemma dist_self (c i : nat) : _dist c i i = 0%nat.
Proof. unfold _dist. rewrite Nat.leb_refl. lia. Qed.

Lemma dist_next (c i h : nat) :
  (i < c)%nat -> (h < c)%nat -> (S (_dist c i h) < c)%nat ->
  _dist c (next c i) h = S (_dist c i h).
Proof.
  intros Hi Hh. unfold _dist, next.
  destruct (Nat.eqb_spec (S i) c); destruct (Nat.leb_spec h i);
    [ destruct (Nat.leb_spec h 0) | destruct (Nat.leb_spec h 0)
    | destruct (Nat.leb_spec h (S i)) | destruct (Nat.leb_spec h (S i)) ]; lia.
Qed.

Lemma dib_at_lt (c i : nat) (e : Z) : (i < c)%nat -> (dib_at c i e < c)%nat.
Proof. intros Hi. apply dist_lt; [done|]. apply home_lt. lia. Qed.

(** The word [set] builds fits the 64-bit slot. *)
Lemma entry_fits (key value : Z) :
  key_in_range key -> value_in_range value ->
  0 <= Z.lor (key + 1) (Z.shiftl value VAL_SHIFT) < 2 ^ 64.
Proof.
  unfold key_in_range, value_in_range, KEY_MAX, VAL_SHIFT, KEY_BITS.
  intros Hk Hv. change (Z.shiftl 1 49 - 1) with (2 ^ 49 - 1) in Hk.
  rewrite lor_shiftl_add by lia. lia.
Qed.

Example hash64_of_1 : _hash64 1 = 0x910A2DEC89025CC1.
Proof. reflexivity. Qed.

Example set_then_get :
  (do tb <- new 8; do tb <- set tb 5 17; get tb 5) = Ok (Some 17).
Proof. reflexivity. Qed.

Example set_out_of_range :
  (do tb <- new 8; set tb (2 ^ 49) 0) = Raise ValueError /\
  (do tb <- new 8; set tb 0 (2 ^ 14)) = Raise ValueError /\
  new 0 = Raise ValueError.
Proof. repeat split. Qed.

(** *** The loop of [set] ends *)

Lemma potential_bound (c : nat) (l : list Z) (j : nat) :
  (j + length l <= c)%nat -> (potential c j l + length l <= length l * c)%nat.
Proof.
  revert j. induction l as [|e l IH]; intros j Hj; simpl in *; [lia|].
  specialize (IH (S j) ltac:(lia)).
  pose proof (dib_at_lt c j e ltac:(lia)). lia.
Qed.

Lemma potential_insert (c : nat) (l : list Z) (j i : nat) (x : Z) :
  (i < length l)%nat ->
  (potential c j (<[i := x]> l) + dib_at c (j + i) (l !!! i)
   = potential c j l + dib_at c (j + i) x)%nat.
Proof.
  revert j i. induction l as [|e l IH]; intros j i Hi; simpl in *; [lia|].
  destruct i as [|i]; simpl.
  - rewrite Nat.add_0_r. lia.
  - specialize (IH (S j) i ltac:(lia)).
    replace (j + S i)%nat with (S j + i)%nat by lia.
    change ((e :: l) !!! S i) with (l !!! i). lia.
Qed.

Lemma set_loop_fuel (c fuel : nat) :
  forall (sl : list Z) (sz : nat) (kp entry : Z) (i dib : nat),
  (0 < c)%nat -> length sl = c -> (i < c)%nat ->
  ((dib < c)%nat -> dib = dib_at c i entry) ->
  ((c * c - potential c 0 sl) * (c + 1) + (c - dib) <= fuel)%nat ->
  exists r, set_loop fuel c sl sz kp entry i dib = Some r.
Proof.
  induction fuel as [|fuel IH]; intros sl sz kp entry i dib Hc Hlen Hi Hdib Hfuel.
  - simpl. destruct (Nat.ltb_spec dib c); [|eauto].
    exfalso. revert Hfuel.
    generalize ((c * c - potential c 0 sl) * (c + 1))%nat. intros; lia.
  - simpl. destruct (Nat.ltb_spec dib c) as [Hlt|]; [|eauto].
    destruct (sl !!! i =? 0); [eauto|].
    destruct (Z.land (sl !!! i) KEY_MASK =? kp); [eauto|].
    fold (key_of (sl !!! i)). fold (dib_at c i (sl !!! i)).
    pose proof (dib_at_lt c i (sl !!! i) Hi) as Hinc.
    destruct (Nat.ltb_spec (dib_at c i (sl !!! i)) dib) as [Hsw|Hns].
    + apply IH; [done| by rewrite length_insert | by apply next_lt | |].
      * intros Hlt'. unfold dib_at.
        rewrite dist_next; [done|done|by apply home_lt|done].
      * pose proof (potential_insert c sl 0 i entry ltac:(lia)) as Hp.
        simpl in Hp. rewrite <- Hdib in Hp by done.
        pose proof (potential_bound c (<[i:=entry]> sl) 0) as Hb.
        rewrite length_insert in Hb. specialize (Hb ltac:(lia)).
        pose proof (potential_bound c sl 0 ltac:(lia)) as Hb0.
        rewrite Hlen in *. nia.
    + apply IH; [done|done| by apply next_lt | |].
      * intros Hlt'. rewrite (Hdib Hlt). unfold dib_at.
        rewrite dist_next; [done|done|by apply home_lt|].
        fold (dib_at c i entry). rewrite <- Hdib; done.
      * lia.
Qed.

(** *** Shape of the result of [set] *)

Lemma set_loop_shape (c fuel : nat) (P : Z -> Prop) :
  forall (sl : list Z) (sz : nat) (kp entry : Z) (i dib : nat) sl' sz' ex,
  length sl = c -> (i < c)%nat ->
  set_loop fuel c sl sz kp entry i dib = Some (sl', sz', ex) ->
  length sl' = c /\
  (sz' = sz \/ (ex = Returned /\ sz' = S sz)) /\
  (ex = Exhausted -> sz' = sz) /\
  (Forall P sl -> P entry -> Forall P sl').
Proof.
  induction fuel as [|fuel IH]; intros sl sz kp entry i dib sl' sz' ex Hlen Hi; simpl.
  - destruct (dib <? c)%nat; intros [= <- <- <-]; auto.
  - destruct (dib <? c)%nat; [|intros [= <- <- <-]; auto].
    destruct (sl !!! i =? 0).
    { intros [= <- <- <-]. rewrite length_insert. split_and!; auto.
      - done.
      - intros. by apply Forall_insert. }
    destruct (Z.land (sl !!! i) KEY_MASK =? kp).
    { intros [= <- <- <-]. rewrite length_insert. split_and!; auto.
      intros. by apply Forall_insert. }
    destruct (_ <? dib)%nat; intros H;
      apply IH in H as (Hl & Hs & Hx & HP);
      rewrite ?length_insert; auto using next_lt.
    split_and!; auto.
    intros HF He. apply HP; [by apply Forall_insert|].
    apply (Forall_lookup_1 P sl i); [done|].
    apply list_lookup_lookup_total_lt. lia.
Qed.

Lemma set_fuel_enough (c : nat) (sl : list Z) :
  ((c * c - potential c 0 sl) * (c + 1) + (c - 0) <= set_fuel c)%nat.
Proof. unfold set_fuel. nia. Qed.

(** [set] on a well-formed table and in-range arguments returns. *)
Lemma set_run_ok (tb : t) (key value : Z) :
  wf tb -> key_in_range key -> value_in_range value ->
  exists sl sz ex,
    set_loop (set_fuel (cap tb)) (cap tb) (slots tb) (size tb) (key + 1)
      (Z.lor (key + 1) (Z.shiftl value VAL_SHIFT)) (_home (cap tb) (key + 1)) 0
      = Some (sl, sz, ex) /\
    set_run tb key value = Ok (mk (cap tb) sl sz, ex) /\
    set tb key value = Ok (mk (cap tb) sl sz).
Proof.
  intros [Hc Hlen] Hk Hv. unfold set, set_run.
  rewrite (proj2 (range_checks key) Hk), (proj2 (value_checks value) Hv).
  destruct (set_loop_fuel (cap tb) (set_fuel (cap tb)) (slots tb) (size tb)
              (key + 1) (Z.lor (key + 1) (Z.shiftl value VAL_SHIFT))
              (_home (cap tb) (key + 1)) 0) as [[[sl sz] ex] Hr];
    [done|done|by apply home_lt| |apply set_fuel_enough|].
  - intros _. unfold dib_at. rewrite entry_key by done. by rewrite dist_self.
  - exists sl, sz, ex. simpl. rewrite Hr. done.
Qed.

Lemma set_wf (tb tb' : t) (key value : Z) :
  wf tb -> set tb key value = Ok tb' -> wf tb' /\ cap tb' = cap tb.
Proof.
  intros Hwf. unfold set, set_run.
  destruct (_ || _); [done|]. destruct (_ || _); [done|].
  destruct (set_loop _ _ _ _ _ _ _ _) as [[[sl sz] ex]|] eqn:Hr; [|done].
  simpl. intros [= <-]. destruct Hwf as [Hc Hlen].
  apply (set_loop_shape _ _ (fun _ => True)) in Hr as (Hl & _);
    [|done|by apply home_lt]. done.
Qed.

Lemma get_loop_total (c fuel : nat) (sl : list Z) (kp : Z) :
  forall i dib : nat, (c - dib <= fuel)%nat ->
  exists r, get_loop fuel c sl kp i dib = Some r.
Proof.
  induction fuel as [|fuel IH]; intros i dib Hf; simpl.
  - destruct (Nat.ltb_spec dib c); [lia|eauto].
  - destruct (Nat.ltb_spec dib c); [|eauto].
    destruct (_ =? 0); [eauto|]. destruct (_ =? kp); [eauto|].
    destruct (_ <? dib)%nat; [eauto|]. apply IH. lia.
Qed.

Lemma get_loop_found (c fuel : nat) (sl : list Z) (kp v : Z) :
  forall i dib : nat, (i < c)%nat ->
  get_loop fuel c sl kp i dib = Some (Some v) ->
  exists j : nat, (j < c)%nat /\ sl !!! j <> 0 /\ key_of (sl !!! j) = kp /\
    v = Z.shiftr (sl !!! j) VAL_SHIFT.
Proof.
  induction fuel as [|fuel IH]; intros i dib Hi; simpl.
  - destruct (dib <? c)%nat; done.
  - destruct (dib <? c)%nat; [|done].
    destruct (Z.eqb_spec (sl !!! i) 0); [done|].
    destruct (Z.eqb_spec (Z.land (sl !!! i) KEY_MASK) kp).
    { intros [= <-]. by exists i. }
    destruct (_ <? dib)%nat; [done|]. apply IH. by apply next_lt.
Qed.

Lemma get_ok (tb : t) (key : Z) :
  key_in_range key -> exists r, get tb key = Ok r.
Proof.
  intros Hk. unfold get. rewrite (proj2 (range_checks key) Hk).
  destruct (get_loop_total (cap tb) (cap tb) (slots tb) (key + 1)
              (_home (cap tb) (key + 1)) 0) as [r ->]; [lia|eauto].
Qed.

Lemma get_found (tb : t) (key v : Z) :
  wf tb -> get tb key = Ok (Some v) ->
  exists j : nat, (j < cap tb)%nat /\ slots tb !!! j <> 0 /\
    key_of (slots tb !!! j) = key + 1 /\ v = Z.shiftr (slots tb !!! j) VAL_SHIFT.
Proof.
  intros [Hc Hlen]. unfold get. destruct (_ || _); [done|].
  destruct (get_loop _ _ _ _ _ _) as [r|] eqn:Hg; [|done].
  intros [= ->]. eapply get_loop_found; [|done]. by apply home_lt.
Qed.

(** Every word of the table is empty or satisfies [P]. *)
Lemma set_forall (P : Z -> Prop) (tb tb' : t) (key value : Z) :
  wf tb -> set tb key value = Ok tb' ->
  Forall P (slots tb) ->
  P (Z.lor (key + 1) (Z.shiftl value VAL_SHIFT)) ->
  Forall P (slots tb').
Proof.
  intros [Hc Hlen]. unfold set, set_run.
  destruct (_ || _); [done|]. destruct (_ || _); [done|].
  destruct (set_loop _ _ _ _ _ _ _ _) as [[[sl sz] ex]|] eqn:Hr; [|done].
  simpl. intros [= <-]. simpl.
  apply (set_loop_shape _ _ P) in Hr as (_ & _ & _ & HP);
    [done|done|by apply home_lt].
Qed.

Lemma set_in_range (tb tb' : t) (key value : Z) :
  set tb key value = Ok tb' -> key_in_range key /\ value_in_range value.
Proof.
  unfold set, set_run.
  destruct ((key <? 0) || (key >? KEY_MAX)) eqn:Hk; [done|].
  destruct ((value <? 0) || (value >=? Z.shiftl 1 14)) eqn:Hv; [done|].
  intros _. split; [exact (proj1 (range_checks key) Hk) | exact (proj1 (value_checks value) Hv)].
Qed.

Lemma new_wf (capacity : Z) (tb : t) :
  new capacity = Ok tb -> wf tb /\ Forall (fun e => e = 0) (slots tb).
Proof.
  unfold new. destruct (Z.leb_spec capacity 0); [done|].
  intros [= <-]. unfold wf. simpl. rewrite length_replicate.
  split_and!; [lia|done|]. apply Forall_replicate. done.
Qed.

Lemma run_sets_wf (ops : list (Z * Z)) :
  forall tb, wf tb -> wf (run_sets tb ops).
Proof.
  induction ops as [|[k v] ops IH]; intros tb Hwf; simpl; [done|].
  destruct (set tb k v) as [tb'| |] eqn:Hs; auto.
  apply IH. by apply (set_wf tb tb' k v).
Qed.

Lemma run_sets_keys (ops : list (Z * Z)) :
  forall (tb : t) (keys : list Z),
  wf tb ->
  Forall (fun e => e = 0 \/ exists k, k ∈ keys /\ key_of e = k + 1) (slots tb) ->
  Forall (fun e => e = 0 \/ exists k, k ∈ keys ++ ops.*1 /\ key_of e = k + 1)
    (slots (run_sets tb ops)).
Proof.
  induction ops as [|[k v] ops IH]; intros tb keys Hwf HF.
  - simpl. by rewrite app_nil_r.
  - cbn [run_sets]. rewrite fmap_cons. cbn [fst].
    assert (Hshift : keys ++ k :: ops.*1 = (keys ++ [k]) ++ ops.*1)
      by (by rewrite <- app_assoc).
    rewrite Hshift.
    assert (HF' : Forall (fun e => e = 0 \/ exists k0, k0 ∈ keys ++ [k] /\ key_of e = k0 + 1) (slots tb)).
    { eapply Forall_impl; [exact HF|]. intros e [->|(k0 & Hin & He)]; [by left|].
      right. exists k0. split; [|done]. apply elem_of_app. by left. }
    destruct (set tb k v) as [tb'| |] eqn:Hs; try (apply IH; done).
    apply IH; [by apply (set_wf tb tb' k v)|].
    eapply set_forall; [done|exact Hs|exact HF'|].
    right. exists k. split; [apply elem_of_app; right; by apply list_elem_of_singleton|].
    apply entry_key. by apply (set_in_range tb tb' k v).
Qed.

(** C6.  After any run of [set] calls on a table made by [new], [get] on
    an in-range key that was never passed to [set] returns normally with
    [None]: absent. *)
Theorem get_absent_after_sets (capacity : Z) (tb : t) (ops : list (Z * Z)) (k : Z) :
  new capacity = Ok tb -> key_in_range k -> k ∉ ops.*1 ->
  get (run_sets tb ops) k = Ok None.
Proof.
  intros Hnew Hk Hnot. apply new_wf in Hnew as [Hwf H0].
  destruct (get_ok (run_sets tb ops) k Hk) as [[v|] Hg]; [|done].
  exfalso. apply get_found in Hg as (j & Hj & Hnz & Hkey & _);
    [|by apply run_sets_wf].
  assert (HF : Forall (fun e => e = 0 \/ exists k0, k0 ∈ ops.*1 /\ key_of e = k0 + 1)
                (slots (run_sets tb ops))).
  { apply (run_sets_keys ops tb [] Hwf).
    eapply Forall_impl; [exact H0|]. intros e ->. by left. }
  assert (Hl : slots (run_sets tb ops) !! j = Some (slots (run_sets tb ops) !!! j)).
  { apply list_lookup_lookup_total_lt. destruct (run_sets_wf ops tb Hwf). lia. }
  eapply Forall_lookup_1 in HF; [|exact Hl].
  destruct HF as [?|(k0 & Hin & He)]; [done|].
  rewrite Hkey in He. assert (k0 = k) by lia. subst. done.
Qed.

(** *** Robin-Hood ordering *)

Lemma back_lt (c i d : nat) : (i < c)%nat -> (d <= c)%nat -> (0 < c)%nat -> (back c i d < c)%nat.
Proof. intros. unfold back. destruct (Nat.leb_spec d i); lia. Qed.

Lemma back_0 (c i : nat) : back c i 0 = i.
Proof. unfold back. simpl. lia. Qed.

Lemma back_next (c i d : nat) :
  (i < c)%nat -> (d < c)%nat -> back c (next c i) (S d) = back c i d.
Proof.
  intros Hi Hd. unfold back, next.
  destruct (Nat.eqb_spec (S i) c);
    [destruct (Nat.leb_spec (S d) 0) | destruct (Nat.leb_spec (S d) (S i))];
    destruct (Nat.leb_spec d i); lia.
Qed.

Lemma occupied_insert (sl : list Z) (i x : nat) (entry : Z) :
  (x < length sl)%nat -> entry <> 0 -> sl !!! x <> 0 \/ x = i ->
  <[i := entry]> sl !!! x <> 0.
Proof.
  intros Hx He Hor. destruct (decide (i = x)) as [->|Hne].
  - by rewrite list_lookup_total_insert_eq.
  - rewrite list_lookup_total_insert_ne by done. destruct Hor; [done|lia].
Qed.

Lemma rh_insert (c : nat) (sl : list Z) (i dib : nat) (entry : Z) :
  (0 < c)%nat -> length sl = c -> (i < c)%nat -> entry <> 0 ->
  rh_ordered c sl ->
  dib = dib_at c i entry ->
  (forall d : nat, (1 <= d <= dib)%nat -> sl !!! back c i d <> 0) ->
  rh_ordered c (<[i := entry]> sl).
Proof.
  intros Hc Hlen Hi He Hrh Hdib Hpath j Hj Hnz d Hd.
  destruct (decide (i = j)) as [<-|Hne].
  - rewrite list_lookup_total_insert_eq in Hd by lia. rewrite <- Hdib in Hd.
    pose proof (dib_at_lt c i entry Hi).
    apply occupied_insert; [|done|].
    { rewrite Hlen. apply back_lt; lia. }
    destruct d as [|d]; [right; apply back_0|left; apply Hpath; lia].
  - rewrite list_lookup_total_insert_ne in Hd, Hnz by done.
    pose proof (dib_at_lt c j (sl !!! j) Hj).
    apply occupied_insert; [|done|].
    { rewrite Hlen. apply back_lt; lia. }
    left. by apply Hrh.
Qed.

Lemma set_loop_rh (c fuel : nat) :
  forall (sl : list Z) (sz : nat) (kp entry : Z) (i dib : nat) sl' sz' ex,
  (0 < c)%nat -> length sl = c -> (i < c)%nat -> entry <> 0 ->
  rh_ordered c sl ->
  ((dib < c)%nat -> dib = dib_at c i entry) ->
  (forall d : nat, (1 <= d <= dib)%nat -> (d <= c)%nat -> sl !!! back c i d <> 0) ->
  set_loop fuel c sl sz kp entry i dib = Some (sl', sz', ex) ->
  rh_ordered c sl'.
Proof.
  induction fuel as [|fuel IH];
    intros sl sz kp entry i dib sl' sz' ex Hc Hlen Hi He Hrh Hdib Hpath; simpl.
  - destruct (dib <? c)%nat; intros [= <- <- <-]; auto.
  - destruct (Nat.ltb_spec dib c) as [Hlt|]; [|intros [= <- <- <-]; auto].
    assert (Hplace : rh_ordered c (<[i := entry]> sl)).
    { apply (rh_insert c sl i dib); auto. intros d Hd. apply Hpath; lia. }
    destruct (Z.eqb_spec (sl !!! i) 0); [intros [= <- <- <-]; done|].
    destruct (Z.land (sl !!! i) KEY_MASK =? kp); [intros [= <- <- <-]; done|].
    fold (key_of (sl !!! i)). fold (dib_at c i (sl !!! i)).
    pose proof (dib_at_lt c i (sl !!! i) Hi) as Hinc.
    destruct (Nat.ltb_spec (dib_at c i (sl !!! i)) dib) as [Hsw|Hns]; apply IH;
      rewrite ?length_insert; auto using next_lt.
    + intros Hlt'. unfold dib_at.
      rewrite dist_next; [done|done|by apply home_lt|done].
    + intros d Hd Hdc. destruct d as [|d]; [lia|].
      rewrite back_next by lia.
      apply occupied_insert; [rewrite Hlen; apply back_lt; lia|done|].
      left. apply Hrh; [done|done|lia].
    + intros Hlt'. rewrite (Hdib Hlt). unfold dib_at.
      rewrite dist_next; [done|done|by apply home_lt|].
      fold (dib_at c i entry). rewrite <- Hdib; done.
    + intros d Hd Hdc. destruct d as [|d]; [lia|].
      rewrite back_next by lia.
      destruct d as [|d]; [by rewrite back_0|]. apply Hpath; lia.
Qed.

Lemma set_robin_hood (tb tb' : t) (key value : Z) :
  wf tb -> robin_hood tb -> set tb key value = Ok tb' -> robin_hood tb'.
Proof.
  intros [Hc Hlen] Hrh Hs.
  pose proof (set_in_range _ _ _ _ Hs) as [Hk Hv].
  revert Hs. unfold set, set_run.
  rewrite (proj2 (range_checks key) Hk), (proj2 (value_checks value) Hv).
  destruct (set_loop _ _ _ _ _ _ _ _) as [[[sl sz] ex]|] eqn:Hr; [|done].
  simpl. intros [= <-]. unfold robin_hood. simpl.
  eapply set_loop_rh; [done|done|by apply home_lt|by apply entry_nonzero|done| | |exact Hr].
  - intros _. unfold dib_at. rewrite entry_key by done. by rewrite dist_self.
  - intros d Hd. lia.
Qed.

Lemma run_sets_robin_hood (ops : list (Z * Z)) :
  forall tb, wf tb -> robin_hood tb -> robin_hood (run_sets tb ops).
Proof.
  induction ops as [|[k v] ops IH]; intros tb Hwf Hrh; simpl; [done|].
  destruct (set tb k v) as [tb'| |] eqn:Hs; auto.
  apply IH; [by apply (set_wf tb tb' k v)|by apply (set_robin_hood tb tb' k v)].
Qed.

(** C8.  After any run of [set] calls on a table made by [new], the slot
    array is Robin-Hood ordered: for every occupied slot [i], each slot
    from the home of its incumbent up to [i], cyclically, is occupied. *)
Theorem robin_hood_after_sets (capacity : Z) (tb : t) (ops : list (Z * Z)) :
  new capacity = Ok tb -> robin_hood (run_sets tb ops).
Proof.
  intros Hnew. apply new_wf in Hnew as [Hwf H0].
  apply run_sets_robin_hood; [done|].
  intros i Hi Hnz. exfalso. apply Hnz.
  apply (Forall_lookup_1 _ _ i _ H0).
  apply list_lookup_lookup_total_lt. destruct Hwf. lia.
Qed.

(** *** Update in place *)

Lemma fwd_lt (c h d : nat) : (h < c)%nat -> (d <= c)%nat -> (fwd c h d < c)%nat.
Proof. intros. unfold fwd. destruct (Nat.ltb_spec (h + d) c); lia. Qed.

Lemma fwd_0 (c h : nat) : (h < c)%nat -> fwd c h 0 = h.
Proof. intros. unfold fwd. destruct (Nat.ltb_spec (h + 0) c); lia. Qed.

Lemma fwd_next (c h d : nat) :
  (h < c)%nat -> (d < c)%nat -> next c (fwd c h d) = fwd c h (S d).
Proof.
  intros. unfold fwd, next.
  destruct (Nat.ltb_spec (h + d) c); destruct (Nat.ltb_spec (h + S d) c);
    match goal with |- context [(?a =? ?b)%nat] => destruct (Nat.eqb_spec a b) end; lia.
Qed.

Lemma fwd_inj (c h d1 d2 : nat) :
  (h < c)%nat -> (d1 < c)%nat -> (d2 < c)%nat -> fwd c h d1 = fwd c h d2 -> d1 = d2.
Proof.
  intros ???. unfold fwd.
  destruct (Nat.ltb_spec (h + d1) c); destruct (Nat.ltb_spec (h + d2) c); lia.
Qed.

Lemma fwd_dist (c h j : nat) :
  (h < c)%nat -> (j < c)%nat -> fwd c h (_dist c j h) = j /\ (_dist c j h < c)%nat.
Proof.
  intros. unfold fwd, _dist. destruct (Nat.leb_spec h j);
    match goal with |- context [(?a <? ?b)%nat] => destruct (Nat.ltb_spec a b) end; lia.
Qed.

(** Once an entry is in hand [m] slots after [h], with a free slot further
    on, the loop of [set] returns and leaves the first [m] slots of the
    walk alone. *)
Lemma set_loop_walk (c h z : nat) (kp : Z) (fuel : nat) :
  forall (sl : list Z) (sz : nat) (entry : Z) (m dib : nat),
  length sl = c -> (h < c)%nat -> (m <= z < c)%nat -> (dib <= m)%nat ->
  sl !!! fwd c h z = 0 -> (z - m < fuel)%nat ->
  exists sl' sz',
    set_loop fuel c sl sz kp entry (fwd c h m) dib = Some (sl', sz', Returned) /\
    forall d : nat, (d < m)%nat -> sl' !!! fwd c h d = sl !!! fwd c h d.
Proof.
  induction fuel as [|fuel IH]; intros sl sz entry m dib Hlen Hh Hm Hdib Hz Hf; [lia|].
  simpl. destruct (Nat.ltb_spec dib c); [|lia].
  assert (Hkeep : forall d : nat, (d < m)%nat ->
            <[fwd c h m := entry]> sl !!! fwd c h d = sl !!! fwd c h d).
  { intros d Hd. apply list_lookup_total_insert_ne.
    intros Heq. apply fwd_inj in Heq; lia. }
  destruct (Z.eqb_spec (sl !!! fwd c h m) 0) as [He|He]; [eauto|].
  destruct (Z.land (sl !!! fwd c h m) KEY_MASK =? kp); [eauto|].
  assert (Hmz : (m < z)%nat).
  { destruct (decide (m = z)) as [->|]; [done|lia]. }
  rewrite fwd_next by lia.
  destruct (Nat.ltb_spec (_dist c (fwd c h m) (_home c (Z.land (sl !!! fwd c h m) KEY_MASK))) dib).
  - destruct (IH (<[fwd c h m := entry]> sl) sz (sl !!! fwd c h m) (S m)
              (S (_dist c (fwd c h m) (_home c (Z.land (sl !!! fwd c h m) KEY_MASK)))))
      as (sl' & sz' & Hr & Hsame); [by rewrite length_insert|done|lia|lia| |lia|].
    { rewrite list_lookup_total_insert_ne; [done|].
      intros Heq. apply fwd_inj in Heq; lia. }
    exists sl', sz'. split; [done|]. intros d Hd.
    rewrite Hsame by lia. by apply Hkeep.
  - destruct (IH sl sz entry (S m) (S dib)) as (sl' & sz' & Hr & Hsame);
      [done|done|lia|lia|done|lia|].
    exists sl', sz'. split; [done|]. intros d Hd. apply Hsame. lia.
Qed.

(** The first [set(k, v)] on a table with a free slot puts its word where
    the probe for [k] finds it. *)
Lemma set_loop_places (c z : nat) (kp entry : Z) (fuel : nat) :
  forall (sl : list Z) (sz : nat) (m : nat),
  length sl = c -> (0 < c)%nat -> (m <= z < c)%nat ->
  entry <> 0 -> key_of entry = kp ->
  sl !!! fwd c (_home c kp) z = 0 -> (z - m < fuel)%nat ->
  (forall d : nat, (d < m)%nat ->
     let p := fwd c (_home c kp) d in
     sl !!! p <> 0 /\ key_of (sl !!! p) <> kp /\ (d <= dib_at c p (sl !!! p))%nat) ->
  exists sl' sz' n,
    set_loop fuel c sl sz kp entry (fwd c (_home c kp) m) m = Some (sl', sz', Returned) /\
    probe_hit c sl' kp n entry.
Proof.
  pose (h := _home c kp).
  induction fuel as [|fuel IH]; intros sl sz m Hlen Hc Hm He Hk Hz Hf Hpre; [lia|].
  assert (Hh : (h < c)%nat) by (by apply home_lt).
  fold h in Hz, Hpre |- *.
  simpl. destruct (Nat.ltb_spec m c); [|lia].
  assert (Hplaced : forall sl', length sl' = c ->
            (forall d : nat, (d < S m)%nat ->
               sl' !!! fwd c h d = <[fwd c h m := entry]> sl !!! fwd c h d) ->
            probe_hit c sl' kp m entry).
  { intros sl' Hlen' Hsame. split; [done|]. split; [|split].
    - intros d Hd. simpl. fold h. rewrite Hsame by lia.
      rewrite list_lookup_total_insert_ne.
      + apply Hpre. done.
      + intros Heq. apply fwd_inj in Heq; lia.
    - fold h. rewrite Hsame by lia.
      rewrite list_lookup_total_insert_eq; [done|].
      rewrite Hlen. apply fwd_lt; lia.
    - done. }
  destruct (Z.eqb_spec (sl !!! fwd c h m) 0) as [He0|He0].
  { eexists _, _, m. split; [done|]. apply Hplaced; [by rewrite length_insert|done]. }
  destruct (Z.eqb_spec (Z.land (sl !!! fwd c h m) KEY_MASK) kp) as [Hkk|Hkk].
  { eexists _, _, m. split; [done|]. apply Hplaced; [by rewrite length_insert|done]. }
  assert (Hmz : (m < z)%nat).
  { destruct (decide (m = z)) as [->|]; [done|lia]. }
  rewrite fwd_next by lia.
  destruct (Nat.ltb_spec (_dist c (fwd c h m) (_home c (Z.land (sl !!! fwd c h m) KEY_MASK))) m) as [Hsw|Hns].
  - destruct (set_loop_walk c h z kp fuel (<[fwd c h m := entry]> sl) sz
                (sl !!! fwd c h m) (S m)
                (S (_dist c (fwd c h m) (_home c (Z.land (sl !!! fwd c h m) KEY_MASK)))))
      as (sl' & sz' & Hr & Hsame); [by rewrite length_insert|done|lia|lia| |lia|].
    { rewrite list_lookup_total_insert_ne; [done|].
      intros Heq. apply fwd_inj in Heq; lia. }
    exists sl', sz', m. split; [done|]. apply Hplaced; [|done].
    apply (set_loop_shape c fuel (fun _ => True)) in Hr as (Hl & _);
      [done|by rewrite length_insert|apply fwd_lt; lia].
  - apply IH; try done; try lia.
    intros d Hd. destruct (decide (d = m)) as [->|]; [|apply Hpre; lia].
    simpl. fold h. split_and!; done.
Qed.

(** A second [set] of a key the probe finds overwrites in place. *)
Lemma set_loop_hit (c : nat) (sl : list Z) (kp entry e : Z) (n : nat) (fuel : nat) :
  forall (sz : nat) (m : nat),
  (0 < c)%nat -> probe_hit c sl kp n e -> (m <= n)%nat -> (n - m < fuel)%nat ->
  set_loop fuel c sl sz kp entry (fwd c (_home c kp) m) m
    = Some (<[fwd c (_home c kp) n := entry]> sl, sz, Returned).
Proof.
  intros sz m Hc (Hn & Hpre & Hat & He & Hk). revert m.
  pose proof (home_lt c kp Hc) as Hh.
  induction fuel as [|fuel IH]; intros m Hm Hf; [lia|].
  simpl. destruct (Nat.ltb_spec m c); [|lia].
  destruct (decide (m = n)) as [->|Hne].
  - rewrite Hat. destruct (Z.eqb_spec e 0); [done|].
    fold (key_of e). rewrite Hk, Z.eqb_refl. done.
  - destruct (Hpre m ltac:(lia)) as (Hnz & Hkey & Hdib).
    destruct (Z.eqb_spec (sl !!! fwd c (_home c kp) m) 0); [done|].
    fold (key_of (sl !!! fwd c (_home c kp) m)).
    destruct (Z.eqb_spec (key_of (sl !!! fwd c (_home c kp) m)) kp); [done|].
    fold (dib_at c (fwd c (_home c kp) m) (sl !!! fwd c (_home c kp) m)).
    destruct (Nat.ltb_spec (dib_at c (fwd c (_home c kp) m) (sl !!! fwd c (_home c kp) m)) m); [lia|].
    rewrite fwd_next by lia. apply IH; lia.
Qed.

Lemma get_loop_hit (c : nat) (sl : list Z) (kp e : Z) (n : nat) (fuel : nat) :
  forall (m : nat),
  (0 < c)%nat -> probe_hit c sl kp n e -> (m <= n)%nat -> (n - m < fuel)%nat ->
  get_loop fuel c sl kp (fwd c (_home c kp) m) m = Some (Some (Z.shiftr e VAL_SHIFT)).
Proof.
  intros m Hc (Hn & Hpre & Hat & He & Hk). revert m.
  pose proof (home_lt c kp Hc) as Hh.
  induction fuel as [|fuel IH]; intros m Hm Hf; [lia|].
  simpl. destruct (Nat.ltb_spec m c); [|lia].
  destruct (decide (m = n)) as [->|Hne].
  - rewrite Hat. destruct (Z.eqb_spec e 0); [done|].
    fold (key_of e). rewrite Hk, Z.eqb_refl. done.
  - destruct (Hpre m ltac:(lia)) as (Hnz & Hkey & Hdib).
    destruct (Z.eqb_spec (sl !!! fwd c (_home c kp) m) 0); [done|].
    fold (key_of (sl !!! fwd c (_home c kp) m)).
    destruct (Z.eqb_spec (key_of (sl !!! fwd c (_home c kp) m)) kp); [done|].
    fold (dib_at c (fwd c (_home c kp) m) (sl !!! fwd c (_home c kp) m)).
    destruct (Nat.ltb_spec (dib_at c (fwd c (_home c kp) m) (sl !!! fwd c (_home c kp) m)) m); [lia|].
    rewrite fwd_next by lia. apply IH; lia.
Qed.

Lemma probe_hit_insert (c : nat) (sl : list Z) (kp e e' : Z) (n : nat) :
  (0 < c)%nat -> length sl = c -> probe_hit c sl kp n e -> e' <> 0 -> key_of e' = kp ->
  probe_hit c (<[fwd c (_home c kp) n := e']> sl) kp n e'.
Proof.
  intros Hc Hlen (Hn & Hpre & Hat & He & Hk) He' Hk'.
  pose proof (home_lt c kp Hc) as Hh.
  split; [done|]. split; [|split; [|done]].
  - intros d Hd. simpl. rewrite list_lookup_total_insert_ne.
    + by apply Hpre.
    + intros Heq. apply fwd_inj in Heq; lia.
  - apply list_lookup_total_insert_eq. rewrite Hlen. apply fwd_lt; lia.
Qed.

Lemma set_fuel_ge (c : nat) : (c <= set_fuel c)%nat.
Proof. unfold set_fuel. nia. Qed.

(** C7.  On a well-formed table with a free slot, for an in-range key and
    14-bit values, [set(k, v1); set(k, v2)] both return, [get(k)] then
    returns [v2], and the second [set] leaves [size] as the first left
    it. *)
Theorem set_set_get (tb : t) (k v1 v2 : Z) :
  wf tb -> has_free_slot tb ->
  key_in_range k -> value_in_range v1 -> value_in_range v2 ->
  exists tb1 tb2,
    set tb k v1 = Ok tb1 /\ set tb1 k v2 = Ok tb2 /\
    get tb2 k = Ok (Some v2) /\ size tb2 = size tb1.
Proof.
  intros [Hc Hlen] (j & Hj & Hfree) Hk Hv1 Hv2.
  pose proof (home_lt (cap tb) (k + 1) Hc) as Hh.
  pose proof (set_fuel_ge (cap tb)) as Hfuel.
  destruct (fwd_dist (cap tb) (_home (cap tb) (k + 1)) j Hh Hj) as [Hz Hzlt].
  destruct (set_loop_places (cap tb) (_dist (cap tb) j (_home (cap tb) (k + 1)))
              (k + 1) (Z.lor (k + 1) (Z.shiftl v1 VAL_SHIFT)) (set_fuel (cap tb))
              (slots tb) (size tb) 0%nat)
    as (sl1 & sz1 & n & Hr1 & Hhit1);
    [done|done|lia|by apply entry_nonzero|by apply entry_key|by rewrite Hz|lia|intros d Hd; lia|].
  rewrite fwd_0 in Hr1 by done.
  assert (Hlen1 : length sl1 = cap tb).
  { by pose proof (set_loop_shape _ _ (fun _ => True) _ _ _ _ _ _ _ _ _ Hlen Hh Hr1) as (Hl & _). }
  pose proof Hhit1 as (Hn & _).
  pose proof (set_loop_hit (cap tb) sl1 (k + 1) (Z.lor (k + 1) (Z.shiftl v2 VAL_SHIFT))
                _ n (set_fuel (cap tb)) sz1 0%nat Hc Hhit1 ltac:(lia) ltac:(lia)) as Hr2.
  rewrite fwd_0 in Hr2 by done.
  pose proof (probe_hit_insert (cap tb) sl1 (k + 1) _ (Z.lor (k + 1) (Z.shiftl v2 VAL_SHIFT))
                n Hc Hlen1 Hhit1 (entry_nonzero k v2 Hk) (entry_key k v2 Hk)) as Hhit2.
  pose proof (get_loop_hit (cap tb) _ (k + 1) _ n (cap tb) 0%nat Hc Hhit2 ltac:(lia) ltac:(lia)) as Hg.
  rewrite fwd_0 in Hg by done. rewrite entry_value in Hg by done.
  exists (mk (cap tb) sl1 sz1), (mk (cap tb) (<[fwd (cap tb) (_home (cap tb) (k + 1)) n := Z.lor (k + 1) (Z.shiftl v2 VAL_SHIFT)]> sl1) sz1).
  unfold set, set_run, get.
  rewrite (proj2 (range_checks k) Hk), (proj2 (value_checks v1) Hv1),
    (proj2 (value_checks v2) Hv2).
  simpl. rewrite Hr1. simpl. rewrite Hr2. simpl. rewrite Hg. done.
Qed.

(** *** Examples and the full table *)

Lemma key_in_range_dec (k : Z) :
  (0 <=? k) && (k <=? KEY_MAX) = true -> key_in_range k.
Proof. unfold key_in_range. rewrite andb_true_iff, !Z.leb_le. tauto. Qed.

Lemma value_in_range_dec (v : Z) :
  (0 <=? v) && (v <? 2 ^ 14) = true -> value_in_range v.
Proof. unfold value_in_range. rewrite andb_true_iff, Z.leb_le, Z.ltb_lt. tauto. Qed.

(** C6 at a table of four slots, after five stores. *)
Lemma get_absent_after_sets_witness :
  get (run_sets (mk 4 [0; 0; 0; 0] 0) [(1, 0); (2, 17); (3, 34); (9, 1); (4, 2)]) 7
  = Ok None.
Proof.
  apply (get_absent_after_sets 4); [reflexivity| |].
  - by apply key_in_range_dec.
  - vm_compute. intros H. repeat (inversion H as [|? ? ? H']; subst; clear H; try rename H' into H).
Defined.

(** C8 at a table of four slots, after five stores. *)
Lemma robin_hood_after_sets_witness :
  robin_hood (run_sets (mk 4 [0; 0; 0; 0] 0) [(1, 0); (2, 17); (3, 34); (9, 1); (4, 2)]).
Proof. apply (robin_hood_after_sets 4). reflexivity. Defined.

(** C7 at an empty table of three slots. *)
Lemma set_set_get_witness :
  exists tb1 tb2,
    set (mk 3 [0; 0; 0] 0) 5 17 = Ok tb1 /\ set tb1 5 34 = Ok tb2 /\
    get tb2 5 = Ok (Some 34) /\ size tb2 = size tb1.
Proof.
  apply set_set_get.
  - split; simpl; [lia|reflexivity].
  - exists 0%nat. split; simpl; [lia|reflexivity].
  - by apply key_in_range_dec.
  - by apply value_in_range_dec.
  - by apply value_in_range_dec.
Defined.

(** C2, as amended.  On a well-formed table and in-range arguments, when
    the loop of [set] runs out with an entry still in hand, [set] returns
    normally: no exception, [size] and [cap] as they were. *)
Theorem set_exhausted_returns (tb : t) (key value : Z) :
  wf tb -> key_in_range key -> value_in_range value ->
  set_exhausts tb key value = true ->
  exists tb', set tb key value = Ok tb' /\ size tb' = size tb /\
    cap tb' = cap tb /\ wf tb'.
Proof.
  intros Hwf Hk Hv Hex.
  destruct (set_run_ok tb key value Hwf Hk Hv) as (sl & sz & ex & Hr & Hrun & Hset).
  unfold set_exhausts in Hex. rewrite Hrun in Hex.
  destruct ex; [done|].
  destruct Hwf as [Hc Hlen].
  apply (set_loop_shape _ _ (fun _ => True)) in Hr as (Hl & _ & Hsz & _);
    [|done|by apply home_lt].
  exists (mk (cap tb) sl sz). split_and!; [done|by apply Hsz|done|done].
Qed.

Lemma set_exhausted_returns_witness :
  exists tb', set full1 1 0 = Ok tb' /\ size tb' = size full1 /\
    cap tb' = cap full1 /\ wf tb'.
Proof.
  apply set_exhausted_returns.
  - split; simpl; [lia|reflexivity].
  - by apply key_in_range_dec.
  - by apply value_in_range_dec.
  - reflexivity.
Defined.

(** C2 fails as stated: the one-slot table holding key 0 is reached by
    [new] and one [set]; [set(1, 0)] on it exhausts its loop, raises
    nothing and returns with the table as it was, so that key 1 is
    absent. *)
Lemma set_exhausted_no_error :
  (do tb <- new 1; set tb 0 0) = Ok full1 /\
  set_exhausts full1 1 0 = true /\
  ~ (exists e, set full1 1 0 = Raise e) /\
  set full1 1 0 = Ok full1 /\
  get full1 1 = Ok None.
Proof.
  split_and!; try reflexivity.
  intros [e He]. vm_compute in He. discriminate He.
Qed.

End TTFacts.

(** ** Facts about the codec *)

Module CodecFacts.
Import TT TTSpec TTFacts CodecSpec.

Lemma parse_move_ok (ch : ascii) :
  is_column_digit ch = true -> parse_move 7 ch = Ok (col_of ch) /\ (col_of ch < 7)%nat.
Proof.
  unfold is_column_digit, parse_move, col_of. intros H.
  apply andb_true_iff in H as [H1 H2].
  apply Nat.leb_le in H1, H2.
  destruct (Nat.leb_spec 48 (nat_of_ascii ch)); [|lia].
  destruct (Nat.leb_spec (nat_of_ascii ch) 57); [|lia]. simpl.
  destruct (Nat.ltb_spec (nat_of_ascii ch - 48) 7); [|lia]. simpl. split; [done|lia].
Qed.

Lemma cell_board_set (b : board_t) (row col : nat) (x : ascii) (r c : nat) :
  (row < length b)%nat -> (col < length (b !!! row))%nat ->
  cell (board_set b row col x) r c
  = if decide (r = row /\ c = col) then x else cell b r c.
Proof.
  intros Hr Hc. unfold cell, board_set.
  destruct (decide (r = row)) as [->|Hne].
  - rewrite list_lookup_total_insert_eq by done.
    destruct (decide (c = col)) as [->|Hne'].
    + rewrite list_lookup_total_insert_eq by done.
      destruct (decide _) as [|[]]; done.
    + rewrite list_lookup_total_insert_ne by done.
      destruct (decide _) as [[]|]; done.
  - rewrite list_lookup_total_insert_ne by done.
    destruct (decide _) as [[]|]; done.
Qed.

Lemma rect_board_set (b : board_t) (row col : nat) (x : ascii) :
  rect b -> rect (board_set b row col x).
Proof.
  intros [Hl Hrows]. unfold board_set. split; [by rewrite length_insert|].
  intros r Hr. destruct (decide (r = row)) as [->|Hne].
  - rewrite list_lookup_total_insert_eq by lia. rewrite length_insert. auto.
  - rewrite list_lookup_total_insert_ne by done. auto.
Qed.

Lemma land_1_odd (n : nat) : Z.land (Z.of_nat n) 1 = Z.of_nat (n mod 2).
Proof.
  change 1 with (Z.ones 1). rewrite Z.land_ones by lia.
  change (2 ^ 1) with (Z.of_nat 2). by rewrite <- Nat2Z.inj_mod.
Qed.

Lemma testbit_above (p : Z) (h n : Z) :
  0 <= p < 2 ^ h -> h <= n -> Z.testbit p n = false.
Proof.
  intros Hp Hn. destruct (Z.eq_dec p 0) as [->|]; [apply Z.bits_0|].
  apply Z.bits_above_log2; [lia|].
  assert (0 <= h). { destruct (Z.ltb_spec h 0); [|done]. rewrite Z.pow_neg_r in Hp; lia. }
  apply Z.lt_le_trans with h; [|done]. apply Z.log2_lt_pow2; lia.
Qed.

Lemma lor_bit_bound (p : Z) (h : nat) :
  0 <= p < 2 ^ Z.of_nat h ->
  0 <= Z.lor p (Z.shiftl 1 (Z.of_nat h)) < 2 ^ Z.of_nat (S h).
Proof.
  intros Hp. rewrite lor_shiftl_add by lia.
  rewrite Nat2Z.inj_succ, Z.pow_succ_r by lia. lia.
Qed.

Lemma lor_bit_testbit (p : Z) (h r : nat) :
  0 <= p < 2 ^ Z.of_nat h ->
  Z.testbit (Z.lor p (Z.shiftl 1 (Z.of_nat h))) (Z.of_nat r)
  = Z.testbit p (Z.of_nat r) || (r =? h)%nat.
Proof.
  intros Hp. rewrite Z.lor_spec. f_equal.
  rewrite Z.shiftl_spec by lia.
  destruct (Nat.eqb_spec r h) as [->|Hne].
  - by rewrite Z.sub_diag.
  - destruct (Z.ltb_spec (Z.of_nat r) (Z.of_nat h)).
    + apply Z.testbit_neg_r. lia.
    + replace (Z.of_nat r - Z.of_nat h) with (Z.succ (Z.of_nat r - Z.of_nat h - 1)) by lia.
      apply (testbit_above 1 1); lia.
Qed.

Lemma parse_move_lt (w : nat) (ch : ascii) (col : nat) :
  parse_move w ch = Ok col -> (col < w)%nat.
Proof.
  unfold parse_move. destruct (negb _); [done|].
  destruct (Nat.ltb_spec (nat_of_ascii ch - 48) w); [|done].
  simpl. by intros [= <-].
Qed.

Lemma loop49_ok (s : string) :
  forall (ply : nat) (hs : list nat) (ps : list Z),
  all_column_digits s = true -> length hs = 7%nat ->
  (forall c, (c < 7)%nat -> (hs !!! c + count_col c s <= 6)%nat) ->
  exists hs' ps', board49_loop 7 6 s ply hs ps = Ok (hs', ps').
Proof.
  induction s as [|ch s IH]; intros ply hs ps Hd Hlen Hcnt;
    cbn [board49_loop all_column_digits count_col] in *; [eauto|].
  apply andb_true_iff in Hd as [Hch Hd].
  destruct (parse_move_ok ch Hch) as [-> Hcol]. cbn [bind].
  pose proof (Hcnt (col_of ch) Hcol) as Hc. rewrite Nat.eqb_refl in Hc.
  destruct (Nat.leb_spec 6 (hs !!! col_of ch)); [lia|].
  apply IH; [done|by rewrite length_insert|].
  intros c Hc7. specialize (Hcnt c Hc7).
  destruct (Nat.eqb_spec (col_of ch) c) as [Heq|Hne].
  - rewrite <- Heq. rewrite list_lookup_total_insert_eq by lia. rewrite <- Heq in Hcnt. lia.
  - rewrite list_lookup_total_insert_ne by done. lia.
Qed.

Lemma stone_of_step (h : nat) (p : Z) (ply r : nat) :
  0 <= p < 2 ^ Z.of_nat h ->
  stone_of (S h) (if Z.land (Z.of_nat ply) 1 =? 1
                  then Z.lor p (Z.shiftl 1 (Z.of_nat h)) else p) r
  = if (r =? h)%nat
    then (if (ply mod 2 =? 0)%nat then "x" else "o")%char
    else stone_of h p r.
Proof.
  intros Hp. unfold stone_of. rewrite land_1_odd.
  pose proof (Nat.mod_upper_bound ply 2 ltac:(lia)) as Hm.
  destruct (Nat.eqb_spec r h) as [->|Hne].
  - destruct (Nat.ltb_spec h (S h)); [|lia].
    destruct (Nat.eqb_spec (ply mod 2) 0) as [->|Hodd].
    + simpl. rewrite (testbit_above p (Z.of_nat h)); [done|done|lia].
    + replace (ply mod 2)%nat with 1%nat by lia. simpl.
      rewrite lor_bit_testbit by done. rewrite Nat.eqb_refl, orb_true_r. done.
  - destruct (Nat.ltb_spec r (S h)); destruct (Nat.ltb_spec r h); try lia; [|done].
    destruct (Z.eqb_spec (Z.of_nat (ply mod 2)) 1); [|done].
    rewrite lor_bit_testbit by done.
    destruct (Nat.eqb_spec r h); [lia|]. by rewrite orb_false_r.
Qed.

Lemma loops_agree (s : string) :
  forall (ply : nat) (b : board_t) (hs : list nat) (ps : list Z) hs' ps',
  shows b hs ps -> cols_ok hs ps ->
  board49_loop 7 6 s ply hs ps = Ok (hs', ps') ->
  exists b', board42_loop 7 6 s ply b hs = Ok b' /\ shows b' hs' ps' /\ cols_ok hs' ps'.
Proof.
  induction s as [|ch s IH]; intros ply b hs ps hs' ps' Hsh Hok;
    cbn [board49_loop board42_loop].
  { intros [= <- <-]. eauto. }
  destruct (parse_move 7 ch) as [col| |] eqn:Hpm; [|done|done]. cbn [bind].
  apply parse_move_lt in Hpm.
  destruct (Nat.leb_spec 6 (hs !!! col)) as [|Hh]; [done|].
  destruct Hok as (Hlh & Hlp & Hcols). destruct Hsh as (Hrect & Hcells).
  pose proof (Hcols col Hpm) as [_ Hp].
  set (p' := if Z.land (Z.of_nat ply) 1 =? 1
             then Z.lor (ps !!! col) (Z.shiftl 1 (Z.of_nat (hs !!! col)))
             else ps !!! col).
  set (ps1 := if Z.land (Z.of_nat ply) 1 =? 1
              then <[col := Z.lor (ps !!! col) (Z.shiftl 1 (Z.of_nat (hs !!! col)))]> ps
              else ps).
  assert (Hps1 : length ps1 = 7%nat /\ forall c, (c < 7)%nat ->
            ps1 !!! c = if decide (c = col) then p' else ps !!! c).
  { unfold ps1, p'. destruct (_ =? 1).
    - rewrite length_insert. split; [done|]. intros c Hc.
      destruct (decide (c = col)) as [->|].
      + by rewrite list_lookup_total_insert_eq by lia.
      + by rewrite list_lookup_total_insert_ne by done.
    - split; [done|]. intros c Hc. destruct (decide (c = col)) as [->|]; done. }
  destruct Hps1 as [Hlp1 Hps1].
  assert (Hp' : 0 <= p' < 2 ^ Z.of_nat (S (hs !!! col))).
  { unfold p'. destruct (_ =? 1); [by apply lor_bit_bound|].
    rewrite Nat2Z.inj_succ, Z.pow_succ_r by lia. lia. }
  intros H. eapply IH in H; [exact H| |].
  - split; [by apply rect_board_set|].
    intros c r Hc Hr. destruct Hrect as [Hlb Hrows].
    rewrite cell_board_set by (rewrite ?Hrows by lia; lia).
    rewrite Hps1 by done.
    destruct (decide (c = col)) as [->|Hne].
    + rewrite list_lookup_total_insert_eq by lia.
      unfold p'. rewrite stone_of_step by done.
      destruct (Nat.eqb_spec r (hs !!! col)) as [->|Hrh].
      * destruct (decide _) as [|[]]; [done|split; [lia|done]].
      * destruct (decide _) as [[]|]; [lia|]. by apply Hcells.
    + rewrite list_lookup_total_insert_ne by done.
      destruct (decide _) as [[]|]; [done|]. by apply Hcells.
  - split; [by rewrite length_insert|]. split; [done|].
    intros c Hc. rewrite Hps1 by done.
    destruct (decide (c = col)) as [->|Hne].
    + rewrite list_lookup_total_insert_eq by lia. split; [lia|done].
    + rewrite list_lookup_total_insert_ne by done. by apply Hcols.
Qed.

Lemma pow2_le_64 (h : nat) : (h <= 6)%nat -> 0 < 2 ^ Z.of_nat h <= 64.
Proof.
  intros Hh. split; [apply Z.pow_pos_nonneg; lia|].
  change 64 with (2 ^ 6). apply Z.pow_le_mono_r; lia.
Qed.

Lemma col_code_range (hs : list nat) (ps : list Z) (c : nat) :
  cols_ok hs ps -> (c < 7)%nat -> 0 <= col_code hs ps c <= 126.
Proof.
  intros (_ & _ & Hc) Hlt. destruct (Hc c Hlt) as [Hh Hp].
  pose proof (pow2_le_64 _ Hh). unfold col_code. lia.
Qed.

Lemma pack_step (hs : list nat) (ps : list Z) (c : nat) :
  cols_ok hs ps -> (c < 7)%nat ->
  (Z.shiftl 1 (Z.of_nat (hs !!! c)) - 1)
  + Z.land (ps !!! c) (Z.shiftl 1 (Z.of_nat (hs !!! c)) - 1)
  = col_code hs ps c.
Proof.
  intros (_ & _ & Hc) Hlt. destruct (Hc c Hlt) as [Hh Hp].
  unfold col_code. rewrite Z.shiftl_1_l.
  replace (2 ^ Z.of_nat (hs !!! c) - 1) with (Z.ones (Z.of_nat (hs !!! c)))
    by (rewrite Z.ones_equiv; lia).
  rewrite Z.land_ones by lia. rewrite Z.mod_small by done. done.
Qed.

Lemma pack_columns_snoc (hs : list nat) (ps : list Z) (k : nat) :
  cols_ok hs ps -> (k < 7)%nat ->
  pack_columns hs ps (seq 0 (S k))
  = Z.lor (pack_columns hs ps (seq 0 k))
      (Z.shiftl (col_code hs ps k) (7 * Z.of_nat k)).
Proof.
  intros Hok Hk. unfold pack_columns.
  rewrite seq_S, fold_left_app. simpl. by rewrite pack_step.
Qed.

Lemma pack_columns_spec (hs : list nat) (ps : list Z) (k : nat) :
  cols_ok hs ps -> (k <= 7)%nat ->
  0 <= pack_columns hs ps (seq 0 k) < 2 ^ (7 * Z.of_nat k) /\
  forall c, (c < k)%nat ->
    Z.land (Z.shiftr (pack_columns hs ps (seq 0 k)) (7 * Z.of_nat c)) (Z.shiftl 1 7 - 1)
    = col_code hs ps c.
Proof.
  intros Hok. induction k as [|k IH]; intros Hk.
  - split; [done|]. intros c Hc. lia.
  - destruct (IH ltac:(lia)) as [Hb Hex].
    rewrite pack_columns_snoc by (done || lia).
    pose proof (col_code_range hs ps k Hok ltac:(lia)) as Hcode.
    rewrite lor_shiftl_add by lia.
    set (v := pack_columns hs ps (seq 0 k)) in *.
    set (code := col_code hs ps k) in *.
    assert (Hpow : 2 ^ (7 * Z.of_nat (S k)) = 128 * 2 ^ (7 * Z.of_nat k)).
    { replace (7 * Z.of_nat (S k)) with (7 + 7 * Z.of_nat k) by lia.
      rewrite Z.pow_add_r by lia. done. }
    split; [rewrite Hpow; nia|].
    intros c Hc. change (Z.shiftl 1 7 - 1) with (Z.ones 7).
    rewrite Z.land_ones by lia. rewrite Z.shiftr_div_pow2 by lia.
    destruct (decide (c = k)) as [->|Hne].
    + rewrite Z.div_add by lia. rewrite Z.div_small by lia.
      apply Z.mod_small. simpl. lia.
    + specialize (Hex c ltac:(lia)).
      change (Z.shiftl 1 7 - 1) with (Z.ones 7) in Hex.
      rewrite Z.land_ones, Z.shiftr_div_pow2 in Hex by lia.
      rewrite <- Hex.
      replace (7 * Z.of_nat k) with (7 * Z.of_nat (k - c - 1) + 7 + 7 * Z.of_nat c) by lia.
      rewrite !Z.pow_add_r by lia.
      replace (code * (2 ^ (7 * Z.of_nat (k - c - 1)) * 2 ^ 7 * 2 ^ (7 * Z.of_nat c)))
        with (code * 2 ^ (7 * Z.of_nat (k - c - 1)) * 2 ^ 7 * 2 ^ (7 * Z.of_nat c)) by ring.
      rewrite Z.div_add by lia. rewrite Z.mod_add by lia. done.
Qed.

Lemma land_shiftr_bit (p : Z) (r : nat) :
  (Z.land (Z.shiftr p (Z.of_nat r)) 1 =? 0) = negb (Z.testbit p (Z.of_nat r)).
Proof.
  change 1 with (Z.ones 1). rewrite Z.land_ones by lia.
  change (2 ^ 1) with 2. rewrite <- Z.bit0_mod, Z.shiftr_spec by lia.
  rewrite Z.add_0_l. by destruct (Z.testbit p (Z.of_nat r)).
Qed.

Lemma fill_column_S (c : nat) (p : Z) (h : nat) (board : board_t) :
  fill_column 6 c p (S h) board
  = board_set (fill_column 6 c p h board) (5 - h) c
      (if Z.land (Z.shiftr p (Z.of_nat h)) 1 =? 0 then "x"%char else "o"%char).
Proof. unfold fill_column. by rewrite seq_S, fold_left_app. Qed.

Lemma fill_column_spec (c : nat) (p : Z) (h : nat) (board : board_t) :
  rect board -> (h <= 6)%nat -> (c < 7)%nat ->
  rect (fill_column 6 c p h board) /\
  forall r c', (r < 6)%nat -> (c' < 7)%nat ->
    cell (fill_column 6 c p h board) (5 - r) c'
    = if decide (c' = c /\ (r < h)%nat)
      then (if Z.testbit p (Z.of_nat r) then "o" else "x")%char
      else cell board (5 - r) c'.
Proof.
  intros Hrect. induction h as [|h IH]; intros Hh Hc.
  - split; [done|]. intros r c' Hr Hc'. destruct (decide _) as [[]|]; [lia|done].
  - destruct (IH ltac:(lia) Hc) as [Hr1 Hcell].
    rewrite fill_column_S.
    split; [by apply rect_board_set|].
    intros r c' Hr Hc'. destruct Hr1 as [Hl Hrows].
    rewrite cell_board_set by (rewrite ?Hrows by lia; lia).
    rewrite Hcell by done. rewrite land_shiftr_bit.
    destruct (decide (5 - r = 5 - h /\ c' = c)%nat) as [[Hrh ->]|Hn].
    + assert (r = h) by lia. subst r.
      destruct (decide _) as [|[]]; [|split; [done|lia]].
      by destruct (Z.testbit p (Z.of_nat h)).
    + destruct (decide (c' = c /\ (r < h)%nat)) as [[-> ?]|Hn'].
      * destruct (decide _) as [|[]]; [done|split; [done|lia]].
      * destruct (decide _) as [[-> ?]|]; [|done].
        exfalso. apply Hn'. split; [done|].
        destruct (decide (r = h)) as [->|]; [|lia]. exfalso. apply Hn. done.
Qed.

Lemma decode_column_spec (b49 : Z) (hs : list nat) (ps : list Z) (c : nat) (board : board_t) :
  cols_ok hs ps -> (c < 7)%nat ->
  Z.land (Z.shiftr b49 (7 * Z.of_nat c)) (Z.shiftl 1 7 - 1) = col_code hs ps c ->
  decode_column b49 6 board c = Ok (fill_column 6 c (ps !!! c) (hs !!! c) board).
Proof.
  intros Hok Hc Hex. unfold decode_column. rewrite Hex.
  pose proof (col_code_range hs ps c Hok Hc) as Hr.
  destruct Hok as (_ & _ & Hcols). destruct (Hcols c Hc) as [Hh Hp].
  change (Z.shiftl 1 (Z.of_nat 6 + 1) - 2) with 126.
  destruct (Z.gtb_spec (col_code hs ps c) 126); [lia|].
  assert (Hbl : bit_length (col_code hs ps c + 1) - 1 = Z.of_nat (hs !!! c)).
  { unfold bit_length. destruct (Z.eqb_spec (col_code hs ps c + 1) 0); [lia|].
    rewrite Z.abs_eq by lia.
    rewrite (Z.log2_unique (col_code hs ps c + 1) (Z.of_nat (hs !!! c))); [lia|lia|].
    unfold col_code. rewrite Z.pow_succ_r by lia. lia. }
  rewrite Hbl. destruct (Z.gtb_spec (Z.of_nat (hs !!! c)) (Z.of_nat 6)); [lia|].
  rewrite Nat2Z.id, Z.shiftl_1_l. unfold col_code. do 3 f_equal. lia.
Qed.

Lemma decode_columns_spec (b49 : Z) (hs : list nat) (ps : list Z) :
  cols_ok hs ps ->
  (forall c, (c < 7)%nat ->
     Z.land (Z.shiftr b49 (7 * Z.of_nat c)) (Z.shiftl 1 7 - 1) = col_code hs ps c) ->
  forall (n k : nat) (board : board_t),
  (k + n = 7)%nat -> decoded hs ps k board ->
  exists board', decode_columns b49 6 (seq k n) board = Ok board' /\
    decoded hs ps 7 board'.
Proof.
  intros Hok Hex. induction n as [|n IH]; intros k board Hkn Hdec.
  - replace k with 7%nat in Hdec by lia. simpl. eauto.
  - cbn [seq decode_columns].
    rewrite (decode_column_spec b49 hs ps k board Hok ltac:(lia) (Hex k ltac:(lia))).
    cbn [bind]. apply IH; [lia|].
    destruct Hdec as [Hrect Hcells].
    destruct Hok as (_ & _ & Hcols). destruct (Hcols k ltac:(lia)) as [Hh _].
    destruct (fill_column_spec k (ps !!! k) (hs !!! k) board Hrect Hh ltac:(lia))
      as [Hrect' Hfill].
    split; [done|]. intros c r Hc Hr. rewrite Hfill, Hcells by done.
    unfold stone_of.
    destruct (decide (c = k /\ (r < hs !!! k)%nat)) as [[-> Hlt]|Hn].
    + destruct (Nat.ltb_spec k (S k)); [|lia].
      destruct (Nat.ltb_spec r (hs !!! k)); [done|lia].
    + destruct (Nat.ltb_spec c (S k)); destruct (Nat.ltb_spec c k); try lia; try done.
      assert (c = k) by lia. subst c.
      destruct (Nat.ltb_spec r (hs !!! k)); [|done]. exfalso. by apply Hn.
Qed.

Lemma rect_ext (b1 b2 : board_t) :
  rect b1 -> rect b2 ->
  (forall c r, (c < 7)%nat -> (r < 6)%nat -> cell b1 (5 - r) c = cell b2 (5 - r) c) ->
  b1 = b2.
Proof.
  intros [Hl1 Hr1] [Hl2 Hr2] Hcells.
  apply (list_eq_same_length b1 b2 6); [done|done|].
  intros i row1 row2 Hi H1 H2.
  apply list_lookup_total_correct in H1, H2. subst row1 row2.
  apply (list_eq_same_length _ _ 7); [by apply Hr2|by apply Hr1|].
  intros j x y Hj Hx Hy.
  apply list_lookup_total_correct in Hx, Hy. subst x y.
  specialize (Hcells j (5 - i)%nat Hj ltac:(lia)).
  replace (5 - (5 - i))%nat with i in Hcells by lia. exact Hcells.
Qed.

Lemma shows_empty : shows (empty_board 7 6) (replicate 7 0%nat) (replicate 7 0).
Proof.
  split.
  - split; [done|]. intros r Hr.
    do 6 (destruct r as [|r]; [done|]). lia.
  - intros c r Hc Hr.
    do 7 (destruct c as [|c]; [do 6 (destruct r as [|r]; [done|]); lia|]). lia.
Qed.

Lemma cols_ok_empty : cols_ok (replicate 7 0%nat) (replicate 7 0).
Proof.
  split; [done|]. split; [done|]. intros c Hc.
  do 7 (destruct c as [|c]; [simpl; lia|]). lia.
Qed.

Lemma legal_counts (s : string) :
  legal s -> all_column_digits s = true /\
  forall c, (c < 7)%nat -> (count_col c s <= 6)%nat.
Proof.
  unfold legal, legalb. intros H. apply andb_true_iff in H as [Hd Hc].
  split; [done|]. intros c Hlt.
  rewrite forallb_forall in Hc. apply Nat.leb_le. apply Hc.
  apply in_seq. lia.
Qed.

(** What the two move loops and the packing make of a legal sequence. *)
Lemma codec_agree (s : string) :
  legal s ->
  exists hs ps bd,
    cols_ok hs ps /\
    moveseq_to_board49 s = Ok (pack_columns hs ps (seq 0 7)) /\
    board42_loop 7 6 s 0 (empty_board 7 6) (replicate 7 0%nat) = Ok bd /\
    shows bd hs ps.
Proof.
  intros Hl. apply legal_counts in Hl as [Hd Hc].
  destruct (loop49_ok s 0 (replicate 7 0%nat) (replicate 7 0) Hd) as (hs & ps & H49);
    [done| |].
  { intros c Hlt. specialize (Hc c Hlt).
    replace (replicate 7 0%nat !!! c) with 0%nat; [lia|].
    do 7 (destruct c as [|c]; [done|]). lia. }
  destruct (loops_agree s 0 _ _ _ _ _ shows_empty cols_ok_empty H49)
    as (bd & H42 & Hsh & Hok).
  exists hs, ps, bd. split_and!; try done.
  unfold moveseq_to_board49, moveseq_to_board49_gen. cbn [Nat.eqb negb orb bind].
  rewrite H49. done.
Qed.

(** C1.  For every legal move sequence [s], the encoder returns a code
    [b], the decoder returns on [b], and what it returns is the 42-cell
    board of the row/column simulation [moveseq_to_board_42 s]. *)
Theorem codec_round_trip (s : string) :
  legal s ->
  exists (b : Z) (str : string),
    moveseq_to_board49 s = Ok b /\
    board49_to_board42 b = Ok str /\
    moveseq_to_board_42 s = Ok str.
Proof.
  intros Hl. destruct (codec_agree s Hl) as (hs & ps & bd & Hok & H49 & H42 & Hsh).
  destruct (pack_columns_spec hs ps 7 Hok ltac:(lia)) as [Hb Hex].
  destruct (decode_columns_spec _ hs ps Hok Hex 7 0 (empty_board 7 6) ltac:(lia))
    as (bd' & Hdec & Hd').
  { destruct shows_empty as [Hr _]. split; [done|].
    intros c r Hc Hr'. destruct shows_empty as [_ Hcells].
    rewrite Hcells by done. do 7 (destruct c as [|c]; [done|]). lia. }
  assert (bd' = bd) as ->.
  { destruct Hd' as [Hr' Hc']. destruct Hsh as [Hr Hc].
    apply rect_ext; [done|done|]. intros c r Hlt Hrl.
    rewrite Hc', Hc by done. destruct (Nat.ltb_spec c 7); [done|lia]. }
  exists (pack_columns hs ps (seq 0 7)), (join_rows bd 6).
  split; [done|]. split.
  - unfold board49_to_board42, board49_to_board42_gen.
    destruct (Z.ltb_spec (pack_columns hs ps (seq 0 7)) 0); [lia|].
    rewrite Hdec. done.
  - unfold moveseq_to_board_42, moveseq_to_board_42_gen. rewrite H42. done.
Qed.

(** C9.  For every legal move sequence the encoder returns a code [b]
    with [0 <= b < 2^49], each 7-bit column code at most 126; so [get]
    on [b] returns on any table, and [set] on [b] with a 14-bit value
    returns on any well-formed table: the range checks do not raise. *)
Theorem key_range_safety (s : string) :
  legal s ->
  exists b : Z,
    moveseq_to_board49 s = Ok b /\
    0 <= b < 2 ^ 49 /\
    (forall c, (c < 7)%nat ->
       Z.land (Z.shiftr b (7 * Z.of_nat c)) (Z.shiftl 1 7 - 1) <= 126) /\
    (forall tb, exists r, get tb b = Ok r) /\
    (forall tb v, wf tb -> value_in_range v -> exists tb', set tb b v = Ok tb').
Proof.
  intros Hl. destruct (codec_agree s Hl) as (hs & ps & bd & Hok & H49 & _).
  destruct (pack_columns_spec hs ps 7 Hok ltac:(lia)) as [Hb Hex].
  exists (pack_columns hs ps (seq 0 7)).
  assert (Hk : key_in_range (pack_columns hs ps (seq 0 7))).
  { unfold key_in_range, KEY_MAX. change (Z.shiftl 1 49 - 1) with (2 ^ 49 - 1).
    change (7 * Z.of_nat 7) with 49 in Hb. lia. }
  split_and!; [done|lia|lia| | |].
  - intros c Hc. rewrite Hex by done. by apply col_code_range.
  - intros tb. by apply get_ok.
  - intros tb v Hwf Hv.
    destruct (set_run_ok tb _ v Hwf Hk Hv) as (sl & sz & ex & _ & _ & Hset). eauto.
Qed.

Lemma parse_move_inv (ch : ascii) (col : nat) :
  parse_move 7 ch = Ok col -> is_column_digit ch = true /\ col = col_of ch.
Proof.
  unfold parse_move, is_column_digit, col_of.
  destruct (Nat.leb_spec 48 (nat_of_ascii ch)); [|done].
  destruct (Nat.leb_spec (nat_of_ascii ch) 57); [|done]. simpl.
  destruct (Nat.ltb_spec (nat_of_ascii ch - 48) 7); [|done]. simpl.
  intros [= <-]. split; [|done].
  apply Nat.leb_le. lia.
Qed.

Lemma loop49_counts (s : string) :
  forall (ply : nat) (hs : list nat) (ps : list Z) hs' ps',
  length hs = 7%nat ->
  board49_loop 7 6 s ply hs ps = Ok (hs', ps') ->
  all_column_digits s = true /\ length hs' = 7%nat /\
  forall c, (c < 7)%nat -> (hs' !!! c = hs !!! c + count_col c s)%nat.
Proof.
  induction s as [|ch s IH]; intros ply hs ps hs' ps' Hlen;
    cbn [board49_loop all_column_digits count_col].
  { intros [= <- <-]. split_and!; [done|done|]. intros; lia. }
  destruct (parse_move 7 ch) as [col| |] eqn:Hpm; [|done|done]. cbn [bind].
  pose proof (parse_move_lt _ _ _ Hpm) as Hcol.
  apply parse_move_inv in Hpm as [Hd ->].
  destruct (6 <=? hs !!! col_of ch)%nat; [done|].
  intros H. apply IH in H as (Hds & Hl & Hc); [|by rewrite length_insert].
  rewrite Hd. split_and!; [done|done|].
  intros c Hlt. rewrite (Hc c Hlt).
  destruct (Nat.eqb_spec (col_of ch) c) as [Heq|Hne].
  - rewrite <- Heq. rewrite list_lookup_total_insert_eq by lia. lia.
  - rewrite list_lookup_total_insert_ne by done. lia.
Qed.

(** The encoder accepts exactly the legal sequences. *)
Lemma encode_legal (s : string) (b : Z) :
  moveseq_to_board49 s = Ok b -> legal s.
Proof.
  unfold moveseq_to_board49, moveseq_to_board49_gen. cbn [Nat.eqb negb orb bind].
  destruct (board49_loop 7 6 s 0 _ _) as [[hs ps]| |] eqn:H49; [|done|done].
  intros _.
  destruct (loops_agree s 0 _ _ _ _ _ shows_empty cols_ok_empty H49)
    as (bd & _ & _ & (_ & _ & Hok)).
  apply loop49_counts in H49 as (Hd & _ & Hc); [|done].
  unfold legal, legalb. rewrite Hd. rewrite andb_true_l.
  apply forallb_forall. intros c Hin. apply in_seq in Hin.
  apply Nat.leb_le. destruct (Hok c ltac:(lia)) as [Hh _].
  rewrite (Hc c ltac:(lia)) in Hh.
  replace (replicate 7 0%nat !!! c) with 0%nat in Hh; [lia|].
  do 7 (destruct c as [|c]; [done|]). lia.
Qed.

Lemma encode_key_range (s : string) (b : Z) :
  moveseq_to_board49 s = Ok b -> key_in_range b.
Proof.
  intros He. pose proof (encode_legal s b He) as Hl.
  destruct (codec_agree s Hl) as (hs & ps & bd & Hok & H49 & _).
  assert (b = pack_columns hs ps (seq 0 7)) as -> by congruence.
  destruct (pack_columns_spec hs ps 7 Hok ltac:(lia)) as [Hb _].
  unfold key_in_range, KEY_MAX. change (Z.shiftl 1 49 - 1) with (2 ^ 49 - 1).
  change (7 * Z.of_nat 7) with 49 in Hb. lia.
Qed.

Lemma column_digits_length (s : string) :
  all_column_digits s = true ->
  String.length s
  = (count_col 0 s + count_col 1 s + count_col 2 s + count_col 3 s
     + count_col 4 s + count_col 5 s + count_col 6 s)%nat.
Proof.
  induction s as [|ch s IH]; cbn [all_column_digits count_col String.length]; [done|].
  intros H. apply andb_true_iff in H as [Hd Hs]. rewrite (IH Hs).
  destruct (parse_move_ok ch Hd) as [_ Hlt].
  destruct (col_of ch) as [|[|[|[|[|[|[|n]]]]]]]; simpl; lia.
Qed.

Lemma legal_length (s : string) : legal s -> (String.length s <= 42)%nat.
Proof.
  intros Hl. apply legal_counts in Hl as [Hd Hc].
  rewrite (column_digits_length s Hd).
  pose proof (Hc 0%nat ltac:(lia)). pose proof (Hc 1%nat ltac:(lia)).
  pose proof (Hc 2%nat ltac:(lia)). pose proof (Hc 3%nat ltac:(lia)).
  pose proof (Hc 4%nat ltac:(lia)). pose proof (Hc 5%nat ltac:(lia)).
  pose proof (Hc 6%nat ltac:(lia)). lia.
Qed.

Lemma length_append (s1 s2 : string) :
  String.length (s1 ++ s2) = (String.length s1 + String.length s2)%nat.
Proof. induction s1 as [|c s1 IH]; simpl; [done|by rewrite IH]. Qed.

(** The values of the reference implementation on small inputs. *)
Example encode_empty : moveseq_to_board49 "" = Ok 0.
Proof. reflexivity. Qed.

Example encode_3 : moveseq_to_board49 "3" = Ok (Z.shiftl 1 21).
Proof. reflexivity. Qed.

Example encode_33 : moveseq_to_board49 "33" = Ok (Z.shiftl 5 21).
Proof. reflexivity. Qed.

Example decode_0 :
  board49_to_board42 0 = Ok ".........................................."%string.
Proof. reflexivity. Qed.

Example decode_3333332 :
  (do b <- moveseq_to_board49 "3333332"; board49_to_board42 b)
  = Ok "...o......x......o......x......o.....xx..."%string.
Proof. reflexivity. Qed.

Example encode_rejects :
  moveseq_to_board49 "7" = Raise ValueError /\
  moveseq_to_board49 "a" = Raise ValueError /\
  moveseq_to_board49 "3333333" = Raise ValueError /\
  moveseq_to_board_42 "3333333" = Raise ValueError /\
  board49_to_board42 127 = Raise ValueError.
Proof. repeat split. Qed.

Lemma codec_round_trip_witness :
  exists (b : Z) (str : string),
    moveseq_to_board49 "3333332" = Ok b /\
    board49_to_board42 b = Ok str /\
    moveseq_to_board_42 "3333332" = Ok str.
Proof. apply codec_round_trip. reflexivity. Defined.

Lemma key_range_safety_witness :
  exists b : Z,
    moveseq_to_board49 "3333332" = Ok b /\
    0 <= b < 2 ^ 49 /\
    (forall c, (c < 7)%nat ->
       Z.land (Z.shiftr b (7 * Z.of_nat c)) (Z.shiftl 1 7 - 1) <= 126) /\
    (forall tb, exists r, get tb b = Ok r) /\
    (forall tb v, wf tb -> value_in_range v -> exists tb', set tb b v = Ok tb').
Proof. apply key_range_safety. reflexivity. Defined.

End CodecFacts.

(** ** Facts about the driver *)

Module SearchFacts.
Import TT TTSpec TTFacts CodecSpec CodecFacts SearchSpec.

(** *** [max] over the defined values *)

Lemma fold_max_spec (xs : list Z) :
  forall x, let m := fold_left Z.max xs x in
  (m = x \/ m ∈ xs) /\ x <= m /\ forall y, y ∈ xs -> y <= m.
Proof.
  induction xs as [|a xs IH]; intros x; simpl.
  - split_and!; [by left|lia|]. intros y Hy. by apply elem_of_nil in Hy.
  - destruct (IH (Z.max x a)) as (Hin & Hle & Hall). split_and!.
    + destruct Hin as [Hm|Hm].
      * rewrite Hm. destruct (Z.max_spec x a) as [[_ ->]|[_ ->]];
          [right; apply elem_of_cons; by left|by left].
      * right. apply elem_of_cons. by right.
    + lia.
    + intros y Hy. apply elem_of_cons in Hy as [->|Hy]; [lia|by apply Hall].
Qed.

Lemma max_defined_spec (l : list (option Z)) (m : Z) :
  max_defined l = Ok m -> Some m ∈ l /\ forall v, Some v ∈ l -> v <= m.
Proof.
  unfold max_defined.
  destruct (omap id l) as [|x xs] eqn:Ho; [done|]. intros [= <-].
  destruct (fold_max_spec xs x) as (Hin & Hle & Hall).
  assert (Hmem : forall v, Some v ∈ l <-> v ∈ x :: xs).
  { intros v. rewrite <- Ho, list_elem_of_omap. split.
    - intros H. by exists (Some v).
    - intros (o & Ho' & Hid). simpl in Hid. by subst o. }
  split.
  - apply Hmem. apply elem_of_cons. destruct Hin as [->|Hin]; [by left|by right].
  - intros v Hv. apply Hmem in Hv. apply elem_of_cons in Hv as [->|Hv]; [done|by apply Hall].
Qed.

Lemma max_defined_ok (l : list (option Z)) (v : Z) :
  Some v ∈ l -> exists m, max_defined l = Ok m.
Proof.
  intros Hv. unfold max_defined.
  destruct (omap id l) as [|x xs] eqn:Ho; [|eauto].
  exfalso. assert (H : v ∈ omap id l).
  { apply list_elem_of_omap. by exists (Some v). }
  rewrite Ho in H. by apply elem_of_nil in H.
Qed.

Lemma wdl_wf_range (l : list (option Z)) (v : Z) :
  wdl_wf l -> Some v ∈ l -> -1 <= v <= 1.
Proof.
  intros [_ HF] Hv. rewrite Forall_forall in HF. exact (HF (Some v) Hv).
Qed.

Lemma existsb_plus1 (l : list (option Z)) :
  existsb (fun x => wdl_is x 1) l = true <-> Some 1 ∈ l.
Proof.
  rewrite existsb_exists. split.
  - intros (x & Hin & Hx). apply list_elem_of_In in Hin.
    destruct x as [y|]; [|done]. simpl in Hx. apply Z.eqb_eq in Hx. by subst.
  - intros Hin. exists (Some 1). split; [by apply list_elem_of_In|done].
Qed.

(** The value of a terminal full board, by the parent's answer. *)
Lemma terminal_value_full (query : string -> bool * list (option Z)) (s : string) :
  String.length s = 42%nat ->
  wdl_wf (query (drop_last s)).2 -> (exists v, Some v ∈ (query (drop_last s)).2) ->
  terminal_value query s
  = Ok (if existsb (fun x => wdl_is x 1) (query (drop_last s)).2 then -1 else 0).
Proof.
  intros Hlen Hwf [v Hv]. unfold terminal_value. rewrite Hlen. simpl.
  destruct (query (drop_last s)) as [t pw]. simpl in *.
  destruct (max_defined_ok pw v Hv) as [m Hm]. rewrite Hm. simpl.
  apply max_defined_spec in Hm as [Hin Hmax].
  destruct (existsb _ pw) eqn:Hex.
  - apply existsb_plus1 in Hex. pose proof (Hmax 1 Hex).
    pose proof (wdl_wf_range pw m Hwf Hin).
    destruct (Z.eqb_spec m 1); [done|lia].
  - destruct (Z.eqb_spec m 1) as [->|]; [|done].
    apply existsb_plus1 in Hin. congruence.
Qed.

Lemma terminal_value_range (query : string -> bool * list (option Z)) (s : string) (v : Z) :
  terminal_value query s = Ok v -> v = -1 \/ v = 0.
Proof.
  unfold terminal_value. destruct (_ =? 42)%nat; [|intros [= <-]; by left].
  destruct (query (drop_last s)) as [t pw].
  destruct (max_defined pw) as [m| |]; [|done|done]. simpl.
  destruct (m =? 1); intros [= <-]; auto.
Qed.

(** C3.  When [search] gets past the table probe and the oracle reports
    the position terminal (the oracle's answer for the parent of a
    42-ply position being well formed and naming a move), [search]
    stores the exact record [(value+1) + 16*(value+1)] under the board
    code and returns [value]: [-1] below 42 plies; at 42 plies, from the
    oracle's answer on [moveseq[:-1]], [-1] if some named value is [+1]
    and [0] otherwise. *)
Theorem search_terminal (query : string -> bool * list (option Z))
    (fuel : nat) (w : world) (s : string) (alpha beta : Z)
    (board : Z) (tt_value : option Z) (alpha' beta' ub : Z)
    (wdl_list : list (option Z)) :
  TT.wf (table w) ->
  moveseq_to_board49 s = Ok board ->
  TT.get (table w) board = Ok tt_value ->
  probe tt_value alpha beta = Window alpha' beta' ub ->
  query s = (true, wdl_list) ->
  (String.length s = 42%nat ->
   wdl_wf (query (drop_last s)).2 /\ exists v, Some v ∈ (query (drop_last s)).2) ->
  exists value tb',
    TT.set (table w) board ((value + 1) + ((value + 1) * 16)) = Ok tb' /\
    search query (S fuel) s alpha beta w
    = (World tb' (stores w ++ [(board, (value + 1) + ((value + 1) * 16))]),
       Ok value) /\
    ((String.length s < 42)%nat -> value = -1) /\
    (String.length s = 42%nat ->
     value = if existsb (fun x => wdl_is x 1) (query (drop_last s)).2
             then -1 else 0).
Proof.
  intros Hwf Henc Hget Hprobe Hq Hparent.
  assert (Hv : exists value, terminal_value query s = Ok value /\
             ((String.length s < 42)%nat -> value = -1) /\
             (String.length s = 42%nat ->
              value = if existsb (fun x => wdl_is x 1) (query (drop_last s)).2
                      then -1 else 0)).
  { destruct (Nat.eqb_spec (String.length s) 42) as [H42|H42].
    - destruct (Hparent H42) as [Hpw Hdef].
      eexists. split; [by apply terminal_value_full|]. split; [lia|done].
    - exists (-1). unfold terminal_value.
      destruct (Nat.eqb_spec (String.length s) 42); [done|]. split; [done|].
      split; [done|lia]. }
  destruct Hv as (value & Htv & Hlt & Heq).
  pose proof (terminal_value_range query s value Htv) as Hrange.
  destruct (set_run_ok (table w) board ((value + 1) + ((value + 1) * 16)) Hwf
              (encode_key_range s board Henc))
    as (sl & sz & ex & _ & _ & Hset).
  { unfold value_in_range. destruct Hrange as [-> | ->]; simpl; lia. }
  exists value, (mk (cap (table w)) sl sz).
  split; [done|]. split; [|done].
  cbn [search]. unfold search_body, pbind, lift, tt_get.
  rewrite Henc, Hget, Hprobe. unfold search_node. rewrite Hq.
  unfold pbind, lift, tt_set, ret. rewrite Htv, Hset. done.
Qed.

Lemma probe_window (tt_value : option Z) (alpha beta alpha' beta' ub : Z) :
  probe tt_value alpha beta = Window alpha' beta' ub -> ub = prior_ub tt_value.
Proof.
  unfold probe, prior_ub. destruct tt_value as [t|]; [|by intros [= _ _ <-]].
  destruct (_ >=? beta); [done|]. destruct (_ <=? alpha); [done|].
  by intros [= _ _ <-].
Qed.

Lemma tt_set_inv (key value : Z) (w w' : world) (u : unit) :
  tt_set key value w = (w', Ok u) ->
  exists tb', TT.set (table w) key value = Ok tb' /\
    w' = World tb' (stores w ++ [(key, value)]).
Proof.
  unfold tt_set. destruct (TT.set (table w) key value) as [tb| |]; [|done|done].
  intros [= <- _]. eauto.
Qed.

(** C4.  When [search] takes the beta-cutoff branch ([beta <= v] for the
    probed window, [v] the maximum of the oracle's values) and returns,
    it returns [v] and its last store is, under the board code, the
    record [(v+1) + 16*(ub+1)] with [ub] the upper bound of the probe at
    entry, [+1] when the probe missed. *)
Theorem search_beta_cutoff (query : string -> bool * list (option Z))
    (fuel : nat) (w w' : world) (s : string) (alpha beta r : Z)
    (board : Z) (tt_value : option Z) (alpha' beta' ub : Z)
    (wdl_list : list (option Z)) (v : Z) :
  moveseq_to_board49 s = Ok board ->
  TT.get (table w) board = Ok tt_value ->
  probe tt_value alpha beta = Window alpha' beta' ub ->
  query s = (false, wdl_list) ->
  max_defined wdl_list = Ok v ->
  beta' <= v ->
  search query (S fuel) s alpha beta w = (w', Ok r) ->
  r = v /\ ub = prior_ub tt_value /\
  exists w1 tb',
    TT.set (table w1) board ((v + 1) + ((prior_ub tt_value + 1) * 16)) = Ok tb' /\
    w' = World tb'
           (stores w1 ++ [(board, (v + 1) + ((prior_ub tt_value + 1) * 16))]).
Proof.
  intros Henc Hget Hprobe Hq Hmax Hcut.
  pose proof (probe_window _ _ _ _ _ _ Hprobe) as Hub.
  cbn [search]. unfold search_body, pbind at 1 2, lift at 1, tt_get.
  rewrite Henc, Hget, Hprobe. unfold search_node. rewrite Hq.
  unfold pbind at 1, lift at 1. rewrite Hmax.
  destruct (Z.leb_spec beta' v); [|lia].
  unfold pbind at 1.
  destruct (search_cut _ _ _ _ _ _ _ _ w) as [w2 [u| |]] eqn:Hsc; [|done|done].
  unfold ret. intros [= <- <-]. split; [done|]. split; [done|].
  revert Hsc. unfold search_cut, pbind at 1, lift at 1.
  destruct (first_best _ _ _) as [fm| |]; [|done|done].
  unfold pbind at 1.
  match goal with |- context [match ?m w with _ => _ end] =>
    destruct (m w) as [w1 [u1| |]] end; [|done|done].
  intros Hs. apply tt_set_inv in Hs as (tb' & Hs & ->).
  exists w1, tb'. rewrite <- Hub. done.
Qed.

(** *** Invariants of the global state *)

Section Holds.
Context {A B : Type} (I : world -> Prop).

Lemma holds_ret (Q : outcome A -> Prop) (a : A) : Q (Ok a) -> holds I Q (ret a).
Proof. intros HQ w Hw. done. Qed.

Lemma holds_lift (Q : outcome A -> Prop) (o : outcome A) : Q o -> holds I Q (lift o).
Proof. intros HQ w Hw. done. Qed.

Lemma holds_bind (Q1 : outcome A -> Prop) (Q : outcome B -> Prop)
    (m : prog A) (k : A -> prog B) :
  holds I Q1 m ->
  (forall a, Q1 (Ok a) -> holds I Q (k a)) ->
  (forall e, Q1 (Raise e) -> Q (Raise e)) ->
  (Q1 OutOfFuel -> Q OutOfFuel) ->
  holds I Q (pbind m k).
Proof.
  intros Hm Hk He Hf w Hw. unfold pbind.
  destruct (Hm w Hw) as [HI HQ]. destruct (m w) as [w1 [a|e|]]; simpl in *.
  - by apply Hk.
  - split; [done|by apply He].
  - split; [done|by apply Hf].
Qed.

Lemma holds_weaken (Q1 Q : outcome A -> Prop) (m : prog A) :
  holds I Q1 m -> (forall r, Q1 r -> Q r) -> holds I Q m.
Proof. intros Hm HQ w Hw. destruct (Hm w Hw). split; auto. Qed.

End Holds.

(** Binding when the only thing asked of the result is that the fuel
    lasted. *)
Lemma finishes_bind {A B : Type} (I : world -> Prop) (m : prog A) (k : A -> prog B) :
  holds I finishes m -> (forall a, holds I finishes (k a)) ->
  holds I finishes (pbind m k).
Proof. intros Hm Hk. eapply holds_bind; [exact Hm|auto|done|done]. Qed.

Lemma get_finishes (tb : t) (key : Z) : finishes (get tb key).
Proof.
  unfold finishes, get. destruct (_ || _); [done|].
  destruct (get_loop_total (cap tb) (cap tb) (slots tb) (key + 1)
              (_home (cap tb) (key + 1)) 0) as [r ->]; [lia|done].
Qed.

Lemma set_finishes (tb : t) (key value : Z) : wf tb -> finishes (set tb key value).
Proof.
  intros Hwf. unfold finishes.
  destruct ((key <? 0) || (key >? KEY_MAX)) eqn:Hk.
  { unfold set, set_run. by rewrite Hk. }
  destruct ((value <? 0) || (value >=? Z.shiftl 1 14)) eqn:Hv.
  { unfold set, set_run. by rewrite Hk, Hv. }
  apply range_checks in Hk. apply value_checks in Hv.
  destruct (set_run_ok tb key value Hwf Hk Hv) as (sl & sz & ex & _ & _ & ->). done.
Qed.

Lemma tt_get_finishes (key : Z) : holds table_wf finishes (tt_get key).
Proof. intros w Hw. split; [done|apply get_finishes]. Qed.

Lemma tt_set_finishes (key value : Z) : holds table_wf finishes (tt_set key value).
Proof.
  intros w Hw. unfold tt_set.
  pose proof (set_finishes (table w) key value Hw) as Hf.
  destruct (set (table w) key value) as [tb| |] eqn:Hs; [|done|done].
  split; [|done]. by apply (set_wf (table w) tb key value).
Qed.

Lemma list_get_finishes {A : Type} (l : list A) (i : nat) : finishes (list_get l i).
Proof. unfold finishes, list_get. by destruct (l !! i). Qed.

Lemma assert_finishes (c : bool) : finishes (assert c).
Proof. unfold finishes, assert. by destruct c. Qed.

Lemma first_best_spec (wdl_list : list (option Z)) (value : Z) (moves : list nat) :
  finishes (first_best wdl_list value moves) /\
  forall move, first_best wdl_list value moves = Ok (Some move) ->
    wdl_list !! move = Some (Some value).
Proof.
  induction moves as [|m moves [IHf IHs]]; simpl; [done|].
  unfold list_get. destruct (wdl_list !! m) as [x|] eqn:Hx; simpl; [|done].
  destruct x as [y|]; simpl; [|done].
  destruct (Z.eqb_spec y value) as [->|]; [|done].
  split; [done|]. by intros move [= <-].
Qed.

Lemma max_defined_finishes (l : list (option Z)) : finishes (max_defined l).
Proof. unfold finishes, max_defined. by destruct (omap id l). Qed.

Lemma terminal_value_finishes (query : string -> bool * list (option Z)) (s : string) :
  finishes (terminal_value query s).
Proof.
  unfold finishes, terminal_value. destruct (_ =? 42)%nat; [|done].
  destruct (query (drop_last s)) as [t pw].
  destruct (max_defined pw) as [m| |] eqn:Hm; simpl; [by destruct (m =? 1)|done|].
  by apply max_defined_finishes in Hm.
Qed.

Section Finishes.
Variable query : string -> bool * list (option Z).
Variable search_rec : string -> Z -> Z -> prog Z.
Variable s : string.
Variable wdl_list : list (option Z).

(** The calls made from the node of [s]: one column further, where the
    oracle named a value. *)
Hypothesis rec_finishes :
  forall (c : nat) (v alpha beta : Z),
  wdl_list !! c = Some (Some v) ->
  holds table_wf finishes (search_rec (s ++ str_move c)%string alpha beta).

Lemma search_cut_finishes (board value alpha beta ub : Z) :
  holds table_wf finishes (search_cut search_rec s board wdl_list value alpha beta ub).
Proof.
  unfold search_cut.
  destruct (first_best_spec wdl_list value MOVE_ORDERING) as [Hf Hs].
  eapply holds_bind with (Q1 := fun r => r = first_best wdl_list value MOVE_ORDERING);
    [by apply holds_lift| |done|intros He; by rewrite <- He in Hf].
  intros fm Hfm. apply finishes_bind; [|intros; apply tt_set_finishes].
  destruct fm as [move|]; [|by apply holds_ret].
  apply finishes_bind; [by eapply rec_finishes, Hs|]. intros r.
  apply finishes_bind; [apply holds_lift, assert_finishes|].
  intros _. apply holds_lift, assert_finishes.
Qed.

Lemma search_others_finishes (fm : option nat) (alpha beta : Z) (moves : list nat) :
  holds table_wf finishes (search_others search_rec s wdl_list fm alpha beta moves).
Proof.
  induction moves as [|move moves IH]; simpl; [by apply holds_ret|].
  destruct fm as [fm|]; [|by apply holds_lift].
  destruct (move =? fm)%nat; [done|].
  eapply holds_bind with (Q1 := fun r => r = list_get wdl_list move);
    [by apply holds_lift| |done|].
  - intros [v|] Hx; [|done].
    apply finishes_bind.
    { eapply rec_finishes. unfold list_get in Hx.
      destruct (wdl_list !! move) as [x|]; [|done]. by injection Hx as ->. }
    intros r. apply finishes_bind; [apply holds_lift, assert_finishes|done].
  - intros He. symmetry in He. by apply list_get_finishes in He.
Qed.

Lemma search_pv_finishes (board value alpha beta : Z) :
  holds table_wf finishes (search_pv search_rec s board wdl_list value alpha beta).
Proof.
  unfold search_pv.
  destruct (first_best_spec wdl_list value MOVE_ORDERING) as [Hf Hs].
  eapply holds_bind with (Q1 := fun r => r = first_best wdl_list value MOVE_ORDERING);
    [by apply holds_lift| |done|intros He; by rewrite <- He in Hf].
  intros fm Hfm. apply finishes_bind.
  - destruct fm as [move|]; [|by apply holds_ret].
    apply finishes_bind; [by eapply rec_finishes, Hs|]. intros r.
    apply finishes_bind; [apply holds_lift, assert_finishes|]. intros _.
    apply finishes_bind; [apply holds_lift, assert_finishes|]. intros _.
    by apply holds_ret.
  - intros alpha1. apply finishes_bind; [apply search_others_finishes|].
    intros _. apply tt_set_finishes.
Qed.

Lemma search_node_finishes (board alpha beta ub : Z) :
  (query s).2 = wdl_list ->
  holds table_wf finishes (search_node query search_rec s board alpha beta ub).
Proof.
  intros Hq. unfold search_node. destruct (query s) as [is_terminal wdl]. simpl in Hq. subst wdl.
  destruct is_terminal.
  - apply finishes_bind; [apply holds_lift, terminal_value_finishes|]. intros value.
    apply finishes_bind; [apply tt_set_finishes|]. intros _. by apply holds_ret.
  - apply finishes_bind; [apply holds_lift, max_defined_finishes|]. intros value.
    destruct (beta <=? value).
    + apply finishes_bind; [apply search_cut_finishes|]. intros _. by apply holds_ret.
    + apply finishes_bind; [apply search_pv_finishes|]. intros _. by apply holds_ret.
Qed.

End Finishes.

Lemma search_body_finishes (query : string -> bool * list (option Z))
    (search_rec : string -> Z -> Z -> prog Z) (s : string) (alpha beta : Z) :
  (forall b, moveseq_to_board49 s = Ok b ->
   forall (c : nat) (v alpha beta : Z),
   (query s).2 !! c = Some (Some v) ->
   holds table_wf finishes (search_rec (s ++ str_move c)%string alpha beta)) ->
  moveseq_to_board49 s <> OutOfFuel ->
  holds table_wf finishes (search_body query search_rec s alpha beta).
Proof.
  intros Hrec Henc. unfold search_body.
  eapply holds_bind with (Q1 := fun r => r = moveseq_to_board49 s);
    [by apply holds_lift| |done|intros He; by symmetry in He].
  intros board Hb. apply finishes_bind; [apply tt_get_finishes|]. intros tt_value.
  destruct (probe tt_value alpha beta) as [v|alpha' beta' ub]; [by apply holds_ret|].
  apply (search_node_finishes query search_rec s (query s).2); [|done].
  intros c v a b Hc. by eapply Hrec.
Qed.

Lemma parse_move_finishes (w : nat) (ch : ascii) : finishes (parse_move w ch).
Proof.
  unfold finishes, parse_move. destruct (negb _); [done|]. by destruct (negb _).
Qed.

Lemma board49_loop_finishes (s : string) :
  forall ply hs ps, finishes (board49_loop 7 6 s ply hs ps).
Proof.
  induction s as [|ch s IH]; intros ply hs ps; cbn [board49_loop]; [done|].
  pose proof (parse_move_finishes 7 ch) as Hp.
  destruct (parse_move 7 ch) as [col| |]; [|done|done]. cbn [bind].
  destruct (6 <=? hs !!! col)%nat; [done|]. apply IH.
Qed.

Lemma encode_finishes (s : string) : finishes (moveseq_to_board49 s).
Proof.
  unfold moveseq_to_board49, moveseq_to_board49_gen. cbn [Nat.eqb negb orb bind].
  pose proof (board49_loop_finishes s 0 (replicate 7 0%nat) (replicate 7 0)) as H.
  destruct (board49_loop 7 6 s 0 _ _) as [[hs ps]| |]; done.
Qed.

Lemma search_finishes (query : string -> bool * list (option Z)) :
  oracle_legal query ->
  forall (fuel : nat) (s : string) (alpha beta : Z),
  legal s -> (43 <= fuel + String.length s)%nat ->
  holds table_wf finishes (search query fuel s alpha beta).
Proof.
  intros Hleg. induction fuel as [|fuel IH]; intros s alpha beta Hs Hfuel.
  - pose proof (legal_length s Hs). lia.
  - cbn [search]. apply search_body_finishes; [|apply encode_finishes].
    intros b _ c v a b' Hc. apply IH.
    + by apply (Hleg s c v).
    + rewrite length_append. simpl. lia.
Qed.

(** Whatever the oracle names, one more nested call is enough: a call on
    a sequence of 43 plies raises in the encoder at once. *)
Lemma search_finishes_any (query : string -> bool * list (option Z)) :
  forall (fuel : nat) (s : string) (alpha beta : Z),
  (1 <= fuel)%nat -> (44 <= fuel + String.length s)%nat ->
  holds table_wf finishes (search query fuel s alpha beta).
Proof.
  induction fuel as [|fuel IH]; intros s alpha beta Hpos Hfuel; [lia|].
  cbn [search]. apply search_body_finishes; [|apply encode_finishes].
  intros b Hb c v a b' Hc.
  pose proof (legal_length s (encode_legal s b Hb)) as Hlen.
  apply IH; [lia|]. rewrite length_append. simpl. lia.
Qed.

(** C10.  With an oracle that names only legal moves, [search] on a legal
    sequence [s] needs at most [43 - length s] nested calls, one per ply
    up to ply 42: with that much fuel the run ends (by a value or an
    exception) and leaves the table well formed. *)
Theorem search_terminates (query : string -> bool * list (option Z))
    (fuel : nat) (s : string) (alpha beta : Z) (w : world) :
  oracle_legal query -> legal s -> TT.wf (table w) ->
  (43 <= fuel + String.length s)%nat ->
  (search query fuel s alpha beta w).2 <> OutOfFuel /\
  TT.wf (table (search query fuel s alpha beta w).1).
Proof.
  intros Hleg Hs Hw Hfuel.
  destruct (search_finishes query Hleg fuel s alpha beta Hs Hfuel w Hw). done.
Qed.

Lemma leaf_oracle_legal : oracle_legal leaf_oracle.
Proof.
  intros s c v Hs. unfold leaf_oracle.
  destruct (String.eqb_spec s "") as [->|Hne]; simpl; intros Hq.
  - do 7 (destruct c as [|c]; [first [discriminate Hq | reflexivity]|]).
    discriminate Hq.
  - do 7 (destruct c as [|c]; [discriminate Hq|]). discriminate Hq.
Qed.

Lemma search_terminates_witness :
  (search leaf_oracle 43 "" (-1) 1 (empty_world 8)).2 <> OutOfFuel /\
  TT.wf (table (search leaf_oracle 43 "" (-1) 1 (empty_world 8)).1).
Proof.
  apply search_terminates.
  - exact leaf_oracle_legal.
  - reflexivity.
  - split; simpl; [lia|reflexivity].
  - simpl. lia.
Defined.

Lemma unpack_record (v ub : Z) :
  -1 <= v <= 1 -> -1 <= ub <= 1 ->
  lb_of ((v + 1) + ((ub + 1) * 16)) = v /\
  ub_of ((v + 1) + ((ub + 1) * 16)) = ub /\
  0 <= (v + 1) + ((ub + 1) * 16) < 2 ^ 14.
Proof.
  intros Hv Hub. unfold lb_of, ub_of.
  rewrite Z.mod_add, Z.div_add by lia.
  rewrite Z.mod_small, Z.div_small by lia. lia.
Qed.

Lemma record_for_packed (v ub : Z) :
  -1 <= v <= 1 -> ub = v \/ ub = 1 ->
  record_for v ((v + 1) + ((ub + 1) * 16)).
Proof.
  intros Hv Hub. destruct (unpack_record v ub Hv ltac:(lia)) as (Hl & Hu & Hr).
  unfold record_for. rewrite Hl, Hu. split_and!; try done; lia.
Qed.

Lemma record_for_bounds (v record : Z) : record_for v record -> bounds_ok record.
Proof. unfold record_for, bounds_ok. lia. Qed.

Section Invariant.
Variable query : string -> bool * list (option Z).
Hypothesis query_wf : oracle_wf query.
Hypothesis query_consistent : oracle_consistent query.

Lemma tt_get_ok (s : string) (board : Z) :
  reachable query s -> moveseq_to_board49 s = Ok board ->
  holds (world_ok query)
    (fun r => forall t, r = Ok (Some t) ->
       exists v, node_value query s = Ok v /\ record_for v t)
    (tt_get board).
Proof.
  intros Hreach Henc w Hw. split; [done|]. simpl. intros t Hget.
  destruct Hw as (Hwf & Hslots & _).
  apply get_found in Hget as (j & Hj & Hnz & Hkey & ->); [|done].
  assert (Hl : slots (table w) !! j = Some (slots (table w) !!! j)).
  { apply list_lookup_lookup_total_lt. destruct Hwf. lia. }
  eapply Forall_lookup_1 in Hslots; [|exact Hl].
  destruct Hslots as [?|(s' & b & v & record & Hr' & Henc' & Hnv & Hrec & He)];
    [done|].
  pose proof (encode_key_range s' b Henc') as Hb.
  rewrite He in Hkey |- *. rewrite entry_key in Hkey by done.
  rewrite entry_value by done.
  assert (b = board) as -> by lia.
  exists v. split; [|done]. rewrite <- Hnv.
  by apply (query_consistent s s' board).
Qed.

Lemma tt_set_ok (s : string) (board v record : Z) :
  reachable query s ->
  moveseq_to_board49 s = Ok board -> node_value query s = Ok v ->
  record_for v record ->
  holds (world_ok query) any (tt_set board record).
Proof.
  intros Hreach Henc Hnv Hrec w Hw. unfold tt_set.
  destruct (set (table w) board record) as [tb| |] eqn:Hs; [|done|done].
  split; [|done]. destruct Hw as (Hwf & Hslots & Hst). split_and!; simpl.
  - by apply (set_wf (table w) tb board record).
  - eapply set_forall; [exact Hwf|exact Hs|exact Hslots|].
    right. by exists s, board, v, record.
  - apply Forall_app. split; [done|]. apply Forall_singleton.
    by apply (record_for_bounds v).
Qed.

Lemma any_bind {A B : Type} (I : world -> Prop) (m : prog A) (k : A -> prog B) :
  holds I any m -> (forall a, holds I any (k a)) -> holds I any (pbind m k).
Proof. intros Hm Hk. eapply holds_bind; [exact Hm|auto|done|done]. Qed.

Section Node.
Variable search_rec : string -> Z -> Z -> prog Z.
Variable s : string.
Variable board : Z.
Variable wdl_list : list (option Z).
Hypothesis s_reachable : reachable query s.
Hypothesis s_board : moveseq_to_board49 s = Ok board.

(** The calls made from the node of [s]: one column further, where the
    oracle named a value. *)
Hypothesis rec_ok :
  forall (c : nat) (v alpha beta : Z),
  wdl_list !! c = Some (Some v) ->
  holds (world_ok query) any (search_rec (s ++ str_move c)%string alpha beta).

Lemma search_cut_ok (value alpha beta ub : Z) :
  node_value query s = Ok value ->
  -1 <= value <= 1 -> ub = value \/ ub = 1 ->
  holds (world_ok query) any
    (search_cut search_rec s board wdl_list value alpha beta ub).
Proof.
  intros Hnv Hv Hub. unfold search_cut.
  destruct (first_best_spec wdl_list value MOVE_ORDERING) as [_ Hs].
  eapply holds_bind with (Q1 := fun r => r = first_best wdl_list value MOVE_ORDERING);
    [by apply holds_lift| |done|done].
  intros fm Hfm.
  apply any_bind;
    [|intros; by apply (tt_set_ok s board value), record_for_packed].
  destruct fm as [move|]; [|by apply holds_ret].
  apply any_bind; [by eapply rec_ok, Hs|]. intros r.
  apply any_bind; [by apply holds_lift|intros _; by apply holds_lift].
Qed.

Lemma search_others_ok (fm : option nat) (alpha beta : Z) (moves : list nat) :
  holds (world_ok query) any
    (search_others search_rec s wdl_list fm alpha beta moves).
Proof.
  induction moves as [|move moves IH]; simpl; [by apply holds_ret|].
  destruct fm as [fm|]; [|by apply holds_lift].
  destruct (move =? fm)%nat; [done|].
  eapply holds_bind with (Q1 := fun r => r = list_get wdl_list move);
    [by apply holds_lift| |done|done].
  intros [x|] Hx; [|done].
  apply any_bind.
  { eapply rec_ok. unfold list_get in Hx.
    destruct (wdl_list !! move) as [y|]; [|done]. by injection Hx as ->. }
  intros r. apply any_bind; [by apply holds_lift|done].
Qed.

Lemma search_pv_ok (value alpha beta : Z) :
  node_value query s = Ok value -> -1 <= value <= 1 ->
  holds (world_ok query) any
    (search_pv search_rec s board wdl_list value alpha beta).
Proof.
  intros Hnv Hv. unfold search_pv.
  destruct (first_best_spec wdl_list value MOVE_ORDERING) as [_ Hs].
  eapply holds_bind with (Q1 := fun r => r = first_best wdl_list value MOVE_ORDERING);
    [by apply holds_lift| |done|done].
  intros fm Hfm. apply any_bind.
  - destruct fm as [move|]; [|by apply holds_ret].
    apply any_bind; [by eapply rec_ok, Hs|]. intros r.
    apply any_bind; [by apply holds_lift|]. intros _.
    apply any_bind; [by apply holds_lift|]. intros _. by apply holds_ret.
  - intros alpha1. apply any_bind; [apply search_others_ok|]. intros _.
    apply (tt_set_ok s board value); [done|done|done|].
    apply record_for_packed; [done|by left].
Qed.

End Node.

Lemma search_node_ok (search_rec : string -> Z -> Z -> prog Z) (s : string)
    (board alpha beta ub : Z) :
  reachable query s -> moveseq_to_board49 s = Ok board ->
  (forall (c : nat) (v alpha beta : Z),
   (query s).1 = false -> (query s).2 !! c = Some (Some v) ->
   holds (world_ok query) any (search_rec (s ++ str_move c)%string alpha beta)) ->
  (forall v, node_value query s = Ok v -> ub = v \/ ub = 1) ->
  holds (world_ok query) any (search_node query search_rec s board alpha beta ub).
Proof.
  intros Hreach Henc Hrec Hub. unfold search_node.
  pose proof (query_wf s) as Hwdl.
  assert (Hnv : node_value query s
                = if (query s).1 then terminal_value query s
                  else max_defined (query s).2).
  { unfold node_value. by destruct (query s). }
  destruct (query s) as [is_terminal wdl_list]. simpl in Hwdl, Hnv, Hrec.
  destruct is_terminal.
  - eapply holds_bind with (Q1 := fun r => r = terminal_value query s);
      [by apply holds_lift| |done|done].
    intros value Hval. symmetry in Hval.
    apply any_bind; [|intros; by apply holds_ret].
    apply (tt_set_ok s board value); [done|done|by rewrite Hnv|].
    apply record_for_packed; [|by left].
    destruct (terminal_value_range query s value Hval); lia.
  - eapply holds_bind with (Q1 := fun r => r = max_defined wdl_list);
      [by apply holds_lift| |done|done].
    intros value Hval. symmetry in Hval.
    assert (Hv : -1 <= value <= 1).
    { apply max_defined_spec in Hval as [Hin _]. by apply (wdl_wf_range wdl_list). }
    destruct (beta <=? value).
    + apply any_bind; [|intros; by apply holds_ret].
      apply search_cut_ok;
        [done|done|intros c v a b Hc; by apply (Hrec c v)|by rewrite Hnv|done|].
      apply Hub. by rewrite Hnv.
    + apply any_bind; [|intros; by apply holds_ret].
      apply search_pv_ok;
        [done|done|intros c v a b Hc; by apply (Hrec c v)|by rewrite Hnv|done].
Qed.

Lemma search_body_ok (search_rec : string -> Z -> Z -> prog Z) (s : string)
    (alpha beta : Z) :
  reachable query s ->
  (forall (c : nat) (v alpha beta : Z),
   (query s).1 = false -> (query s).2 !! c = Some (Some v) ->
   holds (world_ok query) any (search_rec (s ++ str_move c)%string alpha beta)) ->
  holds (world_ok query) any (search_body query search_rec s alpha beta).
Proof.
  intros Hreach Hrec. unfold search_body.
  eapply holds_bind with (Q1 := fun r => r = moveseq_to_board49 s);
    [by apply holds_lift| |done|done].
  intros board Henc. symmetry in Henc.
  eapply holds_bind; [by apply (tt_get_ok s board)| |done|done].
  intros tt_value Hget. simpl in Hget.
  destruct (probe tt_value alpha beta) as [v|alpha' beta' ub] eqn:Hprobe;
    [by apply holds_ret|].
  apply search_node_ok; [done|done|done|].
  intros v Hnv. apply probe_window in Hprobe as ->.
  destruct tt_value as [t|]; [|by right]. simpl.
  destruct (Hget t eq_refl) as (v' & Hnv' & _ & _ & _ & Hu).
  rewrite Hnv in Hnv'. injection Hnv' as <-. exact Hu.
Qed.

Lemma search_ok (fuel : nat) :
  forall (s : string) (alpha beta : Z),
  reachable query s ->
  holds (world_ok query) any (search query fuel s alpha beta).
Proof.
  induction fuel as [|fuel IH]; intros s alpha beta Hreach; cbn [search].
  - by apply holds_lift.
  - apply search_body_ok; [done|]. intros c v a b Ht Hc.
    apply IH. by apply (reach_move query s c v).
Qed.

End Invariant.

Lemma world_ok_new (query : string -> bool * list (option Z)) (capacity : Z) (tb : t) :
  new capacity = Ok tb -> world_ok query (World tb []).
Proof.
  intros Hnew. apply new_wf in Hnew as [Hwf H0]. split_and!; simpl; [done| |done].
  eapply Forall_impl; [exact H0|]. intros e ->. by left.
Qed.

Lemma world_ok_get (query : string -> bool * list (option Z)) (w : world)
    (key t : Z) :
  world_ok query w -> get (table w) key = Ok (Some t) -> bounds_ok t.
Proof.
  intros (Hwf & Hslots & _) Hget.
  apply get_found in Hget as (j & Hj & Hnz & Hkey & ->); [|done].
  assert (Hl : slots (table w) !! j = Some (slots (table w) !!! j)).
  { apply list_lookup_lookup_total_lt. destruct Hwf. lia. }
  eapply Forall_lookup_1 in Hslots; [|exact Hl].
  destruct Hslots as [?|(s' & b & v & record & _ & Henc' & _ & Hrec & He)];
    [done|].
  rewrite He, entry_value by (by apply (encode_key_range s')).
  by apply (record_for_bounds v).
Qed.

(** C5.  With a well-formed oracle that answers by position, every record
    stored by a run of [search] from a fresh table, started at a
    sequence reachable under the oracle (the empty one, for the
    program), unpacks to bounds with [-1 <= lb <= ub <= 1]; this at each
    of the three [set] sites, and whether or not the run ends by an
    exception.  The same holds of every record the table then returns. *)
Theorem stored_bounds (query : string -> bool * list (option Z))
    (capacity : Z) (tb : t) (fuel : nat) (s : string) (alpha beta : Z) :
  oracle_wf query -> oracle_consistent query ->
  new capacity = Ok tb -> reachable query s ->
  let w' := (search query fuel s alpha beta (World tb [])).1 in
  Forall (fun kv => bounds_ok kv.2) (stores w') /\
  forall key t, get (table w') key = Ok (Some t) -> bounds_ok t.
Proof.
  intros Hwf Hcons Hnew Hreach.
  destruct (search_ok query Hwf Hcons fuel s alpha beta Hreach (World tb [])
              (world_ok_new query capacity tb Hnew)) as [Hok _].
  split; [by destruct Hok as (_ & _ & Hst)|].
  intros key t. by apply (world_ok_get query).
Qed.

(** *** The example oracle *)

Lemma toy_oracle_wf : oracle_wf toy_oracle.
Proof.
  intros s. unfold toy_oracle.
  destruct (moveseq_to_board49 s) as [[|p|p]| |]; simpl;
    (split; [reflexivity|repeat constructor; lia]).
Qed.

Lemma toy_terminal_value (s : string) : terminal_value toy_oracle s = Ok (-1).
Proof.
  unfold terminal_value. destruct (_ =? 42)%nat; [|done].
  unfold toy_oracle.
  destruct (moveseq_to_board49 (drop_last s)) as [[|p|p]| |]; reflexivity.
Qed.

Lemma toy_node_value (s : string) :
  node_value toy_oracle s
  = match moveseq_to_board49 s with Ok 0 => Ok 1 | _ => Ok (-1) end.
Proof.
  unfold node_value. pose proof (toy_terminal_value s) as Ht.
  unfold toy_oracle at 1.
  destruct (moveseq_to_board49 s) as [[|p|p]| |]; done.
Qed.

Lemma toy_oracle_consistent : oracle_consistent toy_oracle.
Proof.
  intros s1 s2 b _ _ H1 H2. by rewrite !toy_node_value, H1, H2.
Qed.

Lemma search_terminal_witness :
  exists value tb',
    TT.set (table (empty_world 8)) 465431063852265
      ((value + 1) + ((value + 1) * 16)) = Ok tb' /\
    search toy_oracle 1 full_board_seq (-1) 1 (empty_world 8)
    = (World tb' (stores (empty_world 8)
                  ++ [(465431063852265, (value + 1) + ((value + 1) * 16))]),
       Ok value) /\
    ((String.length full_board_seq < 42)%nat -> value = -1) /\
    (String.length full_board_seq = 42%nat ->
     value = if existsb (fun x => wdl_is x 1)
                  (toy_oracle (drop_last full_board_seq)).2
             then -1 else 0).
Proof.
  apply (search_terminal toy_oracle 0 (empty_world 8) full_board_seq (-1) 1
           465431063852265 None (-1) 1 1
           [Some 1; None; None; None; None; None; None]).
  - split; simpl; [lia|reflexivity].
  - reflexivity.
  - reflexivity.
  - reflexivity.
  - reflexivity.
  - intros _. split; [apply toy_oracle_wf|].
    exists 1. apply list_elem_of_In. vm_compute. left. reflexivity.
Defined.

Lemma search_beta_cutoff_witness :
  1 = 1 /\ 1 = prior_ub None /\
  exists w1 tb',
    TT.set (table w1) 0 ((1 + 1) + ((prior_ub None + 1) * 16)) = Ok tb' /\
    (search toy_oracle 2 "" (-1) 1 (empty_world 8)).1
    = World tb' (stores w1 ++ [(0, (1 + 1) + ((prior_ub None + 1) * 16))]).
Proof.
  apply (search_beta_cutoff toy_oracle 1 (empty_world 8) _ "" (-1) 1 1
           0 None (-1) 1 1 [None; None; None; Some 1; None; None; None] 1).
  - reflexivity.
  - reflexivity.
  - reflexivity.
  - reflexivity.
  - reflexivity.
  - lia.
  - reflexivity.
Defined.

Lemma stored_bounds_witness :
  let w' := (search toy_oracle 5 "" (-1) 1
               (World (mk 8 [0; 0; 0; 0; 0; 0; 0; 0] 0) [])).1 in
  Forall (fun kv => bounds_ok kv.2) (stores w') /\
  forall key t, get (table w') key = Ok (Some t) -> bounds_ok t.
Proof.
  apply (stored_bounds toy_oracle 8).
  - exact toy_oracle_wf.
  - exact toy_oracle_consistent.
  - reflexivity.
  - apply reach_root.
Defined.

End SearchFacts.

(** ** The table as a finite map: facts *)

Module TTMapFacts.
Import TT TTSpec TTFacts TTMapSpec.

Lemma dist_fwd (c h d : nat) :
  (h < c)%nat -> (d < c)%nat -> _dist c (fwd c h d) h = d.
Proof.
  intros Hh Hd. unfold _dist, fwd.
  destruct (Nat.ltb_spec (h + d) c);
    match goal with |- context [(?a <=? ?b)%nat] => destruct (Nat.leb_spec a b) end; lia.
Qed.

Lemma fwd_dib_at (c i : nat) (e : Z) :
  (0 < c)%nat -> (i < c)%nat ->
  fwd c (_home c (key_of e)) (dib_at c i e) = i.
Proof.
  intros Hc Hi. unfold dib_at.
  by destruct (fwd_dist c (_home c (key_of e)) i (home_lt c _ Hc) Hi).
Qed.

Lemma ordered_insert (c : nat) (sl : list Z) (i : nat) (entry : Z) :
  (0 < c)%nat -> length sl = c -> (i < c)%nat -> entry <> 0 ->
  ordered c sl ->
  (forall d : nat, (d < dib_at c i entry)%nat ->
     let q := fwd c (_home c (key_of entry)) d in
     sl !!! q <> 0 /\ (d <= dib_at c q (sl !!! q))%nat) ->
  (sl !!! i <> 0 -> (dib_at c i (sl !!! i) <= dib_at c i entry)%nat) ->
  ordered c (<[i := entry]> sl).
Proof.
  intros Hc Hlen Hi He Hord Hpath Hge j Hj Hnz d Hd. simpl.
  destruct (decide (j = i)) as [->|Hne].
  - rewrite list_lookup_total_insert_eq in Hd |- * by lia.
    pose proof (dib_at_lt c i entry Hi) as Hlt.
    rewrite list_lookup_total_insert_ne; [exact (Hpath d Hd)|].
    intros Heq. rewrite <- (fwd_dib_at c i entry Hc Hi) in Heq at 1.
    pose proof (home_lt c (key_of entry) Hc).
    apply fwd_inj in Heq; lia.
  - rewrite (list_lookup_total_insert_ne sl i j entry) in Hnz, Hd |- * by congruence.
    destruct (Hord j Hj Hnz d Hd) as [Hq Hdq].
    set (q := fwd c (_home c (key_of (sl !!! j))) d) in *.
    destruct (decide (q = i)) as [Hqi|Hqi].
    + rewrite Hqi in *. rewrite list_lookup_total_insert_eq by lia.
      split; [done|]. specialize (Hge Hq). lia.
    + rewrite list_lookup_total_insert_ne by congruence. done.
Qed.

Lemma unique_insert (c : nat) (sl : list Z) (i : nat) (entry : Z) :
  length sl = c -> (i < c)%nat -> unique_keys c sl ->
  (forall j : nat, (j < c)%nat -> j <> i -> sl !!! j <> 0 ->
     key_of (sl !!! j) <> key_of entry) ->
  unique_keys c (<[i := entry]> sl).
Proof.
  intros Hlen Hi Hu Hnew a b Ha Hb Hna Hnb Hk.
  destruct (decide (a = i)) as [->|Hai]; destruct (decide (b = i)) as [->|Hbi];
    try done.
  - rewrite list_lookup_total_insert_eq in Hk by lia.
    rewrite list_lookup_total_insert_ne in Hk, Hnb by congruence.
    exfalso. by apply (Hnew b Hb Hbi Hnb).
  - rewrite list_lookup_total_insert_eq in Hk by lia.
    rewrite list_lookup_total_insert_ne in Hk, Hna by congruence.
    exfalso. by apply (Hnew a Ha Hai Hna).
  - rewrite !list_lookup_total_insert_ne in * by congruence. by apply Hu.
Qed.

Lemma elem_of_insert_swap (sl : list Z) (i : nat) (x e' : Z) :
  (i < length sl)%nat ->
  (e' ∈ <[i := x]> sl \/ e' = sl !!! i) <-> (e' ∈ sl \/ e' = x).
Proof.
  intros Hi. split.
  - intros [Hin | ->].
    + apply list_elem_of_lookup in Hin as [j Hj].
      apply list_lookup_insert_Some in Hj as [(Hij & Hxy & _)|(Hne & Hj)];
        [right; by symmetry|].
      left. by apply (list_elem_of_lookup_2 _ j).
    + left. apply list_elem_of_lookup_total_2. done.
  - intros [Hin | ->].
    + apply list_elem_of_lookup in Hin as [j Hj].
      destruct (decide (j = i)) as [->|Hne].
      * right. by apply list_lookup_total_correct in Hj.
      * left. apply (list_elem_of_lookup_2 _ j).
        by rewrite list_lookup_insert_ne.
    + left. apply (list_elem_of_lookup_2 _ i). by apply list_lookup_insert_eq.
Qed.

(** Inserting a key the table does not hold, with a free slot ahead: the
    loop of [set] returns at an empty slot, and keeps the ordering, the
    uniqueness of keys and every word it met. *)
Lemma set_loop_inserts (c h0 z : nat) (kp0 : Z) (fuel : nat) :
  forall (sl : list Z) (sz : nat) (entry : Z) (m dib : nat),
  (0 < c)%nat -> length sl = c -> (h0 < c)%nat -> (m <= z < c)%nat ->
  (dib <= m)%nat ->
  sl !!! fwd c h0 z = 0 -> (z - m < fuel)%nat ->
  ordered c sl -> unique_keys c sl ->
  entry <> 0 ->
  (forall j : nat, (j < c)%nat -> sl !!! j <> 0 ->
     key_of (sl !!! j) <> key_of entry) ->
  fwd c h0 m = fwd c (_home c (key_of entry)) dib ->
  (forall d : nat, (d < dib)%nat ->
     let q := fwd c (_home c (key_of entry)) d in
     sl !!! q <> 0 /\ (d <= dib_at c q (sl !!! q))%nat) ->
  (forall t : nat, (m <= t <= z)%nat -> sl !!! fwd c h0 t <> 0 ->
     key_of (sl !!! fwd c h0 t) <> kp0) ->
  exists sl',
    set_loop fuel c sl sz kp0 entry (fwd c h0 m) dib = Some (sl', S sz, Returned) /\
    length sl' = c /\ ordered c sl' /\ unique_keys c sl' /\
    forall e' : Z, e' <> 0 -> (e' ∈ sl' <-> e' ∈ sl \/ e' = entry).
Proof.
  induction fuel as [|fuel IH];
    intros sl sz entry m dib Hc Hlen Hh Hm Hdib Hz Hf Hord Huniq He Habs Hpos Hpath Hkp0;
    [lia|].
  set (i := fwd c h0 m) in *.
  assert (Hi : (i < c)%nat) by (apply fwd_lt; lia).
  pose proof (home_lt c (key_of entry) Hc) as Hhe.
  assert (Hdibat : dib_at c i entry = dib).
  { unfold dib_at. rewrite Hpos. apply dist_fwd; lia. }
  simpl. destruct (Nat.ltb_spec dib c); [|lia].
  assert (Hplace : (sl !!! i <> 0 -> (dib_at c i (sl !!! i) <= dib)%nat) ->
            ordered c (<[i := entry]> sl) /\ unique_keys c (<[i := entry]> sl)).
  { intros Hge. split.
    - apply ordered_insert; try done.
      + rewrite Hdibat. exact Hpath.
      + by rewrite Hdibat.
    - apply unique_insert; try done. intros j Hj _ Hnz. by apply Habs. }
  assert (Hahead : forall t : nat, (m < t <= z)%nat ->
            <[i := entry]> sl !!! fwd c h0 t = sl !!! fwd c h0 t).
  { intros t Ht. apply list_lookup_total_insert_ne. unfold i.
    intros Heq. apply fwd_inj in Heq; lia. }
  destruct (Z.eqb_spec (sl !!! i) 0) as [He0|He0].
  { exists (<[i := entry]> sl). rewrite length_insert.
    destruct Hplace as [Ho Hu]; [done|]. split_and!; try done.
    intros e' Hne. rewrite <- (elem_of_insert_swap sl i entry e') by lia.
    rewrite He0. split; [by left|]. intros [?|?]; done. }
  fold (key_of (sl !!! i)).
  destruct (Z.eqb_spec (key_of (sl !!! i)) kp0) as [Hk|Hk].
  { exfalso. apply (Hkp0 m); [lia|done|done]. }
  fold (dib_at c i (sl !!! i)).
  assert (Hmz : (m < z)%nat).
  { destruct (decide (m = z)) as [->|]; [done|lia]. }
  assert (Hnext : next c i = fwd c h0 (S m)) by (apply fwd_next; lia).
  rewrite Hnext.
  pose proof (dib_at_lt c i (sl !!! i) Hi) as Hinc.
  pose proof (home_lt c (key_of (sl !!! i)) Hc) as Hhi.
  destruct (Nat.ltb_spec (dib_at c i (sl !!! i)) dib) as [Hsw|Hns].
  - destruct Hplace as [Ho Hu]; [lia|].
    destruct (IH (<[i := entry]> sl) sz (sl !!! i) (S m) (S (dib_at c i (sl !!! i))))
      as (sl' & Hr & Hl' & Ho' & Hu' & Hmem); try done; try lia.
    + by rewrite length_insert.
    + rewrite Hahead by lia. done.
    + intros j Hj Hnz. destruct (decide (j = i)) as [->|Hne].
      * rewrite list_lookup_total_insert_eq by lia.
        intros Heq. by apply (Habs i Hi He0).
      * rewrite list_lookup_total_insert_ne in Hnz |- * by congruence.
        intros Heq. apply Hne. by apply (Huniq j i).
    + rewrite <- Hnext.
      rewrite <- (fwd_next c (_home c (key_of (sl !!! i)))) by lia.
      f_equal. symmetry. by apply fwd_dib_at.
    + intros d Hd. simpl.
      destruct (decide (d = dib_at c i (sl !!! i))) as [->|Hne].
      * rewrite fwd_dib_at by done.
        rewrite list_lookup_total_insert_eq by lia. rewrite Hdibat.
        split; [done|lia].
      * destruct (Hord i Hi He0 d ltac:(lia)) as [Hq Hdq].
        rewrite list_lookup_total_insert_ne; [done|].
        intros Heq. rewrite <- (fwd_dib_at c i (sl !!! i) Hc Hi) in Heq at 1.
        apply fwd_inj in Heq; lia.
    + intros t Ht. rewrite Hahead by lia. apply Hkp0. lia.
    + exists sl'. split_and!; try done.
      intros e' Hne. rewrite Hmem by done.
      apply elem_of_insert_swap. lia.
  - destruct (IH sl sz entry (S m) (S dib))
      as (sl' & Hr & Hl' & Ho' & Hu' & Hmem); try done; try lia.
    + rewrite <- Hnext.
      rewrite <- (fwd_next c (_home c (key_of entry))) by lia.
      f_equal. exact Hpos.
    + intros d Hd. simpl.
      destruct (decide (d = dib)) as [->|Hne]; [|apply Hpath; lia].
      rewrite <- Hpos. fold i. split; [done|lia].
    + intros t Ht. apply Hkp0. lia.
    + exists sl'. split_and!; done.
Qed.

Lemma occupied_cons (e : Z) (sl : list Z) :
  occupied (e :: sl) = if decide (e <> 0) then S (occupied sl) else occupied sl.
Proof. unfold occupied. rewrite filter_cons. by destruct (decide (e <> 0)). Qed.

Lemma occupied_le (sl : list Z) : (occupied sl <= length sl)%nat.
Proof. unfold occupied. apply length_filter. Qed.

Lemma occupied_insert_count (sl : list Z) (i : nat) (x : Z) :
  (i < length sl)%nat ->
  Nat.add (occupied (<[i := x]> sl)) (if decide (sl !!! i <> 0) then 1%nat else 0%nat)
  = Nat.add (occupied sl) (if decide (x <> 0) then 1%nat else 0%nat).
Proof.
  revert i. induction sl as [|e sl IH]; intros i Hi; simpl in Hi; [lia|].
  destruct i as [|i].
  - change (<[0%nat := x]> (e :: sl)) with (x :: sl).
    change ((e :: sl) !!! 0%nat) with e. rewrite !occupied_cons.
    destruct (decide (x <> 0)); destruct (decide (e <> 0)); lia.
  - change (<[S i := x]> (e :: sl)) with (e :: <[i := x]> sl).
    change ((e :: sl) !!! S i) with (sl !!! i). rewrite !occupied_cons.
    specialize (IH i ltac:(lia)).
    destruct (decide (e <> 0)); lia.
Qed.

Lemma free_slot_exists (sl : list Z) :
  (occupied sl < length sl)%nat ->
  exists j : nat, (j < length sl)%nat /\ sl !!! j = 0.
Proof.
  induction sl as [|e sl IH]; simpl; [lia|]. rewrite occupied_cons.
  destruct (decide (e <> 0)) as [Hne|He].
  - intros H. destruct IH as (j & Hj & Hz); [lia|]. exists (S j). split; [lia|done].
  - intros _. exists 0%nat. split; [lia|]. simpl.
    destruct (Z.eq_dec e 0); [done|by exfalso; apply He].
Qed.

(** [set] keeps [size] in step with the occupied slots. *)
Lemma set_loop_occupied (c fuel : nat) :
  forall (sl : list Z) (sz : nat) (kp entry : Z) (i dib : nat) sl' sz' ex,
  length sl = c -> (i < c)%nat -> entry <> 0 ->
  set_loop fuel c sl sz kp entry i dib = Some (sl', sz', ex) ->
  (occupied sl' + sz = occupied sl + sz')%nat.
Proof.
  induction fuel as [|fuel IH];
    intros sl sz kp entry i dib sl' sz' ex Hlen Hi He; simpl.
  - destruct (dib <? c)%nat; intros [= <- <- <-]; done.
  - destruct (dib <? c)%nat; [|intros [= <- <- <-]; done].
    pose proof (occupied_insert_count sl i entry ltac:(lia)) as Hocc.
    destruct (decide (entry <> 0)); [|done].
    destruct (Z.eqb_spec (sl !!! i) 0) as [He0|He0].
    { intros [= <- <- <-]. destruct (decide (sl !!! i <> 0)); [done|lia]. }
    destruct (decide (sl !!! i <> 0)); [|done].
    destruct (Z.land (sl !!! i) KEY_MASK =? kp).
    { intros [= <- <- <-]. lia. }
    destruct (_ <? dib)%nat; intros H; apply IH in H;
      rewrite ?length_insert; auto using next_lt; lia.
Qed.

Lemma stored_findable (c : nat) (sl : list Z) (j : nat) :
  (0 < c)%nat -> (j < c)%nat -> ordered c sl -> unique_keys c sl ->
  sl !!! j <> 0 ->
  probe_hit c sl (key_of (sl !!! j)) (dib_at c j (sl !!! j)) (sl !!! j).
Proof.
  intros Hc Hj Hord Hu Hnz.
  pose proof (dib_at_lt c j (sl !!! j) Hj) as Hlt.
  pose proof (home_lt c (key_of (sl !!! j)) Hc) as Hh.
  split; [done|]. split; [|by rewrite fwd_dib_at].
  intros d Hd. simpl. destruct (Hord j Hj Hnz d Hd) as [Hq Hdq].
  split_and!; [done| |done].
  intros Hk. apply Hu in Hk; [|apply fwd_lt; lia|done|done|done].
  pose proof (fwd_dib_at c j (sl !!! j) Hc Hj) as Hpos.
  assert (d = dib_at c j (sl !!! j)); [|lia].
  apply (fwd_inj c (_home c (key_of (sl !!! j)))); [lia|lia|lia|congruence].
Qed.

Lemma get_stored (tb : t) (k : Z) (j : nat) :
  wf tb -> ordered (cap tb) (slots tb) -> unique_keys (cap tb) (slots tb) ->
  key_in_range k -> (j < cap tb)%nat ->
  slots tb !!! j <> 0 -> key_of (slots tb !!! j) = k + 1 ->
  get tb k = Ok (Some (Z.shiftr (slots tb !!! j) VAL_SHIFT)).
Proof.
  intros [Hc Hlen] Hord Hu Hk Hj Hnz Hkey.
  pose proof (stored_findable _ _ j Hc Hj Hord Hu Hnz) as Hhit.
  rewrite Hkey in Hhit. pose proof Hhit as (Hn & _).
  pose proof (get_loop_hit (cap tb) (slots tb) (k + 1) _ _ (cap tb) 0%nat Hc Hhit
                ltac:(lia) ltac:(lia)) as Hg.
  rewrite fwd_0 in Hg by (by apply home_lt).
  unfold get. rewrite (proj2 (range_checks k) Hk). by rewrite Hg.
Qed.

Lemma get_missing (tb : t) (k : Z) :
  wf tb -> key_in_range k ->
  (forall j : nat, (j < cap tb)%nat -> slots tb !!! j <> 0 ->
     key_of (slots tb !!! j) <> k + 1) ->
  get tb k = Ok None.
Proof.
  intros Hwf Hk Habs. destruct (get_ok tb k Hk) as [[v|] Hg]; [|done].
  apply get_found in Hg as (j & Hj & Hnz & Hkey & _); [|done].
  exfalso. by apply (Habs j).
Qed.

(** [set] of a key the table holds: the word is replaced where it is. *)
Lemma set_update (tb : t) (k v : Z) (j : nat) :
  wf tb -> ordered (cap tb) (slots tb) -> unique_keys (cap tb) (slots tb) ->
  key_in_range k -> value_in_range v -> (j < cap tb)%nat ->
  slots tb !!! j <> 0 -> key_of (slots tb !!! j) = k + 1 ->
  set tb k v = Ok (mk (cap tb) (<[j := entry_of k v]> (slots tb)) (size tb)) /\
  ordered (cap tb) (<[j := entry_of k v]> (slots tb)) /\
  unique_keys (cap tb) (<[j := entry_of k v]> (slots tb)).
Proof.
  intros [Hc Hlen] Hord Hu Hk Hv Hj Hnz Hkey.
  pose proof (stored_findable _ _ j Hc Hj Hord Hu Hnz) as Hhit.
  rewrite Hkey in Hhit. pose proof Hhit as (Hn & _).
  pose proof (set_fuel_ge (cap tb)) as Hfuel.
  pose proof (set_loop_hit (cap tb) (slots tb) (k + 1) (entry_of k v) _ _
                (set_fuel (cap tb)) (size tb) 0%nat Hc Hhit ltac:(lia) ltac:(lia)) as Hs.
  rewrite fwd_0 in Hs by (by apply home_lt).
  assert (Hpos : fwd (cap tb) (_home (cap tb) (k + 1)) (dib_at (cap tb) j (slots tb !!! j)) = j).
  { rewrite <- Hkey. by apply fwd_dib_at. }
  rewrite Hpos in Hs.
  assert (Hek : key_of (entry_of k v) = key_of (slots tb !!! j)).
  { rewrite Hkey. by apply entry_key. }
  assert (Hdib : dib_at (cap tb) j (entry_of k v) = dib_at (cap tb) j (slots tb !!! j)).
  { unfold dib_at. by rewrite Hek. }
  split_and!.
  - unfold set, set_run. rewrite (proj2 (range_checks k) Hk), (proj2 (value_checks v) Hv).
    unfold entry_of in Hs. rewrite Hs. done.
  - apply ordered_insert; try done.
    + by apply entry_nonzero.
    + rewrite Hdib, Hek. by apply Hord.
    + intros _. by rewrite Hdib.
  - apply unique_insert; try done.
    intros j' Hj' Hne Hnz' Heq. apply Hne. apply Hu; try done. by rewrite Heq.
Qed.

(** [set] of a key the table does not hold, with a free slot. *)
Lemma set_insert (tb : t) (k v : Z) :
  wf tb -> ordered (cap tb) (slots tb) -> unique_keys (cap tb) (slots tb) ->
  key_in_range k -> value_in_range v -> has_free_slot tb ->
  (forall j : nat, (j < cap tb)%nat -> slots tb !!! j <> 0 ->
     key_of (slots tb !!! j) <> k + 1) ->
  exists sl',
    set tb k v = Ok (mk (cap tb) sl' (S (size tb))) /\
    length sl' = cap tb /\ ordered (cap tb) sl' /\ unique_keys (cap tb) sl' /\
    forall e' : Z, e' <> 0 -> (e' ∈ sl' <-> e' ∈ slots tb \/ e' = entry_of k v).
Proof.
  intros [Hc Hlen] Hord Hu Hk Hv (j & Hj & Hfree) Habs.
  pose proof (home_lt (cap tb) (k + 1) Hc) as Hh.
  pose proof (set_fuel_ge (cap tb)) as Hfuel.
  destruct (fwd_dist (cap tb) (_home (cap tb) (k + 1)) j Hh Hj) as [Hz Hzlt].
  pose proof (entry_key k v Hk) as Hek.
  destruct (set_loop_inserts (cap tb) (_home (cap tb) (k + 1))
              (_dist (cap tb) j (_home (cap tb) (k + 1))) (k + 1)
              (set_fuel (cap tb)) (slots tb) (size tb) (entry_of k v) 0%nat 0%nat)
    as (sl' & Hr & Hl' & Ho' & Hu' & Hmem); try done; try lia.
  - by rewrite Hz.
  - by apply entry_nonzero.
  - intros j' Hj' Hnz. unfold entry_of. rewrite Hek. by apply Habs.
  - unfold entry_of. by rewrite Hek.
  - intros t Ht Hnz. apply Habs; [|done]. apply fwd_lt; lia.
  - exists sl'. split_and!; try done.
    rewrite fwd_0 in Hr by done.
    unfold set, set_run. rewrite (proj2 (range_checks k) Hk), (proj2 (value_checks v) Hv).
    unfold entry_of in Hr. rewrite Hr. done.
Qed.

Lemma set_occupied (tb tb' : t) (key value : Z) :
  wf tb -> set tb key value = Ok tb' ->
  (occupied (slots tb') + TT.size tb = occupied (slots tb) + TT.size tb')%nat.
Proof.
  intros [Hc Hlen] Hs.
  pose proof (set_in_range _ _ _ _ Hs) as [Hk Hv].
  revert Hs. unfold set, set_run.
  rewrite (proj2 (range_checks key) Hk), (proj2 (value_checks value) Hv).
  destruct (set_loop _ _ _ _ _ _ _ _) as [[[sl sz] ex]|] eqn:Hr; [|done].
  simpl. intros [= <-]. simpl.
  eapply set_loop_occupied; [exact Hlen|by apply home_lt|by apply entry_nonzero|exact Hr].
Qed.

Lemma entry_of_key (k v : Z) : key_in_range k -> key_of (entry_of k v) = k + 1.
Proof. apply entry_key. Qed.

Lemma represents_new (capacity : Z) (tb : t) :
  new capacity = Ok tb -> represents tb ∅.
Proof.
  intros Hnew. pose proof (new_wf capacity tb Hnew) as [Hwf H0].
  assert (Hz : forall j : nat, (j < cap tb)%nat -> slots tb !!! j = 0).
  { intros j Hj. apply (Forall_lookup_1 _ _ j _ H0).
    apply list_lookup_lookup_total_lt. destruct Hwf. lia. }
  assert (Hocc : occupied (slots tb) = 0%nat).
  { unfold occupied. clear -H0. induction (slots tb) as [|e sl IH]; [done|].
    apply Forall_cons in H0 as [-> H0]. rewrite filter_cons.
    destruct (decide (0 <> 0)); [done|by apply IH]. }
  split_and!; try done.
  - intros j Hj Hnz. exfalso. apply Hnz. by apply Hz.
  - intros i j Hi Hj Hnz. exfalso. apply Hnz. by apply Hz.
  - revert Hnew. unfold new. destruct (capacity <=? 0); [done|]. by intros [= <-].
  - intros e He. split.
    + intros Hin. exfalso. rewrite Forall_forall in H0. by apply He, H0.
    + intros (k & v & Hm & _). by rewrite lookup_empty in Hm.
Qed.

Lemma represents_slot (tb : t) (m : gmap Z Z) (k : Z) (j : nat) :
  represents tb m -> (j < cap tb)%nat -> slots tb !!! j <> 0 ->
  key_of (slots tb !!! j) = k + 1 ->
  exists v, m !! k = Some v /\ slots tb !!! j = entry_of k v.
Proof.
  intros (Hwf & _ & _ & _ & _ & Hrange & Hmem) Hj Hnz Hkey.
  assert (Hin : slots tb !!! j ∈ slots tb).
  { apply list_elem_of_lookup_total_2. destruct Hwf. lia. }
  apply Hmem in Hin as (k' & v & Hm & He); [|done].
  destruct (Hrange k' v Hm) as [Hk' _].
  rewrite He, entry_of_key in Hkey by done.
  assert (k' = k) as -> by lia. eauto.
Qed.

Lemma represents_stored (tb : t) (m : gmap Z Z) (k v : Z) :
  represents tb m -> m !! k = Some v ->
  exists j : nat, (j < cap tb)%nat /\ slots tb !!! j = entry_of k v /\
    slots tb !!! j <> 0 /\ key_of (slots tb !!! j) = k + 1.
Proof.
  intros (Hwf & _ & _ & _ & _ & Hrange & Hmem) Hm.
  destruct (Hrange k v Hm) as [Hk Hv].
  pose proof (entry_nonzero k v Hk) as Hnz. fold (entry_of k v) in Hnz.
  assert (Hin : entry_of k v ∈ slots tb) by (apply Hmem; eauto).
  apply list_elem_of_lookup in Hin as [j Hj].
  pose proof (lookup_lt_Some _ _ _ Hj) as Hlt.
  apply list_lookup_total_correct in Hj.
  exists j. rewrite Hj. destruct Hwf as [_ Hlen].
  split_and!; [lia|done|done|by apply entry_of_key].
Qed.

(** On a table that holds a map, [get] is the map's lookup. *)
Lemma represents_get (tb : t) (m : gmap Z Z) (k : Z) :
  represents tb m -> key_in_range k -> get tb k = Ok (m !! k).
Proof.
  intros Hrep Hk. pose proof Hrep as (Hwf & Hord & Hu & _).
  destruct (m !! k) as [v|] eqn:Hm.
  - destruct (represents_stored tb m k v Hrep Hm) as (j & Hj & He & Hnz & Hkey).
    rewrite (get_stored tb k j) by done.
    rewrite He. unfold entry_of. by rewrite entry_value.
  - apply get_missing; [done|done|]. intros j Hj Hnz Hkey.
    destruct (represents_slot tb m k j Hrep Hj Hnz Hkey) as (v & Hm' & _).
    congruence.
Qed.

(** [set] on a table that holds a map with room for the key is the
    map's insert. *)
Lemma represents_set (tb : t) (m : gmap Z Z) (k v : Z) :
  represents tb m -> key_in_range k -> value_in_range v ->
  (base.size (<[k := v]> m) <= cap tb)%nat ->
  exists tb', set tb k v = Ok tb' /\ cap tb' = cap tb /\
    represents tb' (<[k := v]> m).
Proof.
  intros Hrep Hk Hv Hroom.
  pose proof Hrep as (Hwf & Hord & Hu & Hsize & Hocc & Hrange & Hmem).
  pose proof Hwf as [Hc Hlen].
  assert (Hrange' : forall k' v', <[k := v]> m !! k' = Some v' ->
            key_in_range k' /\ value_in_range v').
  { intros k' v' Hm'. apply lookup_insert_Some in Hm' as [[<- <-]|[_ Hm']]; [done|].
    by apply (Hrange k' v'). }
  pose proof (entry_nonzero k v Hk) as Hnew. fold (entry_of k v) in Hnew.
  destruct (m !! k) as [v0|] eqn:Hm.
  - destruct (represents_stored tb m k v0 Hrep Hm) as (j & Hj & He & Hnz & Hkey).
    destruct (set_update tb k v j) as (Hs & Ho' & Hu'); try done.
    eexists. split; [exact Hs|]. split; [done|].
    pose proof (set_wf _ _ _ _ Hwf Hs) as [Hwf' _].
    pose proof (set_occupied _ _ _ _ Hwf Hs) as Hcount. simpl in Hcount.
    split_and!; simpl; try done.
    + rewrite map_size_insert_Some; [done|by eexists].
    + rewrite map_size_insert_Some; [lia|by eexists].
    + intros e' Hne. split.
      * intros Hin. apply list_elem_of_lookup in Hin as [j' Hj'].
        apply list_lookup_insert_Some in Hj' as [(_ & <- & _)|(Hjj & Hj')].
        { exists k, v. by rewrite lookup_insert_eq. }
        pose proof (lookup_lt_Some _ _ _ Hj') as Hlt.
        apply list_lookup_total_correct in Hj'.
        assert (Hin : e' ∈ slots tb).
        { rewrite <- Hj'. apply list_elem_of_lookup_total_2. lia. }
        apply Hmem in Hin as (k' & v' & Hm' & He'); [|done].
        exists k', v'. split; [|done].
        rewrite lookup_insert_ne; [done|]. intros <-.
        apply Hjj. apply Hu; try done; try lia; try (by rewrite Hj').
        rewrite Hkey, Hj', He'. symmetry. by apply entry_of_key.
      * intros (k' & v' & Hm' & ->).
        apply lookup_insert_Some in Hm' as [[<- <-]|[Hkk Hm']].
        { apply (list_elem_of_lookup_2 _ j). apply list_lookup_insert_eq. lia. }
        destruct (represents_stored tb m k' v' Hrep Hm') as (j' & Hj' & He' & Hnz' & Hkey').
        apply (list_elem_of_lookup_2 _ j'). rewrite list_lookup_insert_ne.
        { rewrite <- He'. apply list_lookup_lookup_total_lt. lia. }
        intros ->. rewrite Hkey in Hkey'. apply Hkk. lia.
  - rewrite map_size_insert_None in Hroom by done.
    destruct (free_slot_exists (slots tb)) as (j & Hj & Hfree); [lia|].
    destruct (set_insert tb k v) as (sl' & Hs & Hl' & Ho' & Hu' & Hmem');
      try done.
    { exists j. split; [lia|done]. }
    { intros j' Hj' Hnz Hkey.
      destruct (represents_slot tb m k j' Hrep Hj' Hnz Hkey) as (v' & Hm' & _).
      congruence. }
    eexists. split; [exact Hs|]. split; [done|].
    pose proof (set_occupied _ _ _ _ Hwf Hs) as Hcount. simpl in Hcount.
    split_and!; simpl; try done.
    + rewrite map_size_insert_None by done. lia.
    + rewrite map_size_insert_None by done. lia.
    + intros e' Hne. rewrite Hmem' by done. split.
      * intros [Hin | ->]; [|exists k, v; by rewrite lookup_insert_eq].
        apply Hmem in Hin as (k' & v' & Hm' & He'); [|done].
        exists k', v'. split; [|done].
        rewrite lookup_insert_ne; [done|]. intros <-. congruence.
      * intros (k' & v' & Hm' & ->).
        apply lookup_insert_Some in Hm' as [[<- <-]|[Hkk Hm']]; [by right|].
        left. apply Hmem; eauto.
Qed.

Lemma model_step_size (ops : list (Z * Z)) :
  forall m : gmap Z Z, (base.size m <= base.size (foldl model_step m ops))%nat.
Proof.
  induction ops as [|[k v] ops IH]; intros m; simpl; [done|].
  etrans; [|apply IH]. unfold model_step. simpl.
  rewrite map_size_insert. destruct (m !! k); unfold id; lia.
Qed.

Lemma represents_run (ops : list (Z * Z)) :
  forall (tb : t) (m : gmap Z Z),
  represents tb m -> Forall op_in_range ops ->
  (base.size (foldl model_step m ops) <= cap tb)%nat ->
  represents (run_sets tb ops) (foldl model_step m ops).
Proof.
  induction ops as [|[k v] ops IH]; intros tb m Hrep Hops Hroom; simpl; [done|].
  apply Forall_cons in Hops as [[Hk Hv] Hops]. simpl in Hk, Hv.
  destruct (represents_set tb m k v Hrep Hk Hv) as (tb' & Hs & Hcap & Hrep').
  { etrans; [apply (model_step_size ops)|exact Hroom]. }
  rewrite Hs. apply IH; [done|done|by rewrite Hcap].
Qed.

(** X1.  A table made by [new] and filled by any run of in-range [set]
    calls whose distinct keys fit the capacity (up to a full table)
    answers [get] as the finite map of the run does: the last value set
    for the key, [None] for a key never set. *)
Theorem table_refines_map (capacity : Z) (tb : t) (ops : list (Z * Z)) (k : Z) :
  new capacity = Ok tb -> Forall op_in_range ops ->
  (base.size (model ops) <= cap tb)%nat -> key_in_range k ->
  get (run_sets tb ops) k = Ok (model ops !! k).
Proof.
  intros Hnew Hops Hroom Hk. apply represents_get; [|done].
  apply represents_run; [by apply (represents_new capacity)|done|done].
Qed.

(** X2.  Under the same conditions [size] is the number of distinct keys
    set so far, and so is the number of occupied slots: an update of a
    present key adds nothing. *)
Theorem size_counts_keys (capacity : Z) (tb : t) (ops : list (Z * Z)) :
  new capacity = Ok tb -> Forall op_in_range ops ->
  (base.size (model ops) <= cap tb)%nat ->
  TT.size (run_sets tb ops) = base.size (model ops) /\
  occupied (slots (run_sets tb ops)) = base.size (model ops).
Proof.
  intros Hnew Hops Hroom.
  destruct (represents_run ops tb ∅ (represents_new capacity tb Hnew) Hops Hroom)
    as (_ & _ & _ & Hs & Ho & _). done.
Qed.

Lemma table_refines_map_witness :
  get (run_sets (mk 4 [0; 0; 0; 0] 0) [(1, 0); (2, 17); (1, 34); (9, 1)]) 1
  = Ok (model [(1, 0); (2, 17); (1, 34); (9, 1)] !! 1).
Proof.
  apply (table_refines_map 4).
  - reflexivity.
  - repeat constructor; simpl; try lia; by apply key_in_range_dec.
  - vm_compute. lia.
  - by apply key_in_range_dec.
Defined.

Lemma size_counts_keys_witness :
  TT.size (run_sets (mk 4 [0; 0; 0; 0] 0) [(1, 0); (2, 17); (1, 34); (9, 1)])
  = base.size (model [(1, 0); (2, 17); (1, 34); (9, 1)]) /\
  occupied (slots (run_sets (mk 4 [0; 0; 0; 0] 0) [(1, 0); (2, 17); (1, 34); (9, 1)]))
  = base.size (model [(1, 0); (2, 17); (1, 34); (9, 1)]).
Proof.
  apply (size_counts_keys 4).
  - reflexivity.
  - repeat constructor; simpl; try lia; by apply key_in_range_dec.
  - vm_compute. lia.
Defined.


Lemma land_M64_range (x : Z) : 0 <= Z.land x M64 < 2 ^ 64.
Proof.
  change M64 with (Z.ones 64). rewrite Z.land_ones by lia.
  apply Z.mod_pos_bound. lia.
Qed.

Lemma lxor_shiftr_range (x n : Z) :
  0 <= n -> 0 <= x < 2 ^ 64 -> 0 <= Z.lxor x (Z.shiftr x n) < 2 ^ 64.
Proof.
  intros Hn Hx.
  assert (Hs : 0 <= Z.shiftr x n) by (apply Z.shiftr_nonneg; lia).
  assert (Hnn : 0 <= Z.lxor x (Z.shiftr x n)) by (apply Z.lxor_nonneg; lia).
  split; [done|].
  destruct (Z.eq_dec (Z.lxor x (Z.shiftr x n)) 0) as [->|Hne]; [lia|].
  apply Z.log2_lt_pow2; [lia|].
  eapply Z.le_lt_trans; [apply Z.log2_lxor; lia|].
  assert (Hlx : Z.log2 x < 64).
  { destruct (Z.eq_dec x 0) as [->|]; [simpl; lia|]. apply Z.log2_lt_pow2; lia. }
  assert (Hls : Z.log2 (Z.shiftr x n) <= Z.log2 x).
  { apply Z.log2_le_mono. rewrite Z.shiftr_div_pow2 by lia.
    apply Z.div_le_upper_bound; [apply Z.pow_pos_nonneg; lia|].
    assert (1 <= 2 ^ n) by (apply (Z.pow_le_mono_r 2 0 n); lia). nia. }
  lia.
Qed.

(** X5.  [_hash64] returns a 64-bit word, whatever integer it is given,
    and looks only at the low 64 bits of its argument; so [_home] is a
    slot index of any table of positive capacity. *)
Theorem hash64_range (x : Z) :
  0 <= _hash64 x < 2 ^ 64 /\
  _hash64 (x mod 2 ^ 64) = _hash64 x /\
  forall c : nat, (0 < c)%nat -> (_home c x < c)%nat.
Proof.
  split; [|split].
  - unfold _hash64. apply lxor_shiftr_range; [lia|]. apply land_M64_range.
  - unfold _hash64. cbv zeta.
    assert (H : Z.land (x mod 2 ^ 64) M64 = Z.land x M64).
    { change M64 with (Z.ones 64). rewrite !Z.land_ones by lia.
      apply Z.mod_mod. lia. }
    by rewrite H.
  - intros c Hc. by apply home_lt.
Qed.

(** X6.  [_dist] is the distance from [home] to [idx] modulo [cap], and
    walking it forward from [home] ends at [idx]. *)
Theorem dist_modular (c idx home : nat) :
  (idx < c)%nat -> (home < c)%nat ->
  _dist c idx home = ((idx + c - home) mod c)%nat /\
  (_dist c idx home < c)%nat /\
  ((home + _dist c idx home) mod c = idx)%nat.
Proof.
  intros Hi Hh. unfold _dist. destruct (Nat.leb_spec home idx).
  - split_and!; [|lia|].
    + replace (idx + c - home)%nat with (idx - home + 1 * c)%nat by lia.
      rewrite Nat.Div0.mod_add. by rewrite Nat.mod_small by lia.
    + replace (home + (idx - home))%nat with idx by lia. apply Nat.mod_small. lia.
  - split_and!; [|lia|].
    + by rewrite Nat.mod_small by lia.
    + replace (home + (idx + c - home))%nat with (idx + 1 * c)%nat by lia.
      rewrite Nat.Div0.mod_add. apply Nat.mod_small. lia.
Qed.

Lemma dist_modular_witness :
  _dist 5 1 3 = ((1 + 5 - 3) mod 5)%nat /\ (_dist 5 1 3 < 5)%nat /\
  ((3 + _dist 5 1 3) mod 5 = 1)%nat.
Proof. apply dist_modular; lia. Defined.

Lemma set_raises_value_error (tb : t) (key value : Z) (e : exn) :
  set tb key value = Raise e -> e = ValueError.
Proof.
  unfold set, set_run. destruct (_ || _); [by intros [= <-]|].
  destruct (_ || _); [by intros [= <-]|].
  destruct (set_loop _ _ _ _ _ _ _ _) as [[[sl sz] ex]|]; done.
Qed.

(** X4.  [get] raises exactly on a key outside 49 bits, [set] on a well-formed
    table exactly on a key outside 49 bits or a value outside 14 bits;
    the exception is [ValueError] and on anything else both return. *)
Theorem range_errors (tb : t) (key value : Z) :
  wf tb ->
  (key_in_range key -> exists r, get tb key = Ok r) /\
  (~ key_in_range key -> get tb key = Raise ValueError) /\
  (key_in_range key /\ value_in_range value ->
     exists tb', set tb key value = Ok tb') /\
  (~ (key_in_range key /\ value_in_range value) ->
     set tb key value = Raise ValueError).
Proof.
  intros Hwf. split_and!.
  - apply get_ok.
  - intros Hk. unfold get.
    destruct ((key <? 0) || (key >? KEY_MAX)) eqn:Hc; [done|].
    exfalso. by apply Hk, range_checks.
  - intros [Hk Hv].
    destruct (set_run_ok tb key value Hwf Hk Hv) as (sl & sz & ex & _ & _ & Hs). eauto.
  - intros Hn. unfold set, set_run.
    destruct ((key <? 0) || (key >? KEY_MAX)) eqn:Hc; [done|].
    destruct ((value <? 0) || (value >=? Z.shiftl 1 14)) eqn:Hc'; [done|].
    exfalso. apply Hn. split; [by apply range_checks|by apply value_checks].
Qed.

Lemma range_errors_witness :
  (key_in_range (2 ^ 49) -> exists r, get (mk 3 [0; 0; 0] 0) (2 ^ 49) = Ok r) /\
  (~ key_in_range (2 ^ 49) -> get (mk 3 [0; 0; 0] 0) (2 ^ 49) = Raise ValueError) /\
  (key_in_range (2 ^ 49) /\ value_in_range 5 ->
     exists tb', set (mk 3 [0; 0; 0] 0) (2 ^ 49) 5 = Ok tb') /\
  (~ (key_in_range (2 ^ 49) /\ value_in_range 5) ->
     set (mk 3 [0; 0; 0] 0) (2 ^ 49) 5 = Raise ValueError).
Proof. apply range_errors. split; simpl; [lia|reflexivity]. Defined.

Lemma run_sets_cap (ops : list (Z * Z)) :
  forall tb, wf tb -> cap (run_sets tb ops) = cap tb.
Proof.
  induction ops as [|[k v] ops IH]; intros tb Hwf; simpl; [done|].
  destruct (set tb k v) as [tb'| |] eqn:Hs; auto.
  destruct (set_wf tb tb' k v Hwf Hs) as [Hwf' Hcap]. rewrite IH by done. done.
Qed.

Lemma run_sets_occupied (ops : list (Z * Z)) :
  forall tb, wf tb -> TT.size tb = occupied (slots tb) ->
  TT.size (run_sets tb ops) = occupied (slots (run_sets tb ops)).
Proof.
  induction ops as [|[k v] ops IH]; intros tb Hwf Hsz; simpl; [done|].
  destruct (set tb k v) as [tb'| |] eqn:Hs; auto.
  apply IH; [by apply (set_wf tb tb' k v)|].
  pose proof (set_occupied tb tb' k v Hwf Hs). lia.
Qed.

(** X3.  After any run of [set] calls on a new table, overflowing or not,
    [size] is the number of occupied slots, at most the capacity. *)
Theorem size_is_occupied (capacity : Z) (tb : t) (ops : list (Z * Z)) :
  new capacity = Ok tb ->
  TT.size (run_sets tb ops) = occupied (slots (run_sets tb ops)) /\
  (TT.size (run_sets tb ops) <= cap tb)%nat.
Proof.
  intros Hnew. pose proof (represents_new capacity tb Hnew) as (Hwf & _ & _ & Hs & Ho & _).
  assert (Heq : TT.size (run_sets tb ops) = occupied (slots (run_sets tb ops))).
  { apply run_sets_occupied; [done|]. by rewrite Hs, Ho. }
  split; [done|]. rewrite Heq.
  pose proof (run_sets_wf ops tb Hwf) as [_ Hlen].
  pose proof (occupied_le (slots (run_sets tb ops))).
  rewrite run_sets_cap in Hlen by done. lia.
Qed.

Lemma size_is_occupied_witness :
  TT.size (run_sets (mk 2 [0; 0] 0) [(1, 0); (2, 17); (3, 34); (2 ^ 49, 0)])
  = occupied (slots (run_sets (mk 2 [0; 0] 0) [(1, 0); (2, 17); (3, 34); (2 ^ 49, 0)])) /\
  Nat.le (TT.size (run_sets (mk 2 [0; 0] 0) [(1, 0); (2, 17); (3, 34); (2 ^ 49, 0)]))
    (cap (mk 2 [0; 0] 0)).
Proof. apply (size_is_occupied 2). reflexivity. Defined.

End TTMapFacts.

(** ** More facts about the codec *)

Module BoardFacts.
Import TT TTSpec TTFacts CodecSpec CodecFacts BoardSpec.

Lemma list7 {A : Type} `{Inhabited A} (l : list A) :
  length l = 7%nat ->
  l = [l !!! 0%nat; l !!! 1%nat; l !!! 2%nat; l !!! 3%nat; l !!! 4%nat;
       l !!! 5%nat; l !!! 6%nat].
Proof.
  intros Hl. do 7 (destruct l as [|? l]; [done|]). by destruct l.
Qed.

Lemma cells_of_join (bd : board_t) :
  rect bd ->
  list_ascii_of_string (join_rows bd 6)
  = flat_map (fun r => map (fun c => cell bd r c) (seq 0 7)) (seq 0 6).
Proof.
  intros [Hl Hrows]. unfold join_rows.
  rewrite list_ascii_of_string_of_list_ascii.
  cbn [seq map flat_map concat]. unfold cell.
  rewrite (list7 (bd !!! 0%nat)) at 1 by (apply Hrows; lia).
  rewrite (list7 (bd !!! 1%nat)) at 1 by (apply Hrows; lia).
  rewrite (list7 (bd !!! 2%nat)) at 1 by (apply Hrows; lia).
  rewrite (list7 (bd !!! 3%nat)) at 1 by (apply Hrows; lia).
  rewrite (list7 (bd !!! 4%nat)) at 1 by (apply Hrows; lia).
  rewrite (list7 (bd !!! 5%nat)) at 1 by (apply Hrows; lia).
  reflexivity.
Qed.

Lemma length_list_ascii (s : string) :
  length (list_ascii_of_string s) = String.length s.
Proof. induction s as [|a s IH]; simpl; [done|by rewrite IH]. Qed.

Lemma join_rows_length (bd : board_t) :
  rect bd -> String.length (join_rows bd 6) = 42%nat.
Proof.
  intros Hr. rewrite <- length_list_ascii, cells_of_join by done. reflexivity.
Qed.

Lemma char_at_join (bd : board_t) (row col : nat) :
  rect bd -> (row < 6)%nat -> (col < 7)%nat ->
  char_at (join_rows bd 6) row col = cell bd row col.
Proof.
  intros Hr Hrow Hcol. unfold char_at. rewrite cells_of_join by done.
  do 6 (destruct row as [|row];
        [do 7 (destruct col as [|col]; [reflexivity|]); lia|]). lia.
Qed.

Lemma join_rows_inj (b1 b2 : board_t) :
  rect b1 -> rect b2 -> join_rows b1 6 = join_rows b2 6 -> b1 = b2.
Proof.
  intros H1 H2 Heq. apply rect_ext; [done|done|].
  intros c r Hc Hr.
  rewrite <- (char_at_join b1), <- (char_at_join b2) by (done || lia).
  by rewrite Heq.
Qed.
Lemma loop42_to_49 (s : string) :
  forall (ply : nat) (b : board_t) (hs : list nat) (ps : list Z) b',
  board42_loop 7 6 s ply b hs = Ok b' ->
  exists hs' ps', board49_loop 7 6 s ply hs ps = Ok (hs', ps').
Proof.
  induction s as [|ch s IH]; intros ply b hs ps b';
    cbn [board42_loop board49_loop]; [eauto|].
  destruct (parse_move 7 ch) as [col| |]; [|done|done]. cbn [bind].
  destruct (6 <=? hs !!! col)%nat; [done|]. apply IH.
Qed.

Lemma parse_move_raises (w : nat) (ch : ascii) (e : exn) :
  parse_move w ch = Raise e -> e = ValueError.
Proof.
  unfold parse_move. destruct (negb _); [by intros [= <-]|].
  destruct (negb _); [by intros [= <-]|done].
Qed.

Lemma loop49_raises (s : string) :
  forall ply hs ps e, board49_loop 7 6 s ply hs ps = Raise e -> e = ValueError.
Proof.
  induction s as [|ch s IH]; intros ply hs ps e; cbn [board49_loop]; [done|].
  destruct (parse_move 7 ch) as [col|e'|] eqn:Hp; cbn [bind]; [| |done].
  - destruct (6 <=? hs !!! col)%nat; [by intros [= <-]|]. apply IH.
  - intros [= <-]. by apply parse_move_raises in Hp.
Qed.

Lemma loop42_raises (s : string) :
  forall ply b hs e, board42_loop 7 6 s ply b hs = Raise e -> e = ValueError.
Proof.
  induction s as [|ch s IH]; intros ply b hs e; cbn [board42_loop]; [done|].
  destruct (parse_move 7 ch) as [col|e'|] eqn:Hp; cbn [bind]; [| |done].
  - destruct (6 <=? hs !!! col)%nat; [by intros [= <-]|]. apply IH.
  - intros [= <-]. by apply parse_move_raises in Hp.
Qed.

Lemma loop42_finishes (s : string) :
  forall ply b hs, board42_loop 7 6 s ply b hs <> OutOfFuel.
Proof.
  induction s as [|ch s IH]; intros ply b hs; cbn [board42_loop]; [done|].
  destruct (parse_move 7 ch) as [col|e'|] eqn:Hp; cbn [bind]; [|done|].
  - destruct (6 <=? hs !!! col)%nat; [done|]. apply IH.
  - unfold parse_move in Hp. destruct (negb _); [done|]. by destruct (negb _).
Qed.

Lemma board42_legal (s : string) (str : string) :
  moveseq_to_board_42 s = Ok str -> legal s.
Proof.
  unfold moveseq_to_board_42, moveseq_to_board_42_gen.
  destruct (board42_loop 7 6 s 0 _ _) as [bd| |] eqn:H42; [|done|done]. intros _.
  destruct (loop42_to_49 s 0 _ _ (replicate 7 0) _ H42) as (hs & ps & H49).
  apply (encode_legal s (pack_columns hs ps (seq 0 7))).
  unfold moveseq_to_board49, moveseq_to_board49_gen. cbn [Nat.eqb negb orb bind].
  by rewrite H49.
Qed.

(** X7.  The two move loops accept exactly the legal sequences and raise
    [ValueError] on every other one. *)
Theorem codec_accepts_legal (s : string) :
  (legal s ->
     (exists b, moveseq_to_board49 s = Ok b) /\
     (exists str, moveseq_to_board_42 s = Ok str)) /\
  (~ legal s ->
     moveseq_to_board49 s = Raise ValueError /\
     moveseq_to_board_42 s = Raise ValueError).
Proof.
  split.
  - intros Hl. destruct (codec_agree s Hl) as (hs & ps & bd & _ & H49 & H42 & _).
    split; [eauto|]. unfold moveseq_to_board_42, moveseq_to_board_42_gen.
    rewrite H42. simpl. eauto.
  - intros Hn. split.
    + destruct (moveseq_to_board49 s) as [b|e|] eqn:He.
      * exfalso. by apply Hn, (encode_legal s b).
      * f_equal. revert He. unfold moveseq_to_board49, moveseq_to_board49_gen.
        cbn [Nat.eqb negb orb bind].
        destruct (board49_loop 7 6 s 0 _ _) as [[hs ps]|e'|] eqn:H49; [done| |done].
        intros [= <-]. by apply loop49_raises in H49.
      * exfalso. revert He. unfold moveseq_to_board49, moveseq_to_board49_gen.
        cbn [Nat.eqb negb orb bind].
        pose proof (SearchFacts.board49_loop_finishes s 0 (replicate 7 0%nat) (replicate 7 0)) as Hf.
        destruct (board49_loop 7 6 s 0 _ _) as [[hs ps]| |]; done.
    + destruct (moveseq_to_board_42 s) as [str|e|] eqn:He.
      * exfalso. by apply Hn, (board42_legal s str).
      * f_equal. revert He. unfold moveseq_to_board_42, moveseq_to_board_42_gen.
        destruct (board42_loop 7 6 s 0 _ _) as [bd|e'|] eqn:H42; [done| |done].
        intros [= <-]. by apply loop42_raises in H42.
      * exfalso. revert He. unfold moveseq_to_board_42, moveseq_to_board_42_gen.
        pose proof (loop42_finishes s 0 (empty_board 7 6) (replicate 7 0%nat)) as Hf.
        destruct (board42_loop 7 6 s 0 _ _) as [bd| |]; done.
Qed.

Lemma decode_packed (hs : list nat) (ps : list Z) (bd : board_t) :
  cols_ok hs ps -> shows bd hs ps ->
  board49_to_board42 (pack_columns hs ps (seq 0 7)) = Ok (join_rows bd 6).
Proof.
  intros Hok Hsh.
  destruct (pack_columns_spec hs ps 7 Hok ltac:(lia)) as [Hb Hex].
  destruct (decode_columns_spec _ hs ps Hok Hex 7 0 (empty_board 7 6) ltac:(lia))
    as (bd' & Hdec & Hd').
  { destruct shows_empty as [Hr Hcells]. split; [done|].
    intros c r Hc Hr'. rewrite Hcells by done.
    do 7 (destruct c as [|c]; [done|]). lia. }
  assert (bd' = bd) as ->.
  { destruct Hd' as [Hr' Hc']. destruct Hsh as [Hr Hc].
    apply rect_ext; [done|done|]. intros c r Hlt Hrl.
    rewrite Hc', Hc by done. destruct (Nat.ltb_spec c 7); [done|lia]. }
  unfold board49_to_board42, board49_to_board42_gen.
  destruct (Z.ltb_spec (pack_columns hs ps (seq 0 7)) 0); [lia|].
  by rewrite Hdec.
Qed.

Lemma stone_of_dot (h : nat) (p : Z) (r : nat) :
  stone_of h p r <> "."%char <-> (r < h)%nat.
Proof.
  unfold stone_of. destruct (Nat.ltb_spec r h).
  - split; [done|]. intros _. by destruct (Z.testbit p (Z.of_nat r)).
  - split; [done|lia].
Qed.

Lemma stone_of_inj (h1 h2 : nat) (p1 p2 : Z) :
  (h1 <= 6)%nat -> (h2 <= 6)%nat ->
  0 <= p1 < 2 ^ Z.of_nat h1 -> 0 <= p2 < 2 ^ Z.of_nat h2 ->
  (forall r, (r < 6)%nat -> stone_of h1 p1 r = stone_of h2 p2 r) ->
  h1 = h2 /\ p1 = p2.
Proof.
  intros Hh1 Hh2 Hp1 Hp2 Heq.
  assert (Hh : h1 = h2).
  { destruct (lt_eq_lt_dec h1 h2) as [[Hlt|]|Hlt]; [|done|]; exfalso.
    - assert (Hd : stone_of h2 p2 h1 <> "."%char) by by apply stone_of_dot.
      rewrite <- Heq in Hd by lia. apply stone_of_dot in Hd. lia.
    - assert (Hd : stone_of h1 p1 h2 <> "."%char) by by apply stone_of_dot.
      rewrite Heq in Hd by lia. apply stone_of_dot in Hd. lia. }
  subst h2. split; [done|]. apply Z.bits_inj'. intros n Hn.
  destruct (Z.lt_ge_cases n (Z.of_nat h1)) as [Hlt|Hge].
  - specialize (Heq (Z.to_nat n) ltac:(lia)). unfold stone_of in Heq.
    destruct (Nat.ltb_spec (Z.to_nat n) h1); [|lia].
    rewrite Z2Nat.id in Heq by done.
    by destruct (Z.testbit p1 n), (Z.testbit p2 n).
  - by rewrite !(testbit_above _ (Z.of_nat h1)) by lia.
Qed.

Lemma pack_columns_ext (hs1 hs2 : list nat) (ps1 ps2 : list Z) :
  (forall c, (c < 7)%nat -> hs1 !!! c = hs2 !!! c /\ ps1 !!! c = ps2 !!! c) ->
  pack_columns hs1 ps1 (seq 0 7) = pack_columns hs2 ps2 (seq 0 7).
Proof.
  intros H. unfold pack_columns. cbn [seq fold_left].
  destruct (H 0%nat ltac:(lia)) as [-> ->]. destruct (H 1%nat ltac:(lia)) as [-> ->].
  destruct (H 2%nat ltac:(lia)) as [-> ->]. destruct (H 3%nat ltac:(lia)) as [-> ->].
  destruct (H 4%nat ltac:(lia)) as [-> ->]. destruct (H 5%nat ltac:(lia)) as [-> ->].
  destruct (H 6%nat ltac:(lia)) as [-> ->]. done.
Qed.

Lemma shows_inj (bd : board_t) (hs1 hs2 : list nat) (ps1 ps2 : list Z) :
  cols_ok hs1 ps1 -> cols_ok hs2 ps2 -> shows bd hs1 ps1 -> shows bd hs2 ps2 ->
  forall c, (c < 7)%nat -> hs1 !!! c = hs2 !!! c /\ ps1 !!! c = ps2 !!! c.
Proof.
  intros (_ & _ & H1) (_ & _ & H2) [_ Hc1] [_ Hc2] c Hc.
  destruct (H1 c Hc) as [Hh1 Hp1]. destruct (H2 c Hc) as [Hh2 Hp2].
  apply stone_of_inj; [done|done|done|done|].
  intros r Hr. by rewrite <- Hc1, <- Hc2.
Qed.

(** X8.  The board code identifies the position: two legal move
    sequences get the same code exactly when they lead to the same
    42-cell board. *)
Theorem code_is_position (s1 s2 : string) :
  legal s1 -> legal s2 ->
  (moveseq_to_board49 s1 = moveseq_to_board49 s2 <->
   moveseq_to_board_42 s1 = moveseq_to_board_42 s2).
Proof.
  intros Hl1 Hl2.
  destruct (codec_agree s1 Hl1) as (hs1 & ps1 & bd1 & Hok1 & H49a & H42a & Hsh1).
  destruct (codec_agree s2 Hl2) as (hs2 & ps2 & bd2 & Hok2 & H49b & H42b & Hsh2).
  unfold moveseq_to_board_42, moveseq_to_board_42_gen.
  rewrite H49a, H49b, H42a, H42b. cbn [bind]. split.
  - intros Heq.
    assert (Hp : pack_columns hs1 ps1 (seq 0 7) = pack_columns hs2 ps2 (seq 0 7))
      by congruence.
    pose proof (decode_packed hs1 ps1 bd1 Hok1 Hsh1) as Hd1.
    pose proof (decode_packed hs2 ps2 bd2 Hok2 Hsh2) as Hd2.
    rewrite Hp in Hd1. congruence.
  - intros [= Heq]. apply join_rows_inj in Heq; [|by destruct Hsh1|by destruct Hsh2].
    subst bd2. f_equal. apply pack_columns_ext. by apply (shows_inj bd1).
Qed.

Lemma code_is_position_witness :
  moveseq_to_board49 "3041" = moveseq_to_board49 "4130" <->
  moveseq_to_board_42 "3041" = moveseq_to_board_42 "4130".
Proof. apply code_is_position; reflexivity. Defined.

Lemma codec_counts (s : string) :
  legal s ->
  exists hs ps bd,
    cols_ok hs ps /\ shows bd hs ps /\
    moveseq_to_board49 s = Ok (pack_columns hs ps (seq 0 7)) /\
    moveseq_to_board_42 s = Ok (join_rows bd 6) /\
    forall c, (c < 7)%nat -> hs !!! c = count_col c s.
Proof.
  intros Hl. pose proof (legal_counts s Hl) as [Hd Hc].
  destruct (loop49_ok s 0 (replicate 7 0%nat) (replicate 7 0) Hd) as (hs & ps & H49);
    [done| |].
  { intros c Hlt. specialize (Hc c Hlt).
    replace (replicate 7 0%nat !!! c) with 0%nat; [lia|].
    do 7 (destruct c as [|c]; [done|]). lia. }
  destruct (loops_agree s 0 _ _ _ _ _ shows_empty cols_ok_empty H49)
    as (bd & H42 & Hsh & Hok).
  exists hs, ps, bd. split_and!; try done.
  - unfold moveseq_to_board49, moveseq_to_board49_gen. cbn [Nat.eqb negb orb bind].
    by rewrite H49.
  - unfold moveseq_to_board_42, moveseq_to_board_42_gen. by rewrite H42.
  - intros c Hlt. apply loop49_counts in H49 as (_ & _ & Hcnt); [|done].
    rewrite (Hcnt c Hlt).
    replace (replicate 7 0%nat !!! c) with 0%nat; [lia|].
    do 7 (destruct c as [|c]; [done|]). lia.
Qed.

Lemma count_filter (l : list ascii) :
  length (filter (fun c : ascii => c <> "."%char) l)
  = foldr (fun c n => (Nat.b2n (negb (Ascii.eqb c ".")) + n)%nat) 0%nat l.
Proof.
  induction l as [|a l IH]; [done|]. rewrite filter_cons. cbn [foldr].
  destruct (Ascii.eqb_spec a "."%char) as [->|Hne].
  - destruct (decide _) as [Hd|_]; [done|]. simpl. by rewrite IH.
  - destruct (decide _) as [_|Hd]; [|done]. simpl. by rewrite IH.
Qed.

Lemma shows_cell (bd : board_t) (hs : list nat) (ps : list Z) (r c : nat) :
  shows bd hs ps -> (r < 6)%nat -> (c < 7)%nat ->
  cell bd r c = stone_of (hs !!! c) (ps !!! c) (5 - r).
Proof.
  intros [_ Hcells] Hr Hc. rewrite <- Hcells by lia. f_equal. lia.
Qed.

Lemma stone_b2n (h : nat) (p : Z) (r : nat) :
  Nat.b2n (negb (Ascii.eqb (stone_of h p r) ".")) = Nat.b2n (r <? h)%nat.
Proof.
  unfold stone_of. destruct (r <? h)%nat; [|done].
  by destruct (Z.testbit p (Z.of_nat r)).
Qed.

Lemma column_sum (h : nat) :
  (h <= 6)%nat ->
  (Nat.b2n (5 <? h) + Nat.b2n (4 <? h) + Nat.b2n (3 <? h)
   + Nat.b2n (2 <? h) + Nat.b2n (1 <? h) + Nat.b2n (0 <? h))%nat = h.
Proof. intros Hh. do 7 (destruct h as [|h]; [reflexivity|]). lia. Qed.

Lemma count_stones_shows (bd : board_t) (hs : list nat) (ps : list Z) :
  cols_ok hs ps -> shows bd hs ps ->
  count_stones (join_rows bd 6)
  = (hs !!! 0%nat + hs !!! 1%nat + hs !!! 2%nat + hs !!! 3%nat
     + hs !!! 4%nat + hs !!! 5%nat + hs !!! 6%nat)%nat.
Proof.
  intros (_ & _ & Hcols) Hsh. unfold count_stones.
  rewrite cells_of_join by (by destruct Hsh). rewrite count_filter.
  cbn [seq flat_map map app foldr].
  rewrite !(shows_cell bd hs ps) by (done || lia).
  rewrite !stone_b2n. cbn [Nat.sub].
  pose proof (column_sum _ (proj1 (Hcols 0%nat ltac:(lia)))).
  pose proof (column_sum _ (proj1 (Hcols 1%nat ltac:(lia)))).
  pose proof (column_sum _ (proj1 (Hcols 2%nat ltac:(lia)))).
  pose proof (column_sum _ (proj1 (Hcols 3%nat ltac:(lia)))).
  pose proof (column_sum _ (proj1 (Hcols 4%nat ltac:(lia)))).
  pose proof (column_sum _ (proj1 (Hcols 5%nat ltac:(lia)))).
  pose proof (column_sum _ (proj1 (Hcols 6%nat ltac:(lia)))).
  lia.
Qed.

(** X9.  The board of a sequence the encoder accepts, decoded from its
    code, carries as many stones as the sequence has moves: the depth
    the shutdown histogram files a stored position under is its number of
    plies. *)
Theorem stones_are_plies (s : string) (b : Z) :
  moveseq_to_board49 s = Ok b ->
  exists board_str,
    board49_to_board42 b = Ok board_str /\
    count_stones board_str = String.length s.
Proof.
  intros He. pose proof (encode_legal s b He) as Hl.
  destruct (codec_counts s Hl) as (hs & ps & bd & Hok & Hsh & H49 & _ & Hcnt).
  assert (b = pack_columns hs ps (seq 0 7)) as -> by congruence.
  exists (join_rows bd 6). split; [by apply decode_packed|].
  rewrite (count_stones_shows bd hs ps Hok Hsh). rewrite !Hcnt by lia.
  symmetry. apply column_digits_length. by apply legal_counts.
Qed.

Lemma stones_are_plies_witness :
  exists board_str,
    board49_to_board42 220217344 = Ok board_str /\
    count_stones board_str = String.length "3333332".
Proof. apply stones_are_plies. reflexivity. Defined.

Lemma code_at_range (b : Z) (c : nat) : 0 <= code_at b c < 128.
Proof.
  unfold code_at. change (Z.shiftl 1 7 - 1) with (Z.ones 7).
  rewrite Z.land_ones by lia. apply Z.mod_pos_bound. lia.
Qed.

Lemma code_split (code : Z) :
  0 <= code <= 126 ->
  bit_length (code + 1) - 1 = Z.of_nat (height_of code) /\
  (height_of code <= 6)%nat /\
  0 <= pattern_of code < 2 ^ Z.of_nat (height_of code) /\
  code = 2 ^ Z.of_nat (height_of code) - 1 + pattern_of code.
Proof.
  intros Hc. unfold height_of, pattern_of, bit_length.
  destruct (Z.eqb_spec (code + 1) 0); [lia|]. rewrite Z.abs_eq by lia.
  replace (Z.log2 (code + 1) + 1 - 1) with (Z.log2 (code + 1)) by lia.
  pose proof (Z.log2_nonneg (code + 1)) as Hnn.
  destruct (Z.log2_spec (code + 1) ltac:(lia)) as [Hlo Hhi].
  assert (Hlt : Z.log2 (code + 1) < 7) by (apply Z.log2_lt_pow2; simpl; lia).
  rewrite Z2Nat.id by done. rewrite Z.shiftl_1_l.
  rewrite Z.pow_succ_r in Hhi by done. split_and!; lia.
Qed.

Lemma columns_of (b : Z) :
  (forall c, (c < 7)%nat -> code_at b c <= 126) ->
  exists hs ps, cols_ok hs ps /\
    forall c, (c < 7)%nat ->
      code_at b c = col_code hs ps c /\
      hs !!! c = height_of (code_at b c) /\ ps !!! c = pattern_of (code_at b c).
Proof.
  intros Hle.
  exists (map (fun c => height_of (code_at b c)) (seq 0 7)),
         (map (fun c => pattern_of (code_at b c)) (seq 0 7)).
  assert (Hat : forall c, (c < 7)%nat ->
            map (fun c => height_of (code_at b c)) (seq 0 7) !!! c
            = height_of (code_at b c) /\
            map (fun c => pattern_of (code_at b c)) (seq 0 7) !!! c
            = pattern_of (code_at b c)).
  { intros c Hc. do 7 (destruct c as [|c]; [done|]). lia. }
  split.
  - split; [done|]. split; [done|]. intros c Hc.
    destruct (Hat c Hc) as [-> ->].
    pose proof (code_at_range b c).
    destruct (code_split (code_at b c)) as (_ & ? & ? & _); [|done].
    specialize (Hle c Hc). lia.
  - intros c Hc. destruct (Hat c Hc) as [Hh Hp]. split; [|done].
    unfold col_code. rewrite Hh, Hp.
    pose proof (code_at_range b c).
    destruct (code_split (code_at b c)) as (_ & _ & _ & ?); [|done].
    specialize (Hle c Hc). lia.
Qed.

Lemma decode_accepts (b : Z) :
  decodable b ->
  exists hs ps bd,
    cols_ok hs ps /\ shows bd hs ps /\
    (forall c, (c < 7)%nat -> code_at b c = col_code hs ps c) /\
    board49_to_board42 b = Ok (join_rows bd 6).
Proof.
  intros [Hb Hle]. destruct (columns_of b Hle) as (hs & ps & Hok & Hat).
  assert (Hex : forall c, (c < 7)%nat ->
            Z.land (Z.shiftr b (7 * Z.of_nat c)) (Z.shiftl 1 7 - 1) = col_code hs ps c).
  { intros c Hc. by destruct (Hat c Hc). }
  destruct (decode_columns_spec b hs ps Hok Hex 7 0 (empty_board 7 6) ltac:(lia))
    as (bd & Hdec & Hrect & Hcells).
  { destruct shows_empty as [Hr Hcells]. split; [done|].
    intros c r Hc Hr'. rewrite Hcells by done.
    do 7 (destruct c as [|c]; [done|]). lia. }
  exists hs, ps, bd. split_and!; [done| |done|].
  - split; [done|]. intros c r Hc Hr. rewrite Hcells by done.
    destruct (Nat.ltb_spec c 7); [done|lia].
  - unfold board49_to_board42, board49_to_board42_gen.
    destruct (Z.ltb_spec b 0); [lia|]. by rewrite Hdec.
Qed.

Lemma decode_column_cases (b : Z) (board : board_t) (c : nat) :
  (exists board', decode_column b 6 board c = Ok board' /\ code_at b c <= 126) \/
  decode_column b 6 board c = Raise ValueError.
Proof.
  unfold decode_column. fold (code_at b c).
  change (Z.shiftl 1 (Z.of_nat 6 + 1) - 2) with 126.
  destruct (Z.gtb_spec (code_at b c) 126); [by right|].
  destruct (_ >? _); [by right|]. left. eauto.
Qed.

Lemma decode_columns_cases (b : Z) (cols : list nat) :
  forall board,
  (exists board', decode_columns b 6 cols board = Ok board' /\
     forall c, c ∈ cols -> code_at b c <= 126) \/
  decode_columns b 6 cols board = Raise ValueError.
Proof.
  induction cols as [|c cols IH]; intros board; cbn [decode_columns].
  - left. exists board. split; [done|]. intros c Hc. by apply elem_of_nil in Hc.
  - destruct (decode_column_cases b board c) as [(bd1 & -> & Hle)| ->]; [|by right].
    cbn [bind]. destruct (IH bd1) as [(bd2 & -> & Hall)| ->]; [|by right].
    left. exists bd2. split; [done|]. intros c' Hc'.
    apply elem_of_cons in Hc' as [->|Hc']; [done|by apply Hall].
Qed.

Lemma decode_cases (b : Z) :
  (exists str, board49_to_board42 b = Ok str /\ decodable b) \/
  board49_to_board42 b = Raise ValueError.
Proof.
  unfold board49_to_board42, board49_to_board42_gen.
  destruct (Z.ltb_spec b 0); [by right|].
  destruct (decode_columns_cases b (seq 0 7) (empty_board 7 6))
    as [(bd & -> & Hall)| ->]; [|by right].
  left. eexists. split; [done|]. split; [done|].
  intros c Hc. apply Hall. apply elem_of_seq. lia.
Qed.

(** X10.  The decoder returns exactly on the codes that are not negative
    and have no seven-bit column code above 126 (bits from 49 up are not
    looked at), and raises [ValueError] on every other integer: its
    second check, of the decoded height, never fires. *)
Theorem decoder_domain (b : Z) :
  (decodable b <-> exists str, board49_to_board42 b = Ok str) /\
  (~ decodable b <-> board49_to_board42 b = Raise ValueError).
Proof.
  split; split.
  - intros Hd. destruct (decode_accepts b Hd) as (hs & ps & bd & _ & _ & _ & H). eauto.
  - intros [str Hs]. destruct (decode_cases b) as [(str' & _ & Hd)|Hr]; [done|congruence].
  - intros Hn. destruct (decode_cases b) as [(str' & _ & Hd)|Hr]; done.
  - intros Hr Hd. destruct (decode_accepts b Hd) as (hs & ps & bd & _ & _ & _ & H).
    congruence.
Qed.

Lemma decode_ok_shows (b : Z) (str : string) :
  board49_to_board42 b = Ok str ->
  exists hs ps bd,
    cols_ok hs ps /\ shows bd hs ps /\
    (forall c, (c < 7)%nat -> code_at b c = col_code hs ps c) /\
    str = join_rows bd 6.
Proof.
  intros Hs. destruct (decode_cases b) as [(str' & _ & Hd)|Hr]; [|congruence].
  destruct (decode_accepts b Hd) as (hs & ps & bd & Hok & Hsh & Hat & H).
  exists hs, ps, bd. split_and!; try done. congruence.
Qed.

(** X11.  A board the decoder returns has 42 cells, each one of [.],
    [x], [o], and no stone floats: a cell under a stone holds a stone. *)
Theorem decoded_board_shape (b : Z) (str : string) :
  board49_to_board42 b = Ok str ->
  String.length str = 42%nat /\
  (forall row col, (row < 6)%nat -> (col < 7)%nat ->
     char_at str row col = "."%char \/ char_at str row col = "x"%char \/
     char_at str row col = "o"%char) /\
  (forall row col, (row < 5)%nat -> (col < 7)%nat ->
     char_at str row col <> "."%char -> char_at str (S row) col <> "."%char).
Proof.
  intros Hs. destruct (decode_ok_shows b str Hs) as (hs & ps & bd & Hok & Hsh & _ & ->).
  pose proof Hsh as [Hrect _]. split_and!.
  - by apply join_rows_length.
  - intros row col Hr Hc. rewrite char_at_join by done.
    rewrite (shows_cell bd hs ps) by done. unfold stone_of.
    destruct (_ <? _)%nat; [|by left].
    destruct (Z.testbit _ _); auto.
  - intros row col Hr Hc. rewrite !char_at_join by (done || lia).
    rewrite !(shows_cell bd hs ps) by (done || lia).
    rewrite !stone_of_dot. lia.
Qed.

Lemma decoded_board_shape_witness :
  String.length "...o......x......o......x......o.....xx..." = 42%nat /\
  (forall row col, (row < 6)%nat -> (col < 7)%nat ->
     char_at "...o......x......o......x......o.....xx..." row col = "."%char \/
     char_at "...o......x......o......x......o.....xx..." row col = "x"%char \/
     char_at "...o......x......o......x......o.....xx..." row col = "o"%char) /\
  (forall row col, (row < 5)%nat -> (col < 7)%nat ->
     char_at "...o......x......o......x......o.....xx..." row col <> "."%char ->
     char_at "...o......x......o......x......o.....xx..." (S row) col <> "."%char).
Proof. apply (decoded_board_shape 220217344). reflexivity. Defined.

Lemma code_at_testbit (b : Z) (c : nat) (j : Z) :
  0 <= j < 7 -> Z.testbit (code_at b c) j = Z.testbit b (j + 7 * Z.of_nat c).
Proof.
  intros Hj. unfold code_at. change (Z.shiftl 1 7 - 1) with (Z.ones 7).
  rewrite Z.land_spec, Z.shiftr_spec by lia.
  rewrite Z.ones_spec_low by lia. apply andb_true_r.
Qed.

Lemma codes_determine (b1 b2 : Z) :
  0 <= b1 < 2 ^ 49 -> 0 <= b2 < 2 ^ 49 ->
  (forall c, (c < 7)%nat -> code_at b1 c = code_at b2 c) -> b1 = b2.
Proof.
  intros H1 H2 Heq. apply Z.bits_inj'. intros n Hn.
  destruct (Z.lt_ge_cases n 49) as [Hlt|Hge].
  - pose proof (Z.div_mod n 7 ltac:(lia)) as Hdm.
    pose proof (Z.mod_pos_bound n 7 ltac:(lia)) as Hm.
    assert (Hq : 0 <= n / 7 < 7).
    { split; [apply Z.div_pos; lia|apply Z.div_lt_upper_bound; lia]. }
    replace n with (n mod 7 + 7 * Z.of_nat (Z.to_nat (n / 7))) by lia.
    rewrite <- !code_at_testbit by lia. rewrite Heq by lia. done.
  - by rewrite !(testbit_above _ 49) by lia.
Qed.

(** X12.  On 49-bit codes the decoder is one-to-one: two codes it turns
    into the same board are equal. *)
Theorem decoder_injective (b1 b2 : Z) (str : string) :
  0 <= b1 < 2 ^ 49 -> 0 <= b2 < 2 ^ 49 ->
  board49_to_board42 b1 = Ok str -> board49_to_board42 b2 = Ok str ->
  b1 = b2.
Proof.
  intros H1 H2 Hd1 Hd2.
  destruct (decode_ok_shows b1 str Hd1) as (hs1 & ps1 & bd1 & Hok1 & Hsh1 & Hat1 & Hs1).
  destruct (decode_ok_shows b2 str Hd2) as (hs2 & ps2 & bd2 & Hok2 & Hsh2 & Hat2 & Hs2).
  assert (bd1 = bd2) as ->.
  { apply join_rows_inj; [by destruct Hsh1|by destruct Hsh2|congruence]. }
  apply codes_determine; [done|done|]. intros c Hc.
  rewrite Hat1, Hat2 by done. unfold col_code.
  by destruct (shows_inj bd2 hs1 hs2 ps1 ps2 Hok1 Hok2 Hsh1 Hsh2 c Hc) as [-> ->].
Qed.

Lemma decoder_injective_witness : 220217344 = 220217344.
Proof.
  apply (decoder_injective _ _ "...o......x......o......x......o.....xx...");
    [lia|lia|reflexivity|reflexivity].
Defined.
End BoardFacts.

(** ** The driver under a sound oracle *)

Module SoundFacts.
Import TT TTSpec TTFacts CodecSpec CodecFacts SearchSpec SearchFacts SoundSpec.

Lemma returns_bind {A B : Type} (I : world -> Prop) (P : A -> Prop)
    (Q : B -> Prop) (m : prog A) (k : A -> prog B) :
  holds I (returns P) m ->
  (forall a, P a -> holds I (returns Q) (k a)) ->
  holds I (returns Q) (pbind m k).
Proof.
  intros Hm Hk. eapply holds_bind; [exact Hm| | |].
  - intros a (a' & [= <-] & Ha). by apply Hk.
  - by intros e (a & ? & _).
  - by intros (a & ? & _).
Qed.

Lemma returns_lift {A : Type} (I : world -> Prop) (P : A -> Prop) (a : A) :
  P a -> holds I (returns P) (lift (Ok a)).
Proof. intros Ha. apply holds_lift. by exists a. Qed.

Lemma returns_ret {A : Type} (I : world -> Prop) (P : A -> Prop) (a : A) :
  P a -> holds I (returns P) (ret a).
Proof. intros Ha. apply holds_ret. by exists a. Qed.

Lemma returns_weaken {A : Type} (I : world -> Prop) (P Q : A -> Prop) (m : prog A) :
  holds I (returns P) m -> (forall a, P a -> Q a) -> holds I (returns Q) m.
Proof.
  intros Hm HPQ. eapply holds_weaken; [exact Hm|].
  intros r (a & -> & Ha). exists a. auto.
Qed.

Lemma first_best_finds (wdl_list : list (option Z)) (value : Z) :
  length wdl_list = 7%nat -> Some value ∈ wdl_list ->
  exists move, first_best wdl_list value MOVE_ORDERING = Ok (Some move) /\
    wdl_list !! move = Some (Some value).
Proof.
  intros Hlen Hin.
  do 7 (destruct wdl_list as [|? wdl_list]; [done|]).
  destruct wdl_list; [|done].
  assert (Hw : forall x : option Z, wdl_is x value = false -> x <> Some value).
  { intros [y|] Hx; [|done]. simpl in Hx. intros [= ->]. by rewrite Z.eqb_refl in Hx. }
  assert (Ht : forall x : option Z, wdl_is x value = true -> x = Some value).
  { intros [y|] Hx; [|done]. simpl in Hx. apply Z.eqb_eq in Hx. by subst. }
  unfold MOVE_ORDERING. cbn [first_best list_get lookup list_lookup bind].
  repeat match goal with
  | |- context [wdl_is ?x value] =>
      let E := fresh "E" in
      destruct (wdl_is x value) eqn:E;
      [apply Ht in E; subst; eexists; split; [reflexivity|reflexivity]|apply Hw in E]
  end.
  exfalso. repeat (apply elem_of_cons in Hin as [Hin|Hin]; [by subst|]).
  by apply elem_of_nil in Hin.
Qed.

Section Sound.
Variable query : string -> bool * list (option Z).
Hypothesis query_wf : oracle_wf query.
Hypothesis query_consistent : oracle_consistent query.
Hypothesis query_sound : oracle_sound query.

Lemma reachable_sound (s : string) :
  reachable query s -> legal s /\ exists v, node_value query s = Ok v.
Proof.
  destruct query_sound as [Hroot Hmove].
  induction 1 as [|s c v Hreach IH Hopen Hc]; [done|].
  destruct (Hmove s c v Hreach Hopen Hc) as [Hl Hv]. eauto.
Qed.

Lemma tt_get_sound (s : string) (board : Z) :
  reachable query s -> moveseq_to_board49 s = Ok board ->
  holds (world_ok query)
    (returns (fun tt_value : option Z => forall t, tt_value = Some t ->
       exists v, node_value query s = Ok v /\ record_for v t))
    (tt_get board).
Proof.
  intros Hreach Henc w Hw.
  destruct (tt_get_ok query query_consistent s board Hreach Henc w Hw) as [HI HQ].
  split; [done|]. simpl in *.
  destruct (get_ok (table w) board (encode_key_range s board Henc)) as [r Hr].
  exists r. split; [done|]. intros t ->. by apply HQ.
Qed.

Lemma tt_set_sound (s : string) (board v record : Z) :
  reachable query s ->
  moveseq_to_board49 s = Ok board -> node_value query s = Ok v ->
  record_for v record ->
  holds (world_ok query) (returns (fun _ : unit => True)) (tt_set board record).
Proof.
  intros Hreach Henc Hnv Hrec w Hw.
  destruct (tt_set_ok query s board v record Hreach Henc Hnv Hrec w Hw) as [HI _].
  split; [done|]. unfold tt_set.
  destruct Hw as (Hwf & _).
  destruct (set_run_ok (table w) board record Hwf (encode_key_range s board Henc))
    as (sl & sz & ex & _ & _ & ->).
  { destruct Hrec as (_ & Hr & _). exact Hr. }
  simpl. by exists tt.
Qed.

Section SoundNode.
Variable search_rec : string -> Z -> Z -> prog Z.
Variable s : string.
Variable board : Z.
Variable wdl_list : list (option Z).
Variable value : Z.
Hypothesis s_reachable : reachable query s.
Hypothesis s_board : moveseq_to_board49 s = Ok board.
Hypothesis s_wdl : wdl_wf wdl_list.
Hypothesis s_value : max_defined wdl_list = Ok value.
Hypothesis s_node : node_value query s = Ok value.

(** The calls made from the node of [s]: they return minus the value the
    oracle named for the move. *)
Hypothesis rec_sound :
  forall (c : nat) (v alpha beta : Z),
  wdl_list !! c = Some (Some v) -> window_ok alpha beta ->
  holds (world_ok query) (returns (fun r => r = - v))
    (search_rec (s ++ str_move c)%string alpha beta).

Lemma value_range : -1 <= value <= 1.
Proof.
  apply max_defined_spec in s_value as [Hin _]. by apply (wdl_wf_range wdl_list).
Qed.

Lemma best_found :
  exists move, first_best wdl_list value MOVE_ORDERING = Ok (Some move) /\
    wdl_list !! move = Some (Some value).
Proof.
  apply first_best_finds; [by destruct s_wdl|].
  by apply max_defined_spec in s_value as [Hin _].
Qed.

Lemma search_cut_sound (alpha beta ub : Z) :
  window_ok alpha beta -> beta <= value -> ub = value \/ ub = 1 ->
  holds (world_ok query) (returns (fun _ : unit => True))
    (search_cut search_rec s board wdl_list value alpha beta ub).
Proof.
  intros Hwin Hcut Hub. unfold search_cut.
  destruct best_found as (move & -> & Hmove).
  eapply returns_bind; [by apply (returns_lift _ (fun fm => fm = Some move))|].
  intros fm ->. eapply returns_bind with (P := fun _ => True).
  - eapply returns_bind; [apply (rec_sound move value); [done|]|].
    { unfold window_ok in *. lia. }
    intros r ->. rewrite Z.opp_involutive, Z.eqb_refl.
    eapply returns_bind; [by apply (returns_lift _ (fun _ => True))|]. intros _ _.
    destruct (Z.geb_spec value beta); [|lia]. by apply returns_lift.
  - intros _ _. apply (tt_set_sound s board value); [done|done|done|].
    apply record_for_packed; [apply value_range|done].
Qed.

Lemma search_others_sound (fm : nat) (alpha beta : Z) (moves : list nat) :
  window_ok alpha beta -> value <= alpha ->
  Forall (fun move => (move < 7)%nat) moves ->
  holds (world_ok query) (returns (fun _ : unit => True))
    (search_others search_rec s wdl_list (Some fm) alpha beta moves).
Proof.
  intros Hwin Hval. induction moves as [|move moves IH]; intros Hmoves;
    cbn [search_others]; [by apply returns_ret|].
  apply Forall_cons in Hmoves as [Hmove Hmoves].
  destruct (move =? fm)%nat; [by apply IH|].
  destruct (lookup_lt_is_Some_2 wdl_list move) as [x Hx].
  { destruct s_wdl as [-> _]. done. }
  unfold list_get. rewrite Hx.
  eapply returns_bind; [by apply (returns_lift _ (fun y => y = x))|].
  intros y ->. destruct x as [v|]; [|by apply IH].
  eapply returns_bind; [apply (rec_sound move v); [done|]|].
  { unfold window_ok in *. lia. }
  intros r ->. rewrite Z.opp_involutive.
  assert (v <= value).
  { apply max_defined_spec in s_value as [_ Hmax]. apply Hmax.
    by apply (list_elem_of_lookup_2 _ move). }
  destruct (Z.leb_spec v alpha); [|lia].
  eapply returns_bind; [by apply (returns_lift _ (fun _ => True))|]. intros _ _.
  by apply IH.
Qed.

Lemma search_pv_sound (alpha beta : Z) :
  window_ok alpha beta -> value < beta ->
  holds (world_ok query) (returns (fun _ : unit => True))
    (search_pv search_rec s board wdl_list value alpha beta).
Proof.
  intros Hwin Hlt. unfold search_pv. pose proof value_range as Hv.
  destruct best_found as (move & -> & Hmove).
  eapply returns_bind; [by apply (returns_lift _ (fun fm => fm = Some move))|].
  intros fm ->.
  eapply returns_bind with (P := fun alpha1 => alpha1 = Z.max alpha value).
  - eapply returns_bind; [apply (rec_sound move value); [done|]|].
    { unfold window_ok in *. lia. }
    intros r ->. rewrite Z.opp_involutive, Z.eqb_refl.
    eapply returns_bind; [by apply (returns_lift _ (fun _ => True))|]. intros _ _.
    destruct (Z.ltb_spec value beta); [|lia].
    eapply returns_bind; [by apply (returns_lift _ (fun _ => True))|]. intros _ _.
    by apply returns_ret.
  - intros alpha1 ->.
    eapply returns_bind with (P := fun _ => True).
    + apply search_others_sound; [unfold window_ok in *; lia|lia|].
      unfold MOVE_ORDERING. repeat constructor.
    + intros _ _. apply (tt_set_sound s board value); [done|done|done|].
      apply record_for_packed; [done|by left].
Qed.

End SoundNode.

Lemma search_node_sound (search_rec : string -> Z -> Z -> prog Z) (s : string)
    (board alpha beta ub : Z) :
  reachable query s -> moveseq_to_board49 s = Ok board ->
  window_ok alpha beta ->
  (forall v, node_value query s = Ok v -> ub = v \/ ub = 1) ->
  (forall (c : nat) (v a b : Z),
   (query s).1 = false -> (query s).2 !! c = Some (Some v) -> window_ok a b ->
   holds (world_ok query) (returns (fun r => r = - v))
     (search_rec (s ++ str_move c)%string a b)) ->
  holds (world_ok query) (returns (fun r => node_value query s = Ok r))
    (search_node query search_rec s board alpha beta ub).
Proof.
  intros Hreach Henc Hwin Hub Hrec. unfold search_node.
  pose proof (query_wf s) as Hwdl.
  destruct (reachable_sound s Hreach) as [_ [v Hv]].
  assert (Hnv : node_value query s
                = if (query s).1 then terminal_value query s
                  else max_defined (query s).2).
  { unfold node_value. by destruct (query s). }
  destruct (query s) as [is_terminal wdl_list]. simpl in Hwdl, Hnv, Hrec.
  rewrite Hnv in Hv. destruct is_terminal.
  - rewrite Hv.
    eapply returns_bind; [by apply (returns_lift _ (fun value => value = v))|].
    intros value ->.
    eapply returns_bind with (P := fun _ => True);
      [|intros _ _; apply returns_ret; by rewrite Hnv].
    apply (tt_set_sound s board v); [done|done|by rewrite Hnv|].
    apply record_for_packed; [|by left].
    destruct (terminal_value_range query s v Hv); lia.
  - rewrite Hv.
    eapply returns_bind; [by apply (returns_lift _ (fun value => value = v))|].
    intros value ->.
    destruct (Z.leb_spec beta v).
    + eapply returns_bind with (P := fun _ => True);
      [|intros _ _; apply returns_ret; by rewrite Hnv].
      apply search_cut_sound; try done; [by rewrite Hnv| |].
      * intros c x a b Hc. by apply Hrec.
      * apply Hub. by rewrite Hnv.
    + eapply returns_bind with (P := fun _ => True);
      [|intros _ _; apply returns_ret; by rewrite Hnv].
      apply search_pv_sound; try done; [by rewrite Hnv|].
      intros c x a b Hc. by apply Hrec.
Qed.

Lemma probe_sound (tt_value : option Z) (alpha beta v : Z) :
  window_ok alpha beta -> -1 <= v <= 1 ->
  (forall t, tt_value = Some t -> record_for v t) ->
  match probe tt_value alpha beta with
  | Cut r => r = v
  | Window alpha' beta' ub => window_ok alpha' beta' /\ (ub = v \/ ub = 1)
  end.
Proof.
  intros Hwin Hv Hrec. unfold probe. destruct tt_value as [t|]; [|by auto].
  destruct (Hrec t eq_refl) as (_ & _ & Hlb & Hub). unfold lb_of, ub_of in *.
  destruct (Z.geb_spec (t mod 16 - 1) beta); [done|].
  destruct (Z.leb_spec (t / 16 - 1) alpha).
  - unfold window_ok in Hwin. lia.
  - unfold window_ok in *. split; [lia|done].
Qed.

Lemma search_body_sound (search_rec : string -> Z -> Z -> prog Z) (s : string)
    (alpha beta : Z) :
  reachable query s -> window_ok alpha beta ->
  (forall (c : nat) (v a b : Z),
   (query s).1 = false -> (query s).2 !! c = Some (Some v) -> window_ok a b ->
   holds (world_ok query) (returns (fun r => r = - v))
     (search_rec (s ++ str_move c)%string a b)) ->
  holds (world_ok query) (returns (fun r => node_value query s = Ok r))
    (search_body query search_rec s alpha beta).
Proof.
  intros Hreach Hwin Hrec. unfold search_body.
  destruct (reachable_sound s Hreach) as [Hl [v Hv]].
  destruct (codec_agree s Hl) as (hs & ps & bd & _ & Henc & _).
  rewrite Henc.
  eapply returns_bind;
    [by apply (returns_lift _ (fun b => b = pack_columns hs ps (seq 0 7)))|].
  intros board ->.
  eapply returns_bind; [by apply (tt_get_sound s)|].
  intros tt_value Hget.
  assert (Hrange : -1 <= v <= 1).
  { unfold node_value in Hv. pose proof (query_wf s) as Hwdl.
    destruct (query s) as [[] wdl_list]; simpl in Hwdl.
    - destruct (terminal_value_range query s v Hv); lia.
    - apply max_defined_spec in Hv as [Hin _]. by apply (wdl_wf_range wdl_list). }
  pose proof (probe_sound tt_value alpha beta v Hwin Hrange) as Hp.
  destruct (probe tt_value alpha beta) as [r|alpha' beta' ub].
  - apply returns_ret. rewrite Hp; [done|].
    intros t Ht. destruct (Hget t Ht) as (v' & Hv' & Hr). congruence.
  - destruct Hp as [Hwin' Hub].
    { intros t Ht. destruct (Hget t Ht) as (v' & Hv' & Hr). congruence. }
    apply search_node_sound; try done.
    intros v' Hv'. congruence.
Qed.

Lemma search_sound_holds (fuel : nat) :
  forall (s : string) (alpha beta : Z),
  reachable query s -> window_ok alpha beta ->
  (43 <= fuel + String.length s)%nat ->
  holds (world_ok query) (returns (fun r => node_value query s = Ok r))
    (search query fuel s alpha beta).
Proof.
  induction fuel as [|fuel IH]; intros s alpha beta Hreach Hwin Hfuel.
  - destruct (reachable_sound s Hreach) as [Hl _].
    pose proof (legal_length s Hl). lia.
  - cbn [search]. apply search_body_sound; [done|done|].
    intros c v a b Hopen Hc Hwin'.
    destruct query_sound as [_ Hmove].
    destruct (Hmove s c v Hreach Hopen Hc) as [_ Hv].
    eapply returns_weaken.
    + apply IH; [by apply (reach_move query s c v)|done|].
      rewrite length_append. simpl. lia.
    + intros r Hr. simpl in Hr. congruence.
Qed.

End Sound.

(** X13.  With an oracle that is well formed, answers by position and is
    a solution of the game, [search] on a reachable position with a
    window inside [(-1, 1)] (the root call [search("", -1, 1)] is one),
    given one nested call per remaining ply, raises nothing, fails no
    assertion and returns the value of the position; the table keeps
    its invariant. *)
Theorem search_sound (query : string -> bool * list (option Z))
    (fuel : nat) (s : string) (alpha beta : Z) (w : world) :
  oracle_wf query -> oracle_consistent query -> oracle_sound query ->
  world_ok query w -> reachable query s -> window_ok alpha beta ->
  (43 <= fuel + String.length s)%nat ->
  exists w' v,
    search query fuel s alpha beta w = (w', Ok v) /\
    node_value query s = Ok v /\ world_ok query w'.
Proof.
  intros Hwf Hcons Hsound Hw Hreach Hwin Hfuel.
  destruct (search_sound_holds query Hwf Hcons Hsound fuel s alpha beta
              Hreach Hwin Hfuel w Hw) as [HI (v & Hr & Hv)].
  exists (search query fuel s alpha beta w).1, v. split_and!; [|done|done].
  destruct (search query fuel s alpha beta w) as [w' r]. simpl in *. by subst.
Qed.

Lemma toy_reachable (s : string) :
  reachable toy_oracle s -> s = ""%string \/ s = "3"%string.
Proof.
  induction 1 as [|s c v Hreach IH Hopen Hc]; [by left|].
  destruct IH as [-> | ->]; [|done]. right.
  do 7 (destruct c as [|c]; [first [discriminate Hc | reflexivity]|]).
  discriminate Hc.
Qed.

Lemma toy_oracle_sound : oracle_sound toy_oracle.
Proof.
  split; [by exists 1|]. intros s c v Hreach Hopen Hc.
  apply toy_reachable in Hreach as [-> | ->]; [|done].
  do 7 (destruct c as [|c];
        [first [discriminate Hc | injection Hc as <-; split; reflexivity]|]).
  discriminate Hc.
Qed.

Lemma search_sound_witness :
  exists w' v,
    search toy_oracle 43 "" (-1) 1 (empty_world 8) = (w', Ok v) /\
    node_value toy_oracle "" = Ok v /\ world_ok toy_oracle w'.
Proof.
  apply search_sound.
  - exact toy_oracle_wf.
  - exact toy_oracle_consistent.
  - exact toy_oracle_sound.
  - apply (world_ok_new toy_oracle 8). reflexivity.
  - apply reach_root.
  - unfold window_ok. lia.
  - simpl. lia.
Defined.

End SoundFacts.

(** ** More facts about the driver *)

Module DriverFacts.
Import TT TTSpec TTFacts CodecSpec CodecFacts SearchSpec SearchFacts.
Import TTMapSpec TTMapFacts BoardFacts DriverSpec.

Lemma pbind_ok_inv {A B : Type} (m : prog A) (k : A -> prog B)
    (w w' : world) (b : B) :
  pbind m k w = (w', Ok b) ->
  exists w1 a, m w = (w1, Ok a) /\ k a w1 = (w', Ok b).
Proof.
  unfold pbind. destruct (m w) as [w1 [a| |]]; [eauto|done|done].
Qed.




Lemma encode_raises (s : string) (e : exn) :
  moveseq_to_board49 s = Raise e -> e = ValueError.
Proof.
  unfold moveseq_to_board49, moveseq_to_board49_gen. cbn [Nat.eqb negb orb bind].
  destruct (board49_loop 7 6 s 0 _ _) as [[hs ps]|e'|] eqn:H49; [done| |done].
  intros [= <-]. by apply loop49_raises in H49.
Qed.

Lemma get_raises (tb : t) (key : Z) (e : exn) :
  get tb key = Raise e -> e = ValueError.
Proof.
  unfold get. destruct (_ || _); [by intros [= <-]|].
  by destruct (get_loop _ _ _ _ _ _).
Qed.

Lemma set_raises (tb : t) (key value : Z) (e : exn) :
  set tb key value = Raise e -> e = ValueError.
Proof.
  unfold set, set_run. destruct (_ || _); [by intros [= <-]|].
  destruct (_ || _); [by intros [= <-]|].
  destruct (set_loop _ _ _ _ _ _ _ _) as [[[sl sz] ex]|]; done.
Qed.

Lemma max_defined_raises (l : list (option Z)) (e : exn) :
  max_defined l = Raise e -> e = ValueError.
Proof. unfold max_defined. destruct (omap id l); [by intros [= <-]|done]. Qed.

Lemma terminal_value_raises (query : string -> bool * list (option Z))
    (s : string) (e : exn) :
  terminal_value query s = Raise e -> e = ValueError.
Proof.
  unfold terminal_value. destruct (_ =? 42)%nat; [|done].
  destruct (query (drop_last s)) as [t pw].
  destruct (max_defined pw) as [m|e'|] eqn:Hm; simpl; [by destruct (m =? 1)| |done].
  intros [= <-]. by apply max_defined_raises in Hm.
Qed.

Lemma value_error_ok {A : Type} (r : outcome A) :
  (forall e, r = Raise e -> e = ValueError) -> no_lookup_error r.
Proof. intros H. split; intros Hr; by apply H in Hr. Qed.

Lemma assert_ok (c : bool) : no_lookup_error (assert c).
Proof. unfold assert. by destruct c. Qed.

Lemma tt_get_no_lookup (key : Z) : holds anywhere no_lookup_error (tt_get key).
Proof.
  intros w _. split; [done|]. apply value_error_ok. apply get_raises.
Qed.

Lemma tt_set_no_lookup (key value : Z) :
  holds anywhere no_lookup_error (tt_set key value).
Proof.
  intros w _. split; [done|]. unfold tt_set.
  destruct (set (table w) key value) as [tb|e|] eqn:Hs; simpl; [done| |done].
  apply value_error_ok. intros e' [= <-]. by apply set_raises in Hs.
Qed.

Lemma no_lookup_bind {A B : Type} (m : prog A) (k : A -> prog B) :
  holds anywhere no_lookup_error m ->
  (forall a, holds anywhere no_lookup_error (k a)) ->
  holds anywhere no_lookup_error (pbind m k).
Proof.
  intros Hm Hk. eapply holds_bind; [exact Hm|auto| |done].
  intros e [H1 H2]. split; congruence.
Qed.

Lemma no_lookup_lift {A : Type} (o : outcome A) :
  no_lookup_error o -> holds anywhere no_lookup_error (lift o).
Proof. apply holds_lift. Qed.

Lemma no_lookup_ret {A : Type} (a : A) : holds anywhere no_lookup_error (ret a).
Proof. by apply holds_ret. Qed.

Section Lookups.
Variable query : string -> bool * list (option Z).
Variable search_rec : string -> Z -> Z -> prog Z.
Variable s : string.
Variable wdl_list : list (option Z).
Variable value : Z.
Hypothesis s_length : length wdl_list = 7%nat.
Hypothesis s_value : max_defined wdl_list = Ok value.

Hypothesis rec_no_lookup :
  forall (s' : string) (alpha beta : Z),
  holds anywhere no_lookup_error (search_rec s' alpha beta).

Lemma best_move :
  exists move, first_best wdl_list value MOVE_ORDERING = Ok (Some move).
Proof.
  destruct (SoundFacts.first_best_finds wdl_list value s_length) as (move & H & _);
    [|eauto].
  by apply max_defined_spec in s_value as [Hin _].
Qed.

Lemma search_cut_no_lookup (board alpha beta ub : Z) :
  holds anywhere no_lookup_error
    (search_cut search_rec s board wdl_list value alpha beta ub).
Proof.
  unfold search_cut. destruct best_move as [move ->].
  apply no_lookup_bind; [by apply no_lookup_lift|]. intros fm.
  apply no_lookup_bind; [|intros; apply tt_set_no_lookup].
  destruct fm as [mv|]; [|apply no_lookup_ret].
  apply no_lookup_bind; [apply rec_no_lookup|]. intros r.
  apply no_lookup_bind; [apply no_lookup_lift, assert_ok|]. intros _.
  apply no_lookup_lift, assert_ok.
Qed.

Lemma search_others_no_lookup (fm : nat) (alpha beta : Z) (moves : list nat) :
  Forall (fun move => (move < 7)%nat) moves ->
  holds anywhere no_lookup_error
    (search_others search_rec s wdl_list (Some fm) alpha beta moves).
Proof.
  induction moves as [|move moves IH]; intros Hmoves; cbn [search_others];
    [apply no_lookup_ret|].
  apply Forall_cons in Hmoves as [Hmove Hmoves].
  destruct (move =? fm)%nat; [by apply IH|].
  destruct (lookup_lt_is_Some_2 wdl_list move) as [x Hx]; [by rewrite s_length|].
  unfold list_get. rewrite Hx.
  apply no_lookup_bind; [by apply no_lookup_lift|]. intros [v|]; [|by apply IH].
  apply no_lookup_bind; [apply rec_no_lookup|]. intros r.
  apply no_lookup_bind; [apply no_lookup_lift, assert_ok|]. intros _. by apply IH.
Qed.

Lemma search_pv_no_lookup (board alpha beta : Z) :
  holds anywhere no_lookup_error
    (search_pv search_rec s board wdl_list value alpha beta).
Proof.
  unfold search_pv. destruct best_move as [move ->].
  eapply holds_bind with (Q1 := fun r => r = Ok (Some move));
    [by apply holds_lift| |done|done].
  intros fm [= ->].
  apply no_lookup_bind.
  - apply no_lookup_bind; [apply rec_no_lookup|]. intros r.
    apply no_lookup_bind; [apply no_lookup_lift, assert_ok|]. intros _.
    apply no_lookup_bind; [apply no_lookup_lift, assert_ok|]. intros _.
    apply no_lookup_ret.
  - intros alpha1. apply no_lookup_bind; [|intros; apply tt_set_no_lookup].
    apply search_others_no_lookup. unfold MOVE_ORDERING. repeat constructor.
Qed.

End Lookups.

Lemma search_no_lookup (query : string -> bool * list (option Z)) :
  (forall s, length (query s).2 = 7%nat) ->
  forall (fuel : nat) (s : string) (alpha beta : Z),
  holds anywhere no_lookup_error (search query fuel s alpha beta).
Proof.
  intros Hwf. induction fuel as [|fuel IH]; intros s alpha beta; cbn [search].
  { by apply holds_lift. }
  unfold search_body.
  apply no_lookup_bind.
  { apply no_lookup_lift, value_error_ok, encode_raises. }
  intros board. apply no_lookup_bind; [apply tt_get_no_lookup|]. intros tt_value.
  destruct (probe tt_value alpha beta) as [v|alpha' beta' ub]; [apply no_lookup_ret|].
  unfold search_node. pose proof (Hwf s) as Hlen.
  destruct (query s) as [is_terminal wdl_list]. simpl in Hlen.
  destruct is_terminal.
  - apply no_lookup_bind.
    { apply no_lookup_lift, value_error_ok, terminal_value_raises. }
    intros value. apply no_lookup_bind; [apply tt_set_no_lookup|].
    intros _. apply no_lookup_ret.
  - eapply holds_bind with (Q1 := fun r => r = max_defined wdl_list);
      [by apply holds_lift| | |done].
    + intros value Hv. symmetry in Hv. destruct (beta' <=? value).
      * apply no_lookup_bind; [by apply search_cut_no_lookup|].
        intros _. apply no_lookup_ret.
      * apply no_lookup_bind; [by apply search_pv_no_lookup|].
        intros _. apply no_lookup_ret.
    + intros e He. symmetry in He. apply max_defined_raises in He. by subst.
Qed.

(** X15.  With answers of seven entries (what the parser of the answer
    lines returns), [search] never ends by an [IndexError] or by reading
    [first_move] unbound: the lookups [wdl_list[move]] are in range, and
    in the [else] branch the first loop always finds a move of the
    maximal value.  This whatever the entries, the fuel, the position,
    the window and the table. *)
Theorem search_lookups_defined (query : string -> bool * list (option Z))
    (fuel : nat) (s : string) (alpha beta : Z) (w : world) :
  (forall s', length (query s').2 = 7%nat) ->
  (search query fuel s alpha beta w).2 <> Raise IndexError /\
  (search query fuel s alpha beta w).2 <> Raise UnboundLocalError.
Proof.
  intros Hwf.
  by destruct (search_no_lookup query Hwf fuel s alpha beta w I) as [_ H].
Qed.

Lemma search_lookups_defined_witness :
  (search toy_oracle 43 "" (-1) 1 (empty_world 8)).2 <> Raise IndexError /\
  (search toy_oracle 43 "" (-1) 1 (empty_world 8)).2 <> Raise UnboundLocalError.
Proof. apply search_lookups_defined. intros s'. apply toy_oracle_wf. Defined.

Lemma run_sets_app (ops1 ops2 : list (Z * Z)) :
  forall tb, run_sets tb (ops1 ++ ops2) = run_sets (run_sets tb ops1) ops2.
Proof.
  induction ops1 as [|[k v] ops1 IH]; intros tb; simpl; [done|].
  destruct (set tb k v); apply IH.
Qed.

Lemma tt_set_replays (tb0 : t) (key value : Z) :
  holds (replays tb0) any (tt_set key value).
Proof.
  intros w [Ht Hops]. unfold tt_set.
  destruct (set (table w) key value) as [tb| |] eqn:Hs; [|done|done].
  split; [|done]. split; simpl.
  - rewrite run_sets_app, <- Ht. simpl. by rewrite Hs.
  - apply Forall_app. split; [done|]. apply Forall_singleton.
    by apply (set_in_range (table w) tb).
Qed.

Section Frame.
Variable Inv : world -> Prop.
Variable query : string -> bool * list (option Z).
Hypothesis set_keeps : forall key value, holds Inv any (tt_set key value).

Lemma tt_get_keeps (key : Z) : holds Inv any (tt_get key).
Proof. intros w Hw. done. Qed.

Section FrameNode.
Variable search_rec : string -> Z -> Z -> prog Z.
Hypothesis rec_keeps :
  forall (s : string) (alpha beta : Z), holds Inv any (search_rec s alpha beta).

Lemma search_cut_keeps (s : string) (wdl_list : list (option Z))
    (board value alpha beta ub : Z) :
  holds Inv any (search_cut search_rec s board wdl_list value alpha beta ub).
Proof.
  unfold search_cut. apply any_bind; [by apply holds_lift|]. intros fm.
  apply any_bind; [|intros; apply set_keeps].
  destruct fm as [move|]; [|by apply holds_ret].
  apply any_bind; [apply rec_keeps|]. intros r.
  apply any_bind; [by apply holds_lift|]. intros _. by apply holds_lift.
Qed.

Lemma search_others_keeps (s : string) (wdl_list : list (option Z))
    (fm : option nat) (alpha beta : Z) (moves : list nat) :
  holds Inv any (search_others search_rec s wdl_list fm alpha beta moves).
Proof.
  induction moves as [|move moves IH]; simpl; [by apply holds_ret|].
  destruct fm as [fm|]; [|by apply holds_lift].
  destruct (move =? fm)%nat; [done|].
  apply any_bind; [by apply holds_lift|]. intros [v|]; [|done].
  apply any_bind; [apply rec_keeps|]. intros r.
  apply any_bind; [by apply holds_lift|done].
Qed.

Lemma search_pv_keeps (s : string) (wdl_list : list (option Z))
    (board value alpha beta : Z) :
  holds Inv any (search_pv search_rec s board wdl_list value alpha beta).
Proof.
  unfold search_pv. apply any_bind; [by apply holds_lift|]. intros fm.
  apply any_bind.
  - destruct fm as [move|]; [|by apply holds_ret].
    apply any_bind; [apply rec_keeps|]. intros r.
    apply any_bind; [by apply holds_lift|]. intros _.
    apply any_bind; [by apply holds_lift|]. intros _. by apply holds_ret.
  - intros alpha1. apply any_bind; [apply search_others_keeps|].
    intros _. apply set_keeps.
Qed.

Lemma search_body_keeps (s : string) (alpha beta : Z) :
  holds Inv any (search_body query search_rec s alpha beta).
Proof.
  unfold search_body. apply any_bind; [by apply holds_lift|]. intros board.
  apply any_bind; [apply tt_get_keeps|]. intros tt_value.
  destruct (probe tt_value alpha beta) as [v|alpha' beta' ub]; [by apply holds_ret|].
  unfold search_node. destruct (query s) as [[] wdl_list].
  - apply any_bind; [by apply holds_lift|]. intros value.
    apply any_bind; [apply set_keeps|]. intros _. by apply holds_ret.
  - apply any_bind; [by apply holds_lift|]. intros value.
    destruct (beta' <=? value).
    + apply any_bind; [apply search_cut_keeps|]. intros _. by apply holds_ret.
    + apply any_bind; [apply search_pv_keeps|]. intros _. by apply holds_ret.
Qed.

End FrameNode.

(** Whatever every [TRANSPOSITION_TABLE.set] keeps, [search] keeps:
    nothing else writes the table. *)
Lemma search_keeps (fuel : nat) :
  forall (s : string) (alpha beta : Z), holds Inv any (search query fuel s alpha beta).
Proof.
  induction fuel as [|fuel IH]; intros s alpha beta; cbn [search].
  - by apply holds_lift.
  - by apply search_body_keeps.
Qed.

End Frame.

(** X16.  After a run of [search] from a new table, however it ends, the
    table is the finite map of the records stored during the run (while
    the distinct boards stored fit the capacity): [size] is the number
    of distinct boards stored, and [get] on a board returns the record
    stored last under it, [None] for a board never stored. *)
Theorem search_table_is_map (query : string -> bool * list (option Z))
    (capacity : Z) (tb : t) (fuel : nat) (s : string) (alpha beta : Z)
    (w' : world) (r : outcome Z) :
  new capacity = Ok tb ->
  search query fuel s alpha beta (World tb []) = (w', r) ->
  (base.size (model (stores w')) <= cap tb)%nat ->
  table w' = run_sets tb (stores w') /\
  TT.size (table w') = base.size (model (stores w')) /\
  forall k, key_in_range k -> get (table w') k = Ok (model (stores w') !! k).
Proof.
  intros Hnew Hs Hroom.
  destruct (search_keeps (replays tb) query (tt_set_replays tb) fuel s alpha beta
              (World tb [])) as [[Ht Hops] _]; [by split|].
  rewrite Hs in Ht, Hops. simpl in Ht, Hops.
  pose proof (represents_run (stores w') tb ∅ (represents_new capacity tb Hnew)
                Hops Hroom) as Hrep.
  fold (model (stores w')) in Hrep. rewrite <- Ht in Hrep.
  split; [done|]. split.
  - by destruct Hrep as (_ & _ & _ & Hsz & _).
  - intros k Hk. by apply represents_get.
Qed.

Lemma search_table_is_map_witness :
  table (search toy_oracle 5 "" (-1) 1 (World (mk 8 [0; 0; 0; 0; 0; 0; 0; 0] 0) [])).1
  = run_sets (mk 8 [0; 0; 0; 0; 0; 0; 0; 0] 0)
      (stores (search toy_oracle 5 "" (-1) 1
                 (World (mk 8 [0; 0; 0; 0; 0; 0; 0; 0] 0) [])).1) /\
  TT.size (table (search toy_oracle 5 "" (-1) 1
                    (World (mk 8 [0; 0; 0; 0; 0; 0; 0; 0] 0) [])).1)
  = base.size (model (stores (search toy_oracle 5 "" (-1) 1
                                (World (mk 8 [0; 0; 0; 0; 0; 0; 0; 0] 0) [])).1)) /\
  forall k, key_in_range k ->
    get (table (search toy_oracle 5 "" (-1) 1
                  (World (mk 8 [0; 0; 0; 0; 0; 0; 0; 0] 0) [])).1) k
    = Ok (model (stores (search toy_oracle 5 "" (-1) 1
                           (World (mk 8 [0; 0; 0; 0; 0; 0; 0; 0] 0) [])).1) !! k).
Proof.
  apply (search_table_is_map toy_oracle 8 _ 5 "" (-1) 1 _
           (search toy_oracle 5 "" (-1) 1
              (World (mk 8 [0; 0; 0; 0; 0; 0; 0; 0] 0) [])).2).
  - reflexivity.
  - by destruct (search toy_oracle 5 "" (-1) 1 _).
  - vm_compute. lia.
Defined.

Lemma search_cut_last (search_rec : string -> Z -> Z -> prog Z) (s : string)
    (board : Z) (wdl_list : list (option Z)) (value alpha beta ub : Z)
    (w w' : world) (u : unit) :
  search_cut search_rec s board wdl_list value alpha beta ub w = (w', Ok u) ->
  exists w1 tb',
    set (table w1) board ((value + 1) + ((ub + 1) * 16)) = Ok tb' /\
    w' = World tb' (stores w1 ++ [(board, (value + 1) + ((ub + 1) * 16))]).
Proof.
  unfold search_cut. intros H.
  apply pbind_ok_inv in H as (w1 & fm & _ & H).
  apply pbind_ok_inv in H as (w2 & u' & _ & H).
  apply tt_set_inv in H as (tb' & Hs & ->). eauto.
Qed.

Lemma search_pv_last (search_rec : string -> Z -> Z -> prog Z) (s : string)
    (board : Z) (wdl_list : list (option Z)) (value alpha beta : Z)
    (w w' : world) (u : unit) :
  search_pv search_rec s board wdl_list value alpha beta w = (w', Ok u) ->
  exists w1 tb',
    set (table w1) board ((value + 1) + ((value + 1) * 16)) = Ok tb' /\
    w' = World tb' (stores w1 ++ [(board, (value + 1) + ((value + 1) * 16))]).
Proof.
  unfold search_pv. intros H.
  apply pbind_ok_inv in H as (w1 & fm & _ & H).
  apply pbind_ok_inv in H as (w2 & alpha1 & _ & H).
  apply pbind_ok_inv in H as (w3 & u' & _ & H).
  apply tt_set_inv in H as (tb' & Hs & ->). eauto.
Qed.

(** X18.  When [search] takes the [else] branch ([v < beta] for the
    probed window, [v] the maximum of the oracle's values) and returns,
    it returns [v] and its last store is, under the board code, the
    exact record [(v+1) + 16*(v+1)]. *)
Theorem search_pv_exact (query : string -> bool * list (option Z))
    (fuel : nat) (w w' : world) (s : string) (alpha beta r : Z)
    (board : Z) (tt_value : option Z) (alpha' beta' ub : Z)
    (wdl_list : list (option Z)) (v : Z) :
  moveseq_to_board49 s = Ok board ->
  TT.get (table w) board = Ok tt_value ->
  probe tt_value alpha beta = Window alpha' beta' ub ->
  query s = (false, wdl_list) ->
  max_defined wdl_list = Ok v ->
  v < beta' ->
  search query (S fuel) s alpha beta w = (w', Ok r) ->
  r = v /\
  exists w1 tb',
    TT.set (table w1) board ((v + 1) + ((v + 1) * 16)) = Ok tb' /\
    w' = World tb' (stores w1 ++ [(board, (v + 1) + ((v + 1) * 16))]).
Proof.
  intros Henc Hget Hprobe Hq Hmax Hlt.
  cbn [search]. unfold search_body, pbind at 1 2, lift at 1, tt_get.
  rewrite Henc, Hget, Hprobe. unfold search_node. rewrite Hq.
  unfold pbind at 1, lift at 1. rewrite Hmax.
  destruct (Z.leb_spec beta' v); [lia|].
  intros Hrun. apply pbind_ok_inv in Hrun as (w2 & u & Hpv & Hrun).
  unfold ret in Hrun. injection Hrun as <- <-. split; [done|].
  by apply search_pv_last in Hpv.
Qed.

Lemma search_pv_exact_witness :
  -1 = -1 /\
  exists w1 tb',
    TT.set (table w1) 0 ((-1 + 1) + ((-1 + 1) * 16)) = Ok tb' /\
    (search lost_oracle 3 "" (-1) 1 (empty_world 8)).1
    = World tb' (stores w1 ++ [(0, (-1 + 1) + ((-1 + 1) * 16))]).
Proof.
  apply (search_pv_exact lost_oracle 2 (empty_world 8) _ "" (-1) 1 (-1)
           0 None (-1) 1 1 [None; None; None; Some (-1); None; None; None] (-1)).
  - reflexivity.
  - reflexivity.
  - reflexivity.
  - reflexivity.
  - reflexivity.
  - lia.
  - reflexivity.
Defined.

Lemma search_node_last (query : string -> bool * list (option Z))
    (search_rec : string -> Z -> Z -> prog Z) (s : string)
    (board alpha beta ub : Z) (w w' : world) (r : Z) :
  wdl_wf (query s).2 ->
  search_node query search_rec s board alpha beta ub w = (w', Ok r) ->
  -1 <= r <= 1 /\
  exists w1 tb' record,
    (record = (r + 1) + ((r + 1) * 16) \/ record = (r + 1) + ((ub + 1) * 16)) /\
    set (table w1) board record = Ok tb' /\
    w' = World tb' (stores w1 ++ [(board, record)]).
Proof.
  intros Hwdl. unfold search_node. destruct (query s) as [[] wdl_list]; simpl in Hwdl.
  - intros Hrun. apply pbind_ok_inv in Hrun as (w1 & value & Hv & Hrun).
    apply pbind_ok_inv in Hrun as (w2 & u & Hset & Hrun).
    unfold ret in Hrun. injection Hrun as <- <-.
    unfold lift in Hv. injection Hv as <- Hv.
    split; [destruct (terminal_value_range query s value Hv); lia|].
    apply tt_set_inv in Hset as (tb' & Hs & ->).
    exists w, tb'. eexists. split; [by left|done].
  - intros Hrun. apply pbind_ok_inv in Hrun as (w1 & value & Hv & Hrun).
    unfold lift in Hv. injection Hv as <- Hv.
    assert (Hrange : -1 <= value <= 1).
    { apply max_defined_spec in Hv as [Hin _]. by apply (wdl_wf_range wdl_list). }
    destruct (beta <=? value).
    + apply pbind_ok_inv in Hrun as (w2 & u & Hcut & Hrun).
      unfold ret in Hrun. injection Hrun as <- <-. split; [done|].
      apply search_cut_last in Hcut as (w1 & tb' & Hs & ->).
      exists w1, tb'. eexists. split; [by right|done].
    + apply pbind_ok_inv in Hrun as (w2 & u & Hpv & Hrun).
      unfold ret in Hrun. injection Hrun as <- <-. split; [done|].
      apply search_pv_last in Hpv as (w1 & tb' & Hs & ->).
      exists w1, tb'. eexists. split; [by left|done].
Qed.

Lemma model_snoc (ops : list (Z * Z)) (k v : Z) :
  model (ops ++ [(k, v)]) = <[k := v]> (model ops).
Proof. unfold model. by rewrite foldl_app. Qed.

(** X19.  The result of a [search] started on a new table is in the
    table afterwards: when the call returns [r], [get] on the board code
    of its position then returns a record with lower bound [r] and upper
    bound [r] or [+1] (the distinct boards stored fitting the
    capacity). *)
Theorem search_result_stored (query : string -> bool * list (option Z))
    (capacity : Z) (tb : t) (fuel : nat) (s : string) (alpha beta r : Z)
    (w' : world) :
  oracle_wf query -> new capacity = Ok tb ->
  search query fuel s alpha beta (World tb []) = (w', Ok r) ->
  (base.size (model (stores w')) <= cap tb)%nat ->
  exists board record,
    moveseq_to_board49 s = Ok board /\
    get (table w') board = Ok (Some record) /\
    lb_of record = r /\ (ub_of record = r \/ ub_of record = 1).
Proof.
  intros Hwf Hnew Hrun Hroom.
  destruct (search_keeps (replays tb) query (tt_set_replays tb) fuel s alpha beta
              (World tb [])) as [[Ht Hops] _]; [by split|].
  rewrite Hrun in Ht, Hops. simpl in Ht, Hops.
  pose proof (represents_run (stores w') tb ∅ (represents_new capacity tb Hnew)
                Hops Hroom) as Hrep.
  fold (model (stores w')) in Hrep. rewrite <- Ht in Hrep.
  destruct fuel as [|fuel]; [done|].
  revert Hrun. cbn [search]. unfold search_body. intros Hrun.
  apply pbind_ok_inv in Hrun as (w1 & board & Henc & Hrun).
  unfold lift in Henc. injection Henc as <- Henc.
  pose proof (encode_key_range s board Henc) as Hk.
  apply pbind_ok_inv in Hrun as (w1 & tt_value & Hget & Hrun).
  unfold tt_get in Hget. simpl in Hget. injection Hget as <- Hget.
  rewrite (represents_get tb ∅ board (represents_new capacity tb Hnew) Hk) in Hget.
  rewrite lookup_empty in Hget. injection Hget as <-.
  cbn [probe] in Hrun.
  apply search_node_last in Hrun as (Hr & w1 & tb' & record & Hrec & Hs & ->);
    [|apply Hwf].
  exists board, record. split; [done|]. split.
  - rewrite (represents_get _ _ board Hrep Hk). simpl.
    by rewrite model_snoc, lookup_insert_eq.
  - destruct Hrec as [-> | ->].
    + destruct (unpack_record r r Hr Hr) as (-> & -> & _). auto.
    + destruct (unpack_record r 1 Hr ltac:(lia)) as (-> & -> & _). auto.
Qed.

Lemma search_result_stored_witness :
  exists board record,
    moveseq_to_board49 "" = Ok board /\
    get (table (search lost_oracle 3 "" (-1) 1
                  (World (mk 8 [0; 0; 0; 0; 0; 0; 0; 0] 0) [])).1) board
    = Ok (Some record) /\
    lb_of record = -1 /\ (ub_of record = -1 \/ ub_of record = 1).
Proof.
  apply (search_result_stored lost_oracle 8 (mk 8 [0; 0; 0; 0; 0; 0; 0; 0] 0)
           3 "" (-1) 1 (-1)).
  - intros s. unfold lost_oracle.
    destruct (String.eqb s ""); [|destruct (String.eqb s "3")];
      (split; [reflexivity|repeat constructor; lia]).
  - reflexivity.
  - reflexivity.
  - vm_compute. lia.
Defined.

End DriverFacts.

(** ** Facts about the histogram *)

Module ScanFacts.
Import TT TTSpec TTFacts CodecSpec CodecFacts SearchSpec SearchFacts.
Import TTMapSpec TTMapFacts BoardSpec BoardFacts DriverSpec DriverFacts ScanSpec.

Lemma total_insert (l : list Z) :
  forall (i : nat) (x : Z), (i < length l)%nat ->
  total (<[i := x]> l) = total l - l !!! i + x.
Proof.
  induction l as [|a l IH]; intros i x Hi; simpl in Hi; [lia|].
  destruct i as [|i]; simpl.
  - change ((a :: l) !!! 0%nat) with a. lia.
  - change ((a :: l) !!! S i) with (l !!! i). rewrite IH by lia. lia.
Qed.

Lemma at_depth_cons (d : nat) (e : Z) (sl : list Z) :
  length (at_depth d (e :: sl))
  = ((if decide (slot_depth e = Some d) then 1 else 0) + length (at_depth d sl))%nat.
Proof.
  unfold at_depth. rewrite filter_cons. by destruct (decide _).
Qed.

Lemma scan_slot_spec (slots : list Z) (node_count : list Z) (i : nat) :
  scannable (slots !!! i) -> length node_count = 43%nat ->
  exists node_count',
    scan_slot slots node_count i = Ok node_count' /\
    length node_count' = 43%nat /\
    (forall d, (d < 43)%nat ->
       node_count' !!! d
       = node_count !!! d
         + Z.of_nat (if decide (slot_depth (slots !!! i) = Some d) then 1 else 0)) /\
    total node_count'
    = total node_count + Z.of_nat (if decide (slots !!! i <> 0) then 1 else 0).
Proof.
  intros Hgood Hlen. unfold scan_slot.
  destruct (Z.eqb_spec (slots !!! i) 0) as [He|He]; simpl.
  - exists node_count. split_and!; [done|done| |].
    + intros d Hd.
      assert (Hn : slot_depth (slots !!! i) = None)
        by (unfold slot_depth; by rewrite He).
      destruct (decide (slot_depth (slots !!! i) = Some d)); [congruence|].
      simpl. lia.
    + destruct (decide (slots !!! i <> 0)); [done|]. simpl. lia.
  - destruct Hgood as [?|(dp & Hdp & Hle)]; [done|].
    revert Hdp. unfold slot_depth. destruct (Z.eqb_spec (slots !!! i) 0); [done|].
    fold (key_of (slots !!! i)).
    destruct (board49_to_board42 (key_of (slots !!! i) - 1)) as [board_str| |];
      [|done|done].
    intros [= Hdp]. cbn [bind]. rewrite Hdp.
    unfold list_get.
    rewrite (list_lookup_lookup_total_lt node_count dp) by lia. cbn [bind].
    eexists. split; [done|]. split_and!.
    + by rewrite length_insert.
    + intros d Hd. destruct (decide (Some dp = Some d)) as [[= ->]|Hne].
      * rewrite list_lookup_total_insert_eq by lia. simpl. lia.
      * rewrite list_lookup_total_insert_ne by congruence. simpl. lia.
    + rewrite total_insert by lia. destruct (decide _); [|done]. simpl. lia.
Qed.

Lemma scan_slots_spec (slots : list Z) (n : nat) :
  forall (k : nat) (node_count : list Z),
  (k + n = length slots)%nat -> Forall scannable slots ->
  length node_count = 43%nat ->
  exists node_count',
    scan_slots slots (seq k n) node_count = Ok node_count' /\
    length node_count' = 43%nat /\
    (forall d, (d < 43)%nat ->
       node_count' !!! d
       = node_count !!! d + Z.of_nat (length (at_depth d (drop k slots)))) /\
    total node_count' = total node_count + Z.of_nat (occupied (drop k slots)).
Proof.
  induction n as [|n IH]; intros k node_count Hk Hgood Hlen.
  - exists node_count. rewrite drop_ge by lia. cbn.
    split_and!; [done|done|intros; lia|lia].
  - cbn [seq scan_slots].
    assert (Hat : slots !! k = Some (slots !!! k))
      by (apply list_lookup_lookup_total_lt; lia).
    destruct (scan_slot_spec slots node_count k) as (nc1 & -> & Hl1 & Hd1 & Ht1);
      [by apply (Forall_lookup_1 _ _ k _ Hgood)|done|].
    cbn [bind].
    destruct (IH (S k) nc1 ltac:(lia) Hgood Hl1) as (nc2 & -> & Hl2 & Hd2 & Ht2).
    exists nc2. rewrite (drop_S slots (slots !!! k) k Hat).
    split_and!; [done|done| |].
    + intros d Hd. rewrite Hd2, Hd1 by done. rewrite at_depth_cons.
      destruct (decide _); lia.
    + rewrite Ht2, Ht1. rewrite occupied_cons. destruct (decide _); lia.
Qed.

Lemma slot_depth_encoded (s : string) (b record : Z) :
  moveseq_to_board49 s = Ok b ->
  key_of (Z.lor (b + 1) (Z.shiftl record VAL_SHIFT)) - 1 = b /\
  slot_depth (Z.lor (b + 1) (Z.shiftl record VAL_SHIFT)) = Some (String.length s).
Proof.
  intros He. pose proof (encode_key_range s b He) as Hk.
  pose proof (entry_key b record Hk) as Hkey.
  split; [lia|]. unfold slot_depth.
  destruct (Z.eqb_spec (Z.lor (b + 1) (Z.shiftl record VAL_SHIFT)) 0) as [H0|_].
  { by apply entry_nonzero in H0. }
  rewrite Hkey. replace (b + 1 - 1) with b by lia.
  pose proof (encode_legal s b He) as Hl.
  destruct (codec_counts s Hl) as (hs & ps & bd & Hok & Hsh & H49 & _ & Hcnt).
  assert (b = pack_columns hs ps (seq 0 7)) as -> by congruence.
  rewrite (decode_packed hs ps bd Hok Hsh). f_equal.
  rewrite (count_stones_shows bd hs ps Hok Hsh). rewrite !Hcnt by lia.
  symmetry. apply column_digits_length. by apply legal_counts.
Qed.

Lemma slot_ok_scannable (query : string -> bool * list (option Z)) (e : Z) :
  slot_ok query e -> scannable e.
Proof.
  intros [->|(s & b & v & record & _ & He & _ & _ & ->)]; [by left|].
  right. exists (String.length s).
  split; [by apply slot_depth_encoded|].
  apply legal_length. by apply (encode_legal s b).
Qed.

(** X17.  The histogram loop of [__main__], run on the table a [search]
    from a new table leaves (the oracle well formed and answering by
    position), raises nothing: every stored key decodes, and its stone
    count indexes one of the 43 bins.  Bin [d] ends as the number of
    stored positions of [d] stones, each stored position is the code of a
    reachable sequence and is filed under the length of that sequence,
    and the bins sum to the table's [size]. *)
Theorem histogram_after_search (query : string -> bool * list (option Z))
    (capacity : Z) (tb : t) (fuel : nat) (s : string) (alpha beta : Z)
    (w' : world) (r : outcome Z) :
  oracle_wf query -> oracle_consistent query ->
  new capacity = Ok tb -> reachable query s ->
  search query fuel s alpha beta (World tb []) = (w', r) ->
  exists node_count,
    node_histogram (table w') = Ok node_count /\
    length node_count = 43%nat /\
    (forall d, (d < 43)%nat ->
       node_count !!! d = Z.of_nat (length (at_depth d (slots (table w'))))) /\
    total node_count = Z.of_nat (TT.size (table w')) /\
    (forall e, e ∈ slots (table w') -> e <> 0 ->
       exists s', reachable query s' /\
         moveseq_to_board49 s' = Ok (key_of e - 1) /\
         slot_depth e = Some (String.length s')).
Proof.
  intros Hwf Hcons Hnew Hreach Hs.
  destruct (search_ok query Hwf Hcons fuel s alpha beta Hreach (World tb [])
              (world_ok_new query capacity tb Hnew)) as [Hok _].
  destruct (search_keeps (replays tb) query (tt_set_replays tb) fuel s alpha beta
              (World tb [])) as [[Ht _] _]; [by split|].
  rewrite Hs in Hok, Ht. simpl in Hok, Ht.
  destruct Hok as (Hwf' & Hslots & _).
  destruct (scan_slots_spec (slots (table w')) (length (slots (table w'))) 0
              (replicate 43 0)) as (nc & Hscan & Hlen & Hd & Htot); [lia| |done|].
  { eapply Forall_impl; [exact Hslots|]. apply slot_ok_scannable. }
  exists nc. split_and!; [done|done| | |].
  - intros d Hlt. rewrite (Hd d Hlt). rewrite drop_0.
    rewrite lookup_total_replicate_2 by done. lia.
  - rewrite Htot, drop_0. change (total (replicate 43 0)) with 0.
    pose proof (represents_new capacity tb Hnew) as (Hwf0 & _ & _ & Hs0 & Ho0 & _).
    rewrite Ht. rewrite (run_sets_occupied (stores w') tb Hwf0); [lia|].
    by rewrite Hs0, Ho0.
  - intros e Hin Hne. rewrite Forall_forall in Hslots.
    destruct (Hslots e Hin) as [?|(s' & b & v & record & Hr' & He & _ & _ & ->)];
      [done|].
    destruct (slot_depth_encoded s' b record He) as [Hkey Hdepth].
    exists s'. rewrite Hkey. done.
Qed.

Lemma histogram_after_search_witness :
  exists node_count,
    node_histogram
      (table (search toy_oracle 5 "" (-1) 1
                (World (mk 8 [0; 0; 0; 0; 0; 0; 0; 0] 0) [])).1) = Ok node_count /\
    length node_count = 43%nat /\
    (forall d, (d < 43)%nat ->
       node_count !!! d
       = Z.of_nat (length (at_depth d
           (slots (table (search toy_oracle 5 "" (-1) 1
                            (World (mk 8 [0; 0; 0; 0; 0; 0; 0; 0] 0) [])).1))))) /\
    total node_count
    = Z.of_nat (TT.size (table (search toy_oracle 5 "" (-1) 1
                                  (World (mk 8 [0; 0; 0; 0; 0; 0; 0; 0] 0) [])).1)) /\
    (forall e,
       e ∈ slots (table (search toy_oracle 5 "" (-1) 1
                           (World (mk 8 [0; 0; 0; 0; 0; 0; 0; 0] 0) [])).1) ->
       e <> 0 ->
       exists s', reachable toy_oracle s' /\
         moveseq_to_board49 s' = Ok (key_of e - 1) /\
         slot_depth e = Some (String.length s')).
Proof.
  apply (histogram_after_search toy_oracle 8 (mk 8 [0; 0; 0; 0; 0; 0; 0; 0] 0)
           5 "" (-1) 1 _
           (search toy_oracle 5 "" (-1) 1
              (World (mk 8 [0; 0; 0; 0; 0; 0; 0; 0] 0) [])).2).
  - exact toy_oracle_wf.
  - exact toy_oracle_consistent.
  - reflexivity.
  - apply reach_root.
  - by destruct (search toy_oracle 5 "" (-1) 1 _).
Defined.

End ScanFacts.

(** ** Facts about the answer lines *)

Module WdlFacts.
Import WdlSpec.

Section AnswerFacts.
Variable isspace : N -> bool.
Variable int_of : pystr -> option Z.

Lemma split_lstrip (s : pystr) :
  split isspace (lstrip isspace s) = split isspace s.
Proof.
  unfold split. induction s as [|c s IH]; [done|]. simpl.
  destruct (isspace c) eqn:Hc; [done|]. simpl. by rewrite Hc.
Qed.

Lemma split_from_space (s : pystr) (c : N) :
  isspace c = true ->
  forall tok, split_from isspace (s ++ [c]) tok = split_from isspace s tok.
Proof.
  intros Hc. induction s as [|a s IH]; intros tok; simpl.
  - rewrite Hc. by destruct tok.
  - destruct (isspace a); [destruct tok|]; by rewrite ?IH.
Qed.

Lemma split_from_rstrip (r : pystr) (tok : pystr) :
  split_from isspace (reverse (lstrip isspace r)) tok
  = split_from isspace (reverse r) tok.
Proof.
  induction r as [|c r IH]; [done|]. simpl.
  destruct (isspace c) eqn:Hc; [|done].
  rewrite reverse_cons, split_from_space by done. exact IH.
Qed.

Lemma split_strip (s : pystr) :
  split isspace (strip isspace s) = split isspace s.
Proof.
  unfold strip, split at 1. rewrite split_from_rstrip, reverse_involutive.
  apply split_lstrip.
Qed.

Lemma parse_vals_spec (toks : list pystr) :
  forall vals, parse_vals int_of toks = Ok vals <->
    Forall2 (token_value int_of) toks vals.
Proof.
  induction toks as [|t toks IH]; intros vals; simpl.
  - split; [by intros [= <-]; constructor|]. intros H. by inversion H.
  - unfold token_value at 1. split.
    + destruct (bool_decide (t = tok_dot)) eqn:Hd.
      * simpl. destruct (parse_vals int_of toks) as [vs| |] eqn:Hp; [|done|done].
        simpl. intros [= <-]. constructor; [unfold token_value; by rewrite Hd|].
        by apply IH.
      * destruct (int_of t) as [z|] eqn:Hz; [|done]. simpl.
        destruct (parse_vals int_of toks) as [vs| |] eqn:Hp; [|done|done].
        simpl. intros [= <-]. constructor; [|by apply IH].
        unfold token_value. rewrite Hd. eauto.
    + intros H. inversion H as [|t' v toks' vs Hv Hvs]; subst.
      apply IH in Hvs. rewrite Hvs. unfold token_value in Hv.
      destruct (bool_decide (t = tok_dot)); [by subst|].
      destruct Hv as (z & -> & ->). done.
Qed.

Lemma parse_vals_raises (toks : list pystr) :
  parse_vals int_of toks <> OutOfFuel /\
  forall e, parse_vals int_of toks = Raise e -> e = ValueError.
Proof.
  induction toks as [|t toks [IH1 IH2]]; simpl; [done|].
  destruct (bool_decide (t = tok_dot)); simpl.
  - destruct (parse_vals int_of toks) as [vs|e'|]; simpl; [done| |done].
    split; [done|]. intros e [= <-]. by apply IH2.
  - destruct (int_of t); simpl; [|split; [done|by intros e [= <-]]].
    destruct (parse_vals int_of toks) as [vs|e'|]; simpl; [done| |done].
    split; [done|]. intros e [= <-]. by apply IH2.
Qed.

Lemma is_flag_spec (t : pystr) : is_flag t = true <-> t = tok_0 \/ t = tok_1.
Proof.
  unfold is_flag. rewrite orb_true_iff, !bool_decide_eq_true. done.
Qed.

Lemma parse_line_iff (line : pystr) (terminal : bool) (vals : list (option Z)) :
  _parse_compact_line isspace int_of line = Ok (terminal, vals) <->
  exists t0 ts,
    split isspace line = t0 :: ts /\ length ts = 7%nat /\
    (t0 = tok_0 /\ terminal = false \/ t0 = tok_1 /\ terminal = true) /\
    Forall2 (token_value int_of) ts vals.
Proof.
  unfold _parse_compact_line. rewrite split_strip.
  destruct (split isspace line) as [|t0 ts] eqn:Hs.
  { simpl. split; [done|]. by intros (t0 & ts & ? & _). }
  cbn [length list_get lookup list_lookup bind drop]. rewrite drop_0.
  destruct (Nat.eqb_spec (S (length ts)) 8) as [Hl|Hl]; simpl.
  - destruct (is_flag t0) eqn:Hf; simpl.
    + apply is_flag_spec in Hf.
      destruct (parse_vals int_of ts) as [vs| |] eqn:Hp; simpl.
      * apply parse_vals_spec in Hp. split.
        -- intros [= <- <-]. exists t0, ts. split_and!; [done|lia| |done].
           destruct Hf as [-> | ->]; [left|right]; done.
        -- intros (t0' & ts' & [= <- <-] & _ & Ht & Hvs).
           apply parse_vals_spec in Hp, Hvs.
           assert (vs = vals) as -> by congruence.
           destruct Ht as [[-> ->]|[-> ->]]; done.
      * split; [done|]. intros (t0' & ts' & [= <- <-] & _ & _ & Hvs).
        apply parse_vals_spec in Hvs. congruence.
      * split; [done|]. intros (t0' & ts' & [= <- <-] & _ & _ & Hvs).
        apply parse_vals_spec in Hvs. congruence.
    + split; [done|]. intros (t0' & ts' & [= <- <-] & _ & Ht & _).
      assert (is_flag t0 = true) by (apply is_flag_spec; tauto). congruence.
  - split; [done|]. intros (t0' & ts' & [= <- <-] & Hlen & _). lia.
Qed.

Lemma parse_line_length (line : pystr) (terminal : bool) (vals : list (option Z)) :
  _parse_compact_line isspace int_of line = Ok (terminal, vals) ->
  length vals = 7%nat.
Proof.
  intros H. apply parse_line_iff in H as (t0 & ts & _ & Hl & _ & Hvs).
  apply Forall2_length in Hvs. lia.
Qed.

Lemma parse_line_raises (line : pystr) :
  (forall tv, _parse_compact_line isspace int_of line <> Ok tv) ->
  _parse_compact_line isspace int_of line = Raise ValueError.
Proof.
  intros Hno. unfold _parse_compact_line in *.
  destruct (split isspace (strip isspace line)) as [|t0 ts]; [done|].
  destruct (negb _); [done|].
  cbn [list_get lookup list_lookup bind drop] in *. rewrite drop_0 in *.
  destruct (negb _); [done|].
  pose proof (parse_vals_raises ts) as [Hf He].
  destruct (parse_vals int_of ts) as [vs|e|] eqn:Hp; simpl in *.
  - by exfalso; eapply Hno.
  - f_equal. by apply He.
  - done.
Qed.

Lemma parse_line_cases (line : pystr) :
  _parse_compact_line isspace int_of line = Raise ValueError \/
  exists terminal vals,
    _parse_compact_line isspace int_of line = Ok (terminal, vals) /\
    length vals = 7%nat.
Proof.
  destruct (_parse_compact_line isspace int_of line) as [[terminal vals]|e|] eqn:Hp.
  - right. exists terminal, vals. split; [done|]. by apply (parse_line_length line terminal).
  - left. rewrite <- Hp. apply parse_line_raises. congruence.
  - left. rewrite <- Hp. apply parse_line_raises. congruence.
Qed.

Lemma parse_line_strip (line : pystr) :
  _parse_compact_line isspace int_of (strip isspace line)
  = _parse_compact_line isspace int_of line.
Proof. unfold _parse_compact_line. by rewrite !split_strip. Qed.

Lemma answer_line_check (line : pystr) :
  (length (split isspace line) =? 8)%nat
  && match split isspace line with t0 :: _ => is_flag t0 | [] => false end = true
  <-> answer_line isspace line.
Proof.
  unfold answer_line. destruct (split isspace line) as [|t0 ts].
  - simpl. split; [done|]. by intros (? & ? & ? & _).
  - rewrite andb_true_iff, Nat.eqb_eq, is_flag_spec. simpl. split.
    + intros [Hl Hf]. exists t0, ts. split_and!; [done|lia|done].
    + intros (t0' & ts' & [= <- <-] & Hl & Hf). split; [lia|done].
Qed.

(** X20.  [_parse_compact_line] reads a line through its white-space
    separated tokens only (the [strip()] before [split()] changes
    nothing).  It returns exactly when there are eight tokens, the first
    ["0"] or ["1"] and each of the others ["."] or accepted by [int];
    the flag is whether the first token is ["1"], and the answer has
    seven entries, one per token, in order.  On any other line it raises
    [ValueError]. *)
Theorem parse_compact_line_spec (line : pystr) :
  (forall terminal vals,
     _parse_compact_line isspace int_of line = Ok (terminal, vals) <->
     exists t0 ts,
       split isspace line = t0 :: ts /\ length ts = 7%nat /\
       (t0 = tok_0 /\ terminal = false \/ t0 = tok_1 /\ terminal = true) /\
       Forall2 (token_value int_of) ts vals) /\
  (forall terminal vals,
     _parse_compact_line isspace int_of line = Ok (terminal, vals) ->
     length vals = 7%nat) /\
  ((forall tv, _parse_compact_line isspace int_of line <> Ok tv) ->
   _parse_compact_line isspace int_of line = Raise ValueError).
Proof.
  split; [apply parse_line_iff|]. split; [apply parse_line_length|].
  apply parse_line_raises.
Qed.

(** X21.  The reading loop of [query] skips every line up to the first
    one with eight tokens and a flag in front, and answers with what the
    parser makes of that line: a flag with seven entries, or the
    [ValueError] of a token [int] refuses; the two format checks of the
    parser cannot fail there.  The lines after it stay unread.  It ends
    in the [RuntimeError] exactly when the output ends before such a
    line. *)
Theorem read_answer_spec (lines rest : list pystr) (rep : reply) :
  read_answer isspace int_of lines = (rest, rep) ->
  exists skipped,
    Forall (fun l => l <> [] /\ ~ answer_line isspace l) skipped /\
    match rep with
    | Answer r =>
        exists line,
          lines = skipped ++ line :: rest /\ answer_line isspace line /\
          r = _parse_compact_line isspace int_of line /\
          (r = Raise ValueError \/
           exists terminal vals, r = Ok (terminal, vals) /\ length vals = 7%nat)
    | ServerGone =>
        (lines = skipped /\ rest = []) \/ lines = skipped ++ [] :: rest
    end.
Proof.
  revert rest rep. induction lines as [|line lines IH]; intros rest rep; simpl.
  { intros [= <- <-]. exists []. split; [constructor|]. by left. }
  destruct line as [|c line].
  { intros [= <- <-]. exists []. split; [constructor|]. by right. }
  set (l := c :: line).
  assert (Hskip : ~ answer_line isspace l ->
            read_answer isspace int_of lines = (rest, rep) ->
            exists skipped,
              Forall (fun l => l <> [] /\ ~ answer_line isspace l) skipped /\
              match rep with
              | Answer r =>
                  exists line0,
                    l :: lines = skipped ++ line0 :: rest /\
                    answer_line isspace line0 /\
                    r = _parse_compact_line isspace int_of line0 /\
                    (r = Raise ValueError \/
                     exists terminal vals,
                       r = Ok (terminal, vals) /\ length vals = 7%nat)
              | ServerGone =>
                  (l :: lines = skipped /\ rest = []) \/
                  l :: lines = skipped ++ [] :: rest
              end).
  { intros Hn Hr. destruct (IH rest rep Hr) as (skipped & Hsk & Hrep).
    exists (l :: skipped). split; [by constructor|].
    destruct rep as [r|].
    - destruct Hrep as (line0 & -> & Hrest). by exists line0.
    - destruct Hrep as [[-> ->] | ->]; [by left|by right]. }
  destruct (strip isspace l) as [|c' s'] eqn:Hs.
  { apply Hskip. intros (t0 & ts & Hsp & _).
    rewrite <- split_strip, Hs in Hsp. done. }
  rewrite <- Hs.
  pose proof (answer_line_check (strip isspace l)) as Hchk.
  destruct (_ && _).
  - intros [= <- <-]. exists []. split; [constructor|].
    assert (Ha : answer_line isspace l).
    { destruct (proj1 Hchk eq_refl) as (t0 & ts & Hsp & Hrest).
      exists t0, ts. by rewrite <- split_strip. }
    exists l. split_and!; [done|done|apply parse_line_strip|].
    rewrite parse_line_strip. apply parse_line_cases.
  - apply Hskip. intros (t0 & ts & Hsp & Hrest).
    assert (false = true); [|done]. apply Hchk.
    exists t0, ts. by rewrite split_strip.
Qed.

End AnswerFacts.

Example parse_line_example :
  _parse_compact_line ascii_space wdl_int (codes "  1 .  -1 0 1 . . ." ++ [10%N])
  = Ok (true, [None; Some (-1); Some 0; Some 1; None; None; None]) /\
  _parse_compact_line ascii_space wdl_int (codes "1 . -1 0 1 . .") = Raise ValueError /\
  _parse_compact_line ascii_space wdl_int (codes "2 . -1 0 1 . . .") = Raise ValueError /\
  _parse_compact_line ascii_space wdl_int (codes "0 . -1 0 1 . . x") = Raise ValueError.
Proof. repeat split. Qed.

Lemma read_answer_spec_witness :
  exists skipped,
    Forall (fun l => l <> [] /\ ~ answer_line ascii_space l) skipped /\
    exists line,
      [codes "ready"; [10%N]; codes "0 1 . . -1 . . 0" ++ [10%N]; codes "next"]
      = skipped ++ line :: [codes "next"] /\
      answer_line ascii_space line /\
      Ok (false, [Some 1; None; None; Some (-1); None; None; Some 0])
      = _parse_compact_line ascii_space wdl_int line /\
      (Ok (false, [Some 1; None; None; Some (-1); None; None; Some 0])
       = Raise ValueError \/
       exists terminal vals,
         Ok (false, [Some 1; None; None; Some (-1); None; None; Some 0])
         = Ok (terminal, vals) /\ length vals = 7%nat).
Proof.
  apply (read_answer_spec ascii_space wdl_int
           [codes "ready"; [10%N]; codes "0 1 . . -1 . . 0" ++ [10%N]; codes "next"]
           [codes "next"]
           (Answer (Ok (false, [Some 1; None; None; Some (-1); None; None; Some 0])))).
  reflexivity.
Defined.

End WdlFacts.
